(** * Lincoln historical-divergence pipeline: chunker, comparator, statistics

    A shallow embedding of the parts of the pipeline that carry logic, and
    the properties of them that the specification states.

    - [src/event_extraction/document_chunker.py]  (module [document_chunker])
    - [src/llm_judge/statistics.py]               (modules [statistics],
                                                   [judge_statistics])
    - [src/llm_judge/comparator.py]               (module [comparator])
    - [src/event_extraction/main.py]              (module [extraction_main])
    - [src/event_extraction/llm_extractor.py]     (module [llm_extractor])
    - [src/llm_judge/main.py]                     (module [judge_main])
    - [src/data_acquisition/normalizer.py]        (module [normalizer])

    The modules whose name ends in [_spec] hold the notions the properties
    are stated with, those whose name ends in [_samples] the inputs of the
    examples.

    Conventions of the embedding.

    - A Python [str] is a list of characters, [str := list ascii]; a character
      is a code point below 256 (Latin-1), and [isspace] and [lower] follow
      Python's tables on that range.  There [str.lower] keeps the length of
      a string; beyond it [str.lower] can lengthen a string (U+0130 becomes
      two code points) and never shortens one.  So a condition on the
      length of a candidate is put on the lower-cased string, and the only
      fact used of the length of [lower s] is that it is at least that of
      [s].
    - A Python [int] used as a length, a size or an index is a [nat]; the
      offsets [start_char] and [end_char], which the code computes with
      subtractions, and the scores are in [Z].
    - Python's [float] results in the statistics module are idealised as exact
      rationals ([Qc]); an [int] result stays an integer ([PyInt]).  A bound
      on a mean is stated for scores that a float holds exactly, where the
      rounding of the mean obeys the same bound and no conversion
      overflows.
    - A dictionary with a fixed set of keys is a record; a key that may be
      missing is an [option] field.
    - Calls that leave the repository (the remote extractor, [str.title],
      [statistics.stdev]) are section variables. *)

From Stdlib Require Import Ascii String DecimalString QArith Qcanon.
From stdpp Require Import base decidable option list numbers countable
  strings gmap gmultiset.

Local Open Scope nat_scope.

(** ** Python strings *)

Module pystr.

Definition str := list ascii.

(** A literal, written as a Rocq string. *)
Definition lit (s : string) : str := list_ascii_of_string s.

Definition code (c : ascii) : nat := nat_of_ascii c.

(** [str.isspace] on one character: TAB, LF, VT, FF, CR, the separators
    FS, GS, RS, US, the space, NEL and the no-break space. *)
Definition isspace (c : ascii) : bool :=
  let n := code c in
  ((9 <=? n) && (n <=? 13)) || ((28 <=? n) && (n <=? 32))
  || (n =? 133) || (n =? 160).

(** [str.lower] on one character: A-Z and the upper-case Latin-1 letters
    (all of U+00C0..U+00DE but the multiplication sign) move up by 32. *)
Definition lower_char (c : ascii) : ascii :=
  let n := code c in
  if ((65 <=? n) && (n <=? 90))
     || ((192 <=? n) && (n <=? 222) && negb (n =? 215))
  then ascii_of_nat (n + 32) else c.

(** [s.lower()], character by character as on Latin-1; see the
    conventions for strings beyond that range. *)
Definition lower (s : str) : str := map lower_char s.

Definition is_nl (c : ascii) : bool := code c =? 10.

Definition nl : ascii := ascii_of_nat 10.

(** The separator ["\n\n"] that joins paragraphs. *)
Definition para_sep : list ascii := [nl; nl].

(** Truthiness of a string: [if s] holds for the non-empty ones. *)
Definition truthy (s : str) : bool :=
  match s with [] => false | _ :: _ => true end.

(** [s.lstrip()], [s.rstrip()], [s.strip()]. *)
Fixpoint lstrip (s : str) : str :=
  match s with
  | [] => []
  | c :: s' => if isspace c then lstrip s' else s
  end.

Definition rstrip (s : str) : str := rev (lstrip (rev s)).

Definition strip (s : str) : str := lstrip (rstrip s).

(** [s[-k:]]: the last [k] characters, all of [s] when [k] is at least its
    length; and, since [-0] is [0], all of [s] when [k] is [0]. *)
Definition neg_slice (k : nat) (s : str) : str :=
  match k with
  | 0 => s
  | S _ => drop (length s - k) s
  end.

(** [p] is a prefix of [s] ([s.startswith(p)]). *)
Fixpoint startswith (s p : str) {struct p} : bool :=
  match p, s with
  | [], _ => true
  | _ :: _, [] => false
  | a :: p', b :: s' => bool_decide (a = b) && startswith s' p'
  end.

(** [k in s] on strings: [k] occurs in [s] as a contiguous substring. *)
Fixpoint contains (s k : str) : bool :=
  startswith s k ||
  match s with
  | [] => false
  | _ :: s' => contains s' k
  end.

(** [s.split()]: the maximal runs of non-whitespace characters. *)
Fixpoint split_ws_from (cur : str) (s : str) : list str :=
  match s with
  | [] => if truthy cur then [cur] else []
  | c :: s' =>
      if isspace c
      then (if truthy cur then cur :: split_ws_from [] s'
            else split_ws_from [] s')
      else split_ws_from (cur ++ [c]) s'
  end.

Definition split_ws (s : str) : list str := split_ws_from [] s.

(** The greedy match of [\s*\n] at the head of [s]: [\s*] takes the whole
    whitespace run and gives characters back until a newline follows, so
    the match ends at the last newline of the run.  [Some k] is the number
    of characters matched, [None] says the run holds no newline. *)
Fixpoint match_ws_nl (s : str) : option nat :=
  match s with
  | [] => None
  | c :: s' =>
      if isspace c then
        match match_ws_nl s' with
        | Some k => Some (S k)
        | None => if is_nl c then Some 1 else None
        end
      else None
  end.

(** [re.split(r'\n\s*\n', s)]: the pieces between the leftmost,
    non-overlapping matches.  [skip] counts the characters of the current
    match that are still to be passed over; [cur] is the piece being read. *)
Fixpoint re_split_from (skip : nat) (cur : str) (s : str) : list str :=
  match s with
  | [] => [cur]
  | c :: s' =>
      match skip with
      | S k => re_split_from k cur s'
      | 0 =>
          if is_nl c then
            match match_ws_nl s' with
            | Some k => cur :: re_split_from k [] s'
            | None => re_split_from 0 (cur ++ [c]) s'
            end
          else re_split_from 0 (cur ++ [c]) s'
      end
  end.

Definition re_split_paragraphs (s : str) : list str := re_split_from 0 [] s.

(** The decimal digits of a number, as [str(n)] and an f-string give them. *)
Definition str_of_nat (n : nat) : str :=
  lit (NilZero.string_of_uint (Nat.to_uint n)).

(** [s] holds [k] as a contiguous substring. *)
Definition substring (k s : str) : Prop :=
  ∃ a b : str, s = a ++ k ++ b.

End pystr.

(** ** [src/event_extraction/document_chunker.py] *)

Module document_chunker.
Import pystr.

(** A chunk dictionary, with the five keys the chunker writes. *)
Record chunk := mk_chunk {
  chunk_id : str;
  text : str;
  start_char : Z;
  end_char : Z;
  chunk_index : nat
}.

#[global] Instance chunk_eq_dec : EqDecision chunk.
Proof. solve_decision. Defined.

(** [f"{document_id}_chunk_{chunk_index}"] *)
Definition make_chunk_id (document_id : str) (chunk_index : nat) : str :=
  document_id ++ lit "_chunk_" ++ str_of_nat chunk_index.

Definition len (s : str) : Z := Z.of_nat (length s).

(** The local variables of the paragraph loop of [chunk_document]. *)
Record loop_state := mk_state {
  chunks : list chunk;
  current_chunk : str;
  chunk_start : Z;
  cur_index : nat
}.

Section chunker.
(** The fields of a [DocumentChunker] object
    ([__init__(self, chunk_size=2000, overlap=200)]). *)
Variable chunk_size : nat.
Variable overlap : nat.

(** [current_chunk[-self.overlap:] if len(current_chunk) > self.overlap
    else current_chunk] *)
Definition overlap_text_of (current : str) : str :=
  if overlap <? length current then neg_slice overlap current else current.

(** One turn of [for para in paragraphs]. *)
Definition loop_body (document_id : str) (st : loop_state) (para0 : str)
  : loop_state :=
  let para := strip para0 in
  if negb (truthy para) then st
  else
    let cur := current_chunk st in
    if (chunk_size <? length cur + length para) && truthy cur then
      let saved :=
        mk_chunk (make_chunk_id document_id (cur_index st))
                 (strip cur)
                 (chunk_start st)
                 (chunk_start st + len cur)
                 (cur_index st) in
      let overlap_text := overlap_text_of cur in
      let cur' := overlap_text ++ para_sep ++ para in
      mk_state (chunks st ++ [saved])
               cur'
               (chunk_start st + len cur' - len overlap_text - len para - 2)
               (cur_index st + 1)
    else
      mk_state (chunks st)
               (if truthy cur then cur ++ para_sep ++ para else para)
               (chunk_start st)
               (cur_index st).

(** The code after the loop: the buffer becomes the last chunk unless it
    is blank. *)
Definition finish (document_id : str) (st : loop_state) : list chunk :=
  let cur := current_chunk st in
  if truthy (strip cur) then
    chunks st ++
      [mk_chunk (make_chunk_id document_id (cur_index st))
                (strip cur)
                (chunk_start st)
                (chunk_start st + len cur)
                (cur_index st)]
  else chunks st.

Definition run_loop (document_id : str) (st : loop_state)
    (paragraphs : list str) : loop_state :=
  foldl (loop_body document_id) st paragraphs.

(** [DocumentChunker.chunk_document(self, text, document_id)] *)
Definition chunk_document (text : str) (document_id : str) : list chunk :=
  if negb (truthy text) || (length text <? chunk_size) then
    [mk_chunk (make_chunk_id document_id 0) text 0 (len text) 0]
  else
    let paragraphs := re_split_paragraphs text in
    finish document_id
      (run_loop document_id (mk_state [] [] 0 0) paragraphs).

End chunker.

(** The first loop of [find_relevant_chunks]: for every lower-cased keyword
    its words, then the keyword itself. *)
Definition partial_keywords_of (keywords_lower : list str) : list str :=
  foldl (λ partial kw, (partial ++ split_ws kw) ++ [kw]) [] keywords_lower.

(** The second loop: keep a keyword the first time it is seen, if it is
    longer than 3 characters.  The state is [(seen, unique_keywords)]. *)
Definition dedup_step (st : gset str * list str) (kw : str)
  : gset str * list str :=
  let '(seen, unique_keywords) := st in
  if bool_decide (kw ∉ seen) && (3 <? length kw)
  then ({[ kw ]} ∪ seen, unique_keywords ++ [kw])
  else st.

Definition unique_keywords_of (partial_keywords : list str) : list str :=
  snd (foldl dedup_step (∅, []) partial_keywords).

(** [any(keyword in text_lower for keyword in unique_keywords)] *)
Definition any_keyword_in (unique_keywords : list str) (text_lower : str)
  : bool :=
  existsb (λ keyword, contains text_lower keyword) unique_keywords.

(** [DocumentChunker.find_relevant_chunks(self, chunks, event_keywords)];
    the method reads no field of the object. *)
Definition find_relevant_chunks (chunks : list chunk)
    (event_keywords : list str) : list chunk :=
  let keywords_lower := map lower event_keywords in
  let unique_keywords :=
    unique_keywords_of (partial_keywords_of keywords_lower) in
  foldl (λ relevant c,
           if any_keyword_in unique_keywords (lower (text c))
           then relevant ++ [c] else relevant)
        [] chunks.

(** The separator ["\n\n---\n\n"] of [combine_chunks]. *)
Definition chunk_sep : str := [nl; nl] ++ lit "---" ++ [nl; nl].

(** One turn of the loop of [combine_chunks].  The state is the text
    combined so far and whether [break] has been executed. *)
Definition combine_step (max_length : nat) (st : str * bool) (c : chunk)
  : str * bool :=
  let '(combined, stopped) := st in
  if stopped then st
  else if max_length <? length combined + length (text c) then (combined, true)
  else (if truthy combined then combined ++ chunk_sep ++ text c else text c,
        false).

(** [DocumentChunker.combine_chunks(self, chunks, max_length=8000)] *)
Definition combine_chunks (chunks : list chunk) (max_length : nat) : str :=
  fst (foldl (combine_step max_length) ([], false) chunks).

End document_chunker.

(** ** Overlap and reconstruction, as properties of the chunk texts *)

Module chunker_spec.
Import pystr document_chunker.

(** The non-whitespace characters of a string, in order. *)
Definition nonws (s : str) : str := List.filter (λ c, negb (isspace c)) s.

(** The trailing suffix of [k] characters (all of [s] when it is shorter). *)
Definition suffix_of_length (k : nat) (s : str) : str :=
  drop (length s - k) s.

(** [s] begins with [p]. *)
Definition begins_with (s p : str) : Prop := ∃ rest, s = p ++ rest.

(** A relation holds of every chunk text and the one after it. *)
Definition each_next (R : str → str → Prop) (texts : list str) : Prop :=
  ∀ i a b, texts !! i = Some a → texts !! (S i) = Some b → R a b.

(** What the chunker carries over from a chunk whose text is [prev] into
    the text of the next one: the overlap text, less the leading whitespace
    that [strip] removes. *)
Definition carried_overlap (overlap : nat) (prev : str) : str :=
  lstrip (overlap_text_of overlap prev).

(** The chunk texts with the carried-over overlap removed from the front of
    every chunk but the first. *)
Fixpoint remove_overlaps (overlap : nat) (prev : option str)
    (texts : list str) : list str :=
  match texts with
  | [] => []
  | t :: texts' =>
      match prev with
      | None => t
      | Some p => drop (length (carried_overlap overlap p)) t
      end :: remove_overlaps overlap (Some t) texts'
  end.

Definition reconstruct (overlap : nat) (texts : list str) : str :=
  concat (remove_overlaps overlap None texts).

(** Every character is whitespace. *)
Definition all_space (s : str) : Prop := Forall (λ c, isspace c = true) s.

(** The last character of the string is not whitespace. *)
Definition ends_nonws (s : str) : Prop :=
  ∃ t c, s = t ++ [c] ∧ isspace c = false.

(** The texts of the chunks a state of the paragraph loop stands for: those
    saved so far, then the buffer, stripped, when it is not empty. *)
Definition texts_of (st : loop_state) : list str :=
  map text (chunks st)
  ++ (if truthy (current_chunk st) then [strip (current_chunk st)] else []).

(** The invariant of the paragraph loop, with [seen] the pieces of the split
    handled so far. *)
Record loop_inv (overlap : nat) (st : loop_state) (seen : list str)
  : Prop := mk_loop_inv {
  inv_empty : current_chunk st = [] → chunks st = [];
  inv_ends : current_chunk st ≠ [] → ends_nonws (current_chunk st);
  inv_next :
    each_next (λ a b, begins_with b (carried_overlap overlap a)) (texts_of st);
  inv_recon :
    nonws (reconstruct overlap (texts_of st)) = nonws (concat seen)
}.

(** A paragraph: not empty, without whitespace at either end, and without
    a blank line inside, so that the split leaves it whole. *)
Definition paragraph (p : str) : Prop :=
  p ≠ [] ∧ strip p = p ∧ re_split_paragraphs p = [p].

(** Two paragraphs of 1200 characters each; the last 200 characters of the
    first are a space and a word of 199 letters. *)
Definition spaced_paragraph : str :=
  replicate 1000 "A"%char ++ [" "%char] ++ replicate 199 "B"%char.

Definition plain_paragraph : str := replicate 1200 "C"%char.

Definition two_paragraphs : str :=
  spaced_paragraph ++ para_sep ++ plain_paragraph.

End chunker_spec.

(** ** Relevance of a chunk, as a property *)

Module relevance_spec.
Import pystr document_chunker.

(** Relevance as the claim words it: the lower-cased text holds some
    lower-cased keyword, or some word longer than 3 characters of a keyword
    of several words. *)
Definition relevant_as_claimed (event_keywords : list str) (c : chunk) : Prop :=
  ∃ kw, kw ∈ event_keywords ∧
    (substring (lower kw) (lower (text c))
     ∨ (1 < length (split_ws (lower kw))
        ∧ ∃ w, w ∈ split_ws (lower kw) ∧ 3 < length w
               ∧ substring w (lower (text c)))).

(** Relevance as the code decides it: the lower-cased text holds a candidate
    longer than 3 characters, where the candidates of a keyword are the
    lower-cased keyword and each of its whitespace-separated words. *)
Definition relevant (event_keywords : list str) (c : chunk) : Prop :=
  ∃ kw k, kw ∈ event_keywords
    ∧ (k = lower kw ∨ k ∈ split_ws (lower kw))
    ∧ 3 < length k
    ∧ substring k (lower (text c)).

(** A chunk that mentions the war, and the one keyword "war". *)
Definition war_chunk : chunk :=
  mk_chunk (lit "doc_chunk_0") (lit "The war began at Fort Sumter.") 0 29 0.

Definition war_keywords : list str := [lit "war"].

End relevance_spec.

(** ** [src/llm_judge/statistics.py] *)

(** Floats are read as the rationals they stand for, so a sum does not
    depend on the order of its terms.  The places where the code compares
    or divides behave alike in binary64: [n / n] is [1.0], [1 - e] is zero
    only when [e] is [1], and [x / x] is [1.0] for a finite [x] that is not
    zero. *)

Module statistics.

(** The exceptions the two functions can end in. *)
Inductive exn := ValueError | ZeroDivisionError.

#[global] Instance exn_eq_dec : EqDecision exn.
Proof. solve_decision. Defined.

(** The outcome of a call: a value, or an exception that leaves it. *)
Inductive outcome (A : Type) :=
| Return (a : A)
| Raise (e : exn).
Arguments Return {A} a.
Arguments Raise {A} e.

#[global] Instance outcome_ret : MRet outcome := @Return.
#[global] Instance outcome_bind : MBind outcome := λ A B f m,
  match m with
  | Return a => f a
  | Raise e => Raise e
  end.

(** A Python number: an [int], or a [float] read as the rational it
    stands for. *)
Inductive pynum :=
| PyInt (z : Z)
| PyFloat (q : Qc).

Definition of_nat (n : nat) : Qc := Qc_of_Z (Z.of_nat n).

(** [a / b] on numbers: true division, [ZeroDivisionError] on a zero
    divisor. *)
Definition truediv (a b : Qc) : outcome Qc :=
  if decide (b = 0%Qc) then Raise ZeroDivisionError else Return (a / b)%Qc.

(** The four bins of [categorize]. *)
Inductive category := low | medium_low | medium_high | high.

#[global] Instance category_eq_dec : EqDecision category.
Proof. solve_decision. Defined.

#[global] Instance category_countable : Countable category.
Proof.
  refine (inj_countable'
            (λ c, match c with
                  | low => 0 | medium_low => 1 | medium_high => 2 | high => 3
                  end)
            (λ n, match n with
                  | 0 => low | 1 => medium_low | 2 => medium_high | _ => high
                  end) _).
  by intros [].
Defined.

Definition categorize (score : Z) : category :=
  if (score <=? 25)%Z then low
  else if (score <=? 50)%Z then medium_low
  else if (score <=? 75)%Z then medium_high
  else high.

(** [Counter(cats)] is the multiset of the list; [counter[cat]] is the
    multiplicity, 0 for a category that does not occur. *)
Definition Counter (cats : list category) : gmultiset category :=
  list_to_set_disj cats.

(** [sum(1 for c1, c2 in zip(cats1, cats2) if c1 == c2)] *)
Definition count_matches (cats1 cats2 : list category) : nat :=
  length (filter (λ p : category * category, p.1 = p.2) (zip cats1 cats2)).

(** [sum(term(cat) for cat in cats)], from the left, starting at 0; an
    exception in a term leaves the sum. *)
Fixpoint sum_terms (term : category → outcome Qc) (acc : Qc)
    (cats : list category) : outcome Qc :=
  match cats with
  | [] => Return acc
  | cat :: cats' => t ← term cat; sum_terms term (acc + t)%Qc cats'
  end.

(** [calculate_cohens_kappa(ratings1, ratings2)].  The set
    [set(cats1 + cats2)] is a [gset]; the generator visits its [elements],
    in the order the set gives them. *)
Definition calculate_cohens_kappa (ratings1 ratings2 : list Z) : outcome Qc :=
  if bool_decide (length ratings1 ≠ length ratings2) then Raise ValueError
  else
    let cats1 := map categorize ratings1 in
    let cats2 := map categorize ratings2 in
    let n := length cats1 in
    observed_agreement ←
      truediv (of_nat (count_matches cats1 cats2)) (of_nat n);
    let cat_counts1 := Counter cats1 in
    let cat_counts2 := Counter cats2 in
    expected_agreement ←
      sum_terms
        (λ cat,
           p1 ← truediv (of_nat (multiplicity cat cat_counts1)) (of_nat n);
           p2 ← truediv (of_nat (multiplicity cat cat_counts2)) (of_nat n);
           mret (p1 * p2)%Qc)
        0%Qc
        (elements (list_to_set (cats1 ++ cats2) : gset category));
    if decide (expected_agreement = 1%Qc) then Return 1%Qc
    else truediv (observed_agreement - expected_agreement)%Qc
                 (1 - expected_agreement)%Qc.

(** The result dictionary of [calculate_variance], one field per key. *)
Record stats := mk_stats {
  mean : pynum;
  variance : pynum;
  std_dev : pynum;
  min : pynum;
  max : pynum;
  count : nat
}.

(** What the [statistics] module does with an exact result computed from
    [int] data: an integral value stays an [int], any other becomes a
    [float]. *)
Definition convert_int (q : Qc) : pynum :=
  if decide (Qden (this q) = 1%positive) then PyInt (Qnum (this q))
  else PyFloat q.

Definition sum_Z (l : list Z) : Z := foldr Z.add 0%Z l.

Definition mean_Qc (data : list Z) : Qc :=
  (Qc_of_Z (sum_Z data) / of_nat (length data))%Qc.

(** [statistics.mean(data)] on a non-empty list of ints: the exact mean,
    an [int] when it is integral.  The library rounds any other mean to a
    float, and raises [OverflowError] when that float would be out of
    range; see the conventions. *)
Definition statistics_mean (data : list Z) : pynum :=
  convert_int (mean_Qc data).

(** The sum of the squared deviations from the mean. *)
Definition sum_sq_dev (data : list Z) : Qc :=
  foldr (λ x acc, ((Qc_of_Z x - mean_Qc data) * (Qc_of_Z x - mean_Qc data)
                   + acc)%Qc) 0%Qc data.

(** [statistics.variance(data)], the sample variance, on a list of at
    least two ints. *)
Definition statistics_variance (data : list Z) : pynum :=
  convert_int (sum_sq_dev data / of_nat (length data - 1))%Qc.

(** [min(scores)] and [max(scores)] on a non-empty list. *)
Definition py_min (l : list Z) : Z :=
  match l with [] => 0%Z | x :: l' => foldl Z.min x l' end.
Definition py_max (l : list Z) : Z :=
  match l with [] => 0%Z | x :: l' => foldl Z.max x l' end.

Section variance.
(** [statistics.stdev], the library's square root of the sample variance;
    its value is left open. *)
Variable statistics_stdev : list Z → Qc.

(** [calculate_variance(scores)] *)
Definition calculate_variance (scores : list Z) : stats :=
  match scores with
  | [] =>
      mk_stats (PyFloat 0%Qc) (PyFloat 0%Qc) (PyFloat 0%Qc)
               (PyInt 0) (PyInt 0) 0
  | _ :: _ =>
      mk_stats (statistics_mean scores)
               (if 1 <? length scores then statistics_variance scores
                else PyFloat 0%Qc)
               (if 1 <? length scores then PyFloat (statistics_stdev scores)
                else PyFloat 0%Qc)
               (PyInt (py_min scores))
               (PyInt (py_max scores))
               (length scores)
  end.
End variance.

End statistics.

(** ** Cohen's kappa as the specification words it *)

Module kappa_spec.
Import statistics.

(** The four fixed quartile categories and the scores each one holds:
    0-25, 26-50, 51-75 and 76-100. *)
Definition bins : list category := [low; medium_low; medium_high; high].

Definition in_quartile (c : category) (score : Z) : Prop :=
  match c with
  | low => (0 ≤ score ≤ 25)%Z
  | medium_low => (26 ≤ score ≤ 50)%Z
  | medium_high => (51 ≤ score ≤ 75)%Z
  | high => (76 ≤ score ≤ 100)%Z
  end.

(** The marginal probability of a category in one list of bins. *)
Definition marginal (cats : list category) (c : category) : Qc :=
  (of_nat (length (filter (λ x, x = c) cats)) / of_nat (length cats))%Qc.

(** Observed agreement: the fraction of positions whose bins match. *)
Definition observed (cats1 cats2 : list category) : Qc :=
  (of_nat (length (filter (λ i, cats1 !! i = cats2 !! i)
                          (seq 0 (length cats1))))
   / of_nat (length cats1))%Qc.

(** Expected agreement: the sum over the categories of the products of the
    two marginal probabilities. *)
Definition expected (cats1 cats2 : list category) : Qc :=
  foldr (λ c acc, (marginal cats1 c * marginal cats2 c + acc)%Qc) 0%Qc bins.

(** kappa = (observed - expected) / (1 - expected), and 1 when expected = 1. *)
Definition kappa (cats1 cats2 : list category) : Qc :=
  if decide (expected cats1 cats2 = 1%Qc) then 1%Qc
  else ((observed cats1 cats2 - expected cats1 cats2)
        / (1 - expected cats1 cats2))%Qc.

End kappa_spec.

(** ** [src/llm_judge/comparator.py] *)

Module comparator.
Import pystr.

(** An extraction dictionary read back from [event_extractions.json].
    A field is [None] when the key is absent. *)
Record extraction := mk_extraction {
  event : option str;
  author : option str;
  claims : option (list str);
  tone : option str;
  source_document : option str
}.

#[global] Instance extraction_eq_dec : EqDecision extraction.
Proof. solve_decision. Defined.

(** A comparison pair, one field per key of the dictionary that
    [create_comparison_pairs] appends. *)
Record pair := mk_pair {
  event_id : str;
  event_name : str;
  lincoln_extraction : extraction;
  other_extraction : extraction;
  lincoln_source : str;
  other_source : str;
  lincoln_author : str;
  other_author : str
}.

(** [d.get(key, default)] *)
Definition get_default (field : option str) (default : str) : str :=
  match field with Some v => v | None => default end.

(** [if extraction.get('claims')]: the key is there and the list is not
    empty. *)
Definition has_claims (e : extraction) : bool :=
  match claims e with
  | Some (_ :: _) => true
  | _ => false
  end.

(** [grouped[event_id].append(extraction)] on the [defaultdict(list)]; the
    dictionary keeps its keys in the order of their first insertion. *)
Fixpoint append_to_group (event_id : str) (e : extraction)
    (grouped : list (str * list extraction)) : list (str * list extraction) :=
  match grouped with
  | [] => [(event_id, [e])]
  | (k, es) :: grouped' =>
      if decide (k = event_id) then (k, es ++ [e]) :: grouped'
      else (k, es) :: append_to_group event_id e grouped'
  end.

(** [ExtractionComparator.group_by_event(self)] *)
Definition group_by_event (extractions : list extraction)
  : list (str * list extraction) :=
  foldl (λ grouped e,
           match event e with
           | Some event_id =>
               if truthy event_id then append_to_group event_id e grouped
               else grouped
           | None => grouped
           end)
        [] extractions.

(** ['lincoln' in author or 'abraham lincoln' in author], on the lower-cased
    author. *)
Definition is_lincoln (e : extraction) : bool :=
  let author := lower (get_default (author e) []) in
  contains author (lit "lincoln") || contains author (lit "abraham lincoln").

(** [ExtractionComparator.separate_lincoln_and_others(self,
    event_extractions)] *)
Definition separate_lincoln_and_others (event_extractions : list extraction)
  : list extraction * list extraction :=
  foldl (λ '(lincoln_extractions, other_extractions) e,
           if is_lincoln e
           then (lincoln_extractions ++ [e], other_extractions)
           else (lincoln_extractions, other_extractions ++ [e]))
        ([], []) event_extractions.

(** The literal dictionary [event_names]. *)
Definition event_names : list (str * str) :=
  [ (lit "election_night_1860", lit "Election Night 1860");
    (lit "fort_sumter", lit "Fort Sumter Decision");
    (lit "gettysburg_address", lit "Gettysburg Address");
    (lit "second_inaugural", lit "Second Inaugural Address");
    (lit "fords_theatre", lit "Ford's Theatre Assassination") ].

Fixpoint dict_get (d : list (str * str)) (k : str) : option str :=
  match d with
  | [] => None
  | (k', v) :: d' => if decide (k' = k) then Some v else dict_get d' k
  end.

(** [s.replace('_', ' ')] *)
Definition replace_underscores (s : str) : str :=
  map (λ c, if decide (c = "_"%char) then " "%char else c) s.

Section pairs.
(** The built-in [str.title], used for the name of an event that is not
    in [event_names]; no property below depends on it. *)
Variable title : str → str.

Definition event_name_of (event_id : str) : str :=
  match dict_get event_names event_id with
  | Some name => name
  | None => title (replace_underscores event_id)
  end.

(** The two nested loops over the accounts of one event. *)
Definition pairs_of_event (event_id : str) (extractions : list extraction)
  : list pair :=
  let '(lincoln_extractions, other_extractions) :=
    separate_lincoln_and_others extractions in
  let event_name := event_name_of event_id in
  lincoln_ext ← lincoln_extractions;
  other_ext ← other_extractions;
  if has_claims lincoln_ext && has_claims other_ext then
    [mk_pair event_id event_name lincoln_ext other_ext
             (get_default (source_document lincoln_ext) (lit "Unknown"))
             (get_default (source_document other_ext) (lit "Unknown"))
             (get_default (author lincoln_ext) (lit "Abraham Lincoln"))
             (get_default (author other_ext) (lit "Unknown"))]
  else [].

(** [ExtractionComparator.create_comparison_pairs(self)], with
    [self.extractions] as the argument. *)
Definition create_comparison_pairs (extractions : list extraction)
  : list pair :=
  '(event_id, event_extractions) ← group_by_event extractions;
  pairs_of_event event_id event_extractions.
End pairs.

End comparator.

(** ** Counting the pairs of one event *)

Module comparator_spec.
Import pystr comparator.

(** The extractions grouped under an event: those whose [event] is that id. *)
Definition grouped_under (e_id : str) (extractions : list extraction)
  : list extraction :=
  List.filter (λ x, bool_decide (event x = Some e_id)) extractions.


(** The entry of an event in the grouping, empty when there is none. *)
Fixpoint group_of (e_id : str) (grouped : list (str * list extraction))
  : list extraction :=
  match grouped with
  | [] => []
  | (k, es) :: grouped' =>
      if decide (k = e_id) then es else group_of e_id grouped'
  end.

(** Two accounts of Fort Sumter: one by Lincoln whose list of claims is
    empty, one by another author with a claim. *)
Definition lincoln_no_claims : extraction :=
  mk_extraction (Some (lit "fort_sumter")) (Some (lit "Abraham Lincoln"))
                (Some []) (Some (lit "Neutral")) (Some (lit "Letter")).

Definition other_with_claim : extraction :=
  mk_extraction (Some (lit "fort_sumter")) (Some (lit "John G. Nicolay"))
                (Some [lit "The fort was resupplied."])
                (Some (lit "Neutral")) (Some (lit "A Short Life")).

End comparator_spec.

(** ** [src/event_extraction/main.py]: resuming and the extraction loops *)

Module extraction_main.
Import pystr.

(** A value that [json.load] returns. *)
#[warnings="-register-all"]
Inductive json :=
| JNull
| JBool (b : bool)
| JNum (q : Qc)
| JStr (s : str)
| JArr (items : list json)
| JObj (fields : list (str * json)).

(** The results file [event_extractions.json] when the script starts: not
    there, there but [open] or [json.load] raises, or there with a value. *)
Inductive file_state :=
| Absent
| Unreadable
| Holds (existing : json).

(** A normalized document of [gutenberg_dataset.json] or
    [loc_dataset.json]; [content] is [None] when the key is absent. *)
Record document := mk_document {
  id : str;
  title : str;
  content : option str
}.

(** An entry of [KEY_EVENTS]. *)
Record key_event := mk_key_event {
  ev_id : str;
  ev_name : str;
  ev_keywords : list str
}.

(** [config.KEY_EVENTS] *)
Definition KEY_EVENTS : list key_event :=
  [ mk_key_event (lit "election_night_1860") (lit "Election Night 1860")
      (map lit ["election night 1860"; "November 1860"; "1860 election";
                "election results"; "presidential election"; "election";
                "1860"; "November"]%string);
    mk_key_event (lit "fort_sumter") (lit "Fort Sumter Decision")
      (map lit ["Fort Sumter"; "Sumter"; "Charleston"; "April 1861";
                "resupply"; "firing"; "bombardment"; "surrender"]%string);
    mk_key_event (lit "gettysburg_address") (lit "Gettysburg Address")
      (map lit ["Gettysburg Address"; "Gettysburg"; "November 1863";
                "dedication"; "cemetery"; "four score";
                "battlefield"]%string);
    mk_key_event (lit "second_inaugural") (lit "Second Inaugural Address")
      (map lit ["Second Inaugural"; "March 1865"; "inauguration";
                "second term"; "inaugural address"; "1865"]%string);
    mk_key_event (lit "fords_theatre") (lit "Ford's Theatre Assassination")
      (map lit ["Ford's Theatre"; "assassination"; "April 14 1865";
                "John Wilkes Booth"; "shot"; "theater"; "theatre"; "Booth";
                "killed"; "murdered"]%string) ].

(** [s.split(sep)] for a non-empty [sep]: the pieces between the leftmost,
    non-overlapping occurrences of [sep]. *)
Fixpoint split_on_from (sep : str) (skip : nat) (cur : str) (s : str)
  : list str :=
  match s with
  | [] => [cur]
  | c :: s' =>
      match skip with
      | S k => split_on_from sep k cur s'
      | 0 =>
          if startswith s sep
          then cur :: split_on_from sep (length sep - 1) [] s'
          else split_on_from sep 0 (cur ++ [c]) s'
      end
  end.

Definition split_on (sep s : str) : list str := split_on_from sep 0 [] s.

(** [extract_author_from_title(title)] *)
Definition extract_author_from_title (title : str) : str :=
  if contains (lower title) (lit "by") then
    let parts := split_on (lit "by") title in
    if 1 <? length parts then
      let author := strip (List.last parts []) in
      strip (List.hd [] (split_on (lit "|") author))
    else lit "Unknown Author"
  else lit "Unknown Author".

(** The two variables the resume step sets up, and that the loops after
    it work on. *)
Record run_state := mk_run {
  all_extractions : json;
  processed_pairs : gset (str * str)
}.

(** Truth value of a loaded value ([if x]). *)
Definition json_truthy (j : json) : bool :=
  match j with
  | JNull => false
  | JBool b => b
  | JNum q => negb (bool_decide (q = 0%Qc))
  | JStr s => truthy s
  | JArr items => match items with [] => false | _ => true end
  | JObj fields => match fields with [] => false | _ => true end
  end.

(** [for ext in existing]: the items a loaded value yields, [None] when it
    is not iterable ([TypeError]).  A dictionary yields its keys, a string
    its characters. *)
Definition iterate (existing : json) : option (list json) :=
  match existing with
  | JArr items => Some items
  | JObj fields => Some (map (λ kv, JStr kv.1) fields)
  | JStr s => Some (map (λ c, JStr [c]) s)
  | _ => None
  end.

Fixpoint fields_get (fields : list (str * json)) (key : str) (default : json)
  : json :=
  match fields with
  | [] => default
  | (k, v) :: fields' =>
      if decide (k = key) then v else fields_get fields' key default
  end.

(** The body of the loop [for ext in existing]: it reads
    [source_document] and [event] with [.get] and, when both are truthy,
    executes [pass].  [None] is the [AttributeError] of a value that has no
    [.get]; otherwise the set of processed pairs after the turn. *)
Definition resume_body (processed : gset (str * str)) (ext : json)
  : option (gset (str * str)) :=
  match ext with
  | JObj fields =>
      let doc_id := fields_get fields (lit "source_document") (JStr []) in
      let event_id := fields_get fields (lit "event") (JStr []) in
      if json_truthy doc_id && json_truthy event_id
      then Some processed
      else Some processed
  | _ => None
  end.

(** The whole loop: the set it leaves, and whether it ended normally. *)
Fixpoint resume_loop (processed : gset (str * str)) (items : list json)
  : gset (str * str) * bool :=
  match items with
  | [] => (processed, true)
  | ext :: items' =>
      match resume_body processed ext with
      | Some processed' => resume_loop processed' items'
      | None => (processed, false)
      end
  end.

(** Lines 93-113 of [main]: the state after "Load existing results if
    resuming".  Any exception inside the [try] resets [all_extractions]
    to the empty list and leaves [processed_pairs] as it is. *)
Definition load_existing (output_file : file_state) : run_state :=
  let all_extractions := JArr [] in
  let processed_pairs : gset (str * str) := ∅ in
  match output_file with
  | Absent => mk_run all_extractions processed_pairs
  | Unreadable => mk_run (JArr []) processed_pairs
  | Holds existing =>
      match iterate existing with
      | None => mk_run (JArr []) processed_pairs
      | Some items =>
          let '(processed_pairs, ok) := resume_loop processed_pairs items in
          if ok then mk_run existing processed_pairs
          else mk_run (JArr []) processed_pairs
      end
  end.

(** What the loops leave behind: the two variables, the value last written
    to the results file, and the units of work, as (document id, event id),
    handed to the extractor so far. *)
Record loop_state := mk_loop {
  vars : run_state;
  written : option json;
  handed : list (str * str)
}.

Section loops.
(** [LLMEventExtractor.extract_from_document_parallel], the remote call:
    the extraction dictionaries it returns, or [None] when it raises. *)
Variable extract_from_document_parallel :
  str → str → str → str → str → str → list str → option (list json).

(** [all_extractions.extend(extractions)]; only a list has [extend]. *)
Definition extend (all_extractions : json) (extractions : list json)
  : option json :=
  match all_extractions with
  | JArr items => Some (JArr (items ++ extractions))
  | _ => None
  end.

(** One document of one event.  [min_len] is 100 for a book and 50 for a
    Library of Congress document; the only test that skips the unit is
    the one on the length of the content. *)
Definition process_document (min_len : nat) (author_of : str → str)
    (ev : key_event) (st : loop_state) (doc : document) : loop_state :=
  let doc_content := default [] (content doc) in
  if negb (truthy doc_content) || (length doc_content <? min_len) then st
  else
    let handed' := handed st ++ [(id doc, ev_id ev)] in
    match extract_from_document_parallel doc_content (id doc) (title doc)
            (author_of (title doc)) (ev_id ev) (ev_name ev)
            (ev_keywords ev) with
    | None => mk_loop (vars st) (written st) handed'
    | Some extractions =>
        match extend (all_extractions (vars st)) extractions with
        | None => mk_loop (vars st) (written st) handed'
        | Some all' =>
            mk_loop (mk_run all' (processed_pairs (vars st)))
                    (Some all') handed'
        end
    end.

(** The body of [for event in KEY_EVENTS]: the books, then the Library
    of Congress documents, whose author is fixed. *)
Definition process_event (gutenberg_data loc_data : list document)
    (st : loop_state) (ev : key_event) : loop_state :=
  let st := foldl (process_document 100 extract_author_from_title ev)
                  st gutenberg_data in
  foldl (process_document 50 (λ _, lit "Abraham Lincoln") ev) st loc_data.

(** [main], from the resume step to the final save. *)
Definition main (output_file : file_state)
    (gutenberg_data loc_data : list document) : loop_state :=
  let st := foldl (process_event gutenberg_data loc_data)
                  (mk_loop (load_existing output_file) None [])
                  KEY_EVENTS in
  mk_loop (vars st) (Some (all_extractions (vars st))) (handed st).
End loops.

(** The units of work of a run: every document whose content is long
    enough, for every event, in the order of the loops. *)
Definition long_enough (min_len : nat) (doc : document) : bool :=
  negb (negb (truthy (default [] (content doc)))
        || (length (default [] (content doc)) <? min_len)).

Definition all_units (gutenberg_data loc_data : list document)
  : list (str * str) :=
  ev ← KEY_EVENTS;
  map (λ doc, (id doc, ev_id ev))
      (List.filter (long_enough 100) gutenberg_data)
  ++ map (λ doc, (id doc, ev_id ev))
         (List.filter (long_enough 50) loc_data).

End extraction_main.

(** ** Notions for the further properties of the chunker *)

Module chunker_more_spec.
Import pystr document_chunker.

(** [sep.join(texts)] *)
Fixpoint join (sep : str) (texts : list str) : str :=
  match texts with
  | [] => []
  | t :: texts' =>
      match texts' with
      | [] => t
      | _ :: _ => t ++ sep ++ join sep texts'
      end
  end.

(** The chunk's fields other than its text are those of position [i] in a
    document [document_id]: index [i], identifier
    [<document_id>_chunk_<i>], a start offset of 0 and an end offset that
    is at least the length of the text. *)
Definition numbered (document_id : str) (i : nat) (c : chunk) : Prop :=
  chunk_index c = i
  ∧ chunk_id c = make_chunk_id document_id i
  ∧ start_char c = 0%Z
  ∧ (Z.of_nat (length (text c)) ≤ end_char c)%Z.

(** The invariant of the paragraph loop behind these fields: the start
    offset never moves, the index counts the saved chunks, and every saved
    text is stripped and not empty. *)
Record shape_inv (document_id : str) (st : loop_state) : Prop :=
  mk_shape_inv {
  shape_start : chunk_start st = 0%Z;
  shape_index : cur_index st = length (chunks st);
  shape_chunks :
    ∀ i c, chunks st !! i = Some c →
      numbered document_id i c ∧ strip (text c) = text c ∧ text c ≠ [];
  shape_ends :
    current_chunk st ≠ [] → chunker_spec.ends_nonws (current_chunk st)
}.

(** No saved text and no buffer is longer than [bound]. *)
Definition size_inv (bound : nat) (st : loop_state) : Prop :=
  length (current_chunk st) ≤ bound
  ∧ ∀ c, c ∈ chunks st → length (text c) ≤ bound.

(** A chunk of a document "doc" at position [i] with text [t]. *)
Definition sample_chunk (i : nat) (t : str) : chunk :=
  mk_chunk (make_chunk_id (lit "doc") i) t 0 (len t) i.

(** A first paragraph of 10 characters and a second of 8. *)
Definition small_document : str :=
  lit "aaaaaa bbb" ++ para_sep ++ lit "cccccccc".

End chunker_more_spec.

(** ** Notions for the further properties of the extraction script *)

Module extraction_more_spec.
Import pystr extraction_main.

(** The loaded value is a dictionary, the kind of item the resume loop can
    call [.get] on. *)
Definition is_dict (j : json) : bool :=
  match j with JObj _ => true | _ => false end.

Section returned.
Variable extract :
  str → str → str → str → str → str → list str → option (list json).

(** What the extractor returns for one document of one event: nothing when
    the document is skipped or the call raises. *)
Definition returned_for (min_len : nat) (author_of : str → str)
    (ev : key_event) (doc : document) : list json :=
  if long_enough min_len doc then
    default [] (extract (default [] (content doc)) (id doc) (title doc)
                  (author_of (title doc)) (ev_id ev) (ev_name ev)
                  (ev_keywords ev))
  else [].

(** All of it, in the order of the loops of [main]. *)
Definition all_returned (gutenberg_data loc_data : list document)
  : list json :=
  ev ← KEY_EVENTS;
  (doc ← gutenberg_data; returned_for 100 extract_author_from_title ev doc)
  ++ (doc ← loc_data; returned_for 50 (λ _, lit "Abraham Lincoln") ev doc).
End returned.

(** An extractor that returns one dictionary for every document, and a
    Library of Congress document with enough content. *)
Definition one_each : str → str → str → str → str → str → list str
                      → option (list json) :=
  λ _ document_id _ _ event_id _ _,
    Some [JObj [(lit "source_document", JStr document_id);
                (lit "event", JStr event_id)]].

Definition sample_document : document :=
  mk_document (lit "loc_1") (lit "Letter")
    (Some (lit "Four score and seven years ago our fathers brought forth")).

End extraction_more_spec.

(** ** [src/llm_judge/statistics.py]: the metrics over the judge's results *)

Module judge_statistics.
Import pystr statistics.

(** A Python value as a result dictionary holds it.  A float is read as the
    rational it stands for; a dictionary has string keys. *)
#[warnings="-register-all"]
Inductive value :=
| VNone
| VBool (b : bool)
| VInt (z : Z)
| VFloat (q : Qc)
| VStr (s : str)
| VList (items : list value)
| VDict (fields : list (str * value)).

(** [d.get(key, default)] *)
Fixpoint dict_get (fields : list (str * value)) (key : str) (default : value)
  : value :=
  match fields with
  | [] => default
  | (k, v) :: fields' =>
      if decide (k = key) then v else dict_get fields' key default
  end.

(** [int(x)] on a float: the integer part, towards zero. *)
Definition trunc (q : Qc) : Z := Z.quot (Qnum q) (Zpos (Qden q)).

(** The body of the first loop of [calculate_consistency_metrics]: a
    [bool] is an [int] for [isinstance], and [int(True)] is 1. *)
Definition collect_score (scores : list Z) (result : value) : list Z :=
  match result with
  | VDict fields =>
      match dict_get fields (lit "consistency_score") (VInt 0) with
      | VBool b => scores ++ [Z.b2z b]
      | VInt z => scores ++ [z]
      | VFloat q => scores ++ [trunc q]
      | _ => scores
      end
  | _ => scores
  end.

(** What a value is as a dictionary key: numbers that are equal are one
    key, whatever their type; lists and dictionaries cannot be keys. *)
Inductive key :=
| KNone
| KNum (q : Qc)
| KStr (s : str).

#[global] Instance key_eq_dec : EqDecision key.
Proof. solve_decision. Defined.

Definition key_of (v : value) : option key :=
  match v with
  | VNone => Some KNone
  | VBool b => Some (KNum (Qc_of_Z (Z.b2z b)))
  | VInt z => Some (KNum (Qc_of_Z z))
  | VFloat q => Some (KNum q)
  | VStr s => Some (KStr s)
  | VList _ | VDict _ => None
  end.

(** [counter[k] += 1]: the count of an equal key goes up, and the key
    object stays the one inserted first; a new key goes to the end. *)
Fixpoint counter_add (k : key) (v : value) (counts : list (value * nat))
  : list (value * nat) :=
  match counts with
  | [] => [(v, 1)]
  | (v', n) :: counts' =>
      if decide (key_of v' = Some k) then (v', S n) :: counts'
      else (v', n) :: counter_add k v counts'
  end.

(** [dict(Counter(items))]; [None] is the [TypeError] of an unhashable
    item. *)
Fixpoint Counter_from (counts : list (value * nat)) (items : list value)
  : option (list (value * nat)) :=
  match items with
  | [] => Some counts
  | v :: items' =>
      match key_of v with
      | Some k => Counter_from (counter_add k v counts) items'
      | None => None
      end
  end.

(** The decimal digits of an [int], with its sign. *)
Definition str_of_Z (z : Z) : str :=
  if (z <? 0)%Z then lit "-" ++ str_of_nat (Z.abs_nat z)
  else str_of_nat (Z.abs_nat z).

(** The result dictionary of [calculate_consistency_metrics]. *)
Record metrics := mk_metrics {
  score_statistics : stats;
  contradiction_distribution : list (value * nat);
  total_comparisons : nat;
  average_consistency : pynum;
  consistency_range : str
}.

Section metrics.
(** [statistics.stdev], as in [calculate_variance]. *)
Variable statistics_stdev : list Z → Qc.
(** [str] of a float, a list or a dictionary; its value is left open. *)
Variable repr : value → str.

(** [str(v)] *)
Definition py_str (v : value) : str :=
  match v with
  | VNone => lit "None"
  | VBool b => if b then lit "True" else lit "False"
  | VInt z => str_of_Z z
  | VStr s => s
  | _ => repr v
  end.

(** The body of the loop of [analyze_contradiction_distribution]. *)
Definition contradiction_type_of (result : value) : value :=
  match result with
  | VDict fields =>
      match dict_get fields (lit "contradiction_type") (VDict []) with
      | VDict ct => dict_get ct (lit "type") (VStr (lit "Unknown"))
      | ct => VStr (py_str ct)
      end
  | _ => VStr (lit "Unknown")
  end.

(** [analyze_contradiction_distribution(results)] *)
Definition analyze_contradiction_distribution (results : list value)
  : option (list (value * nat)) :=
  let contradiction_types := map contradiction_type_of results in
  Counter_from [] contradiction_types.

(** A number inside an f-string. *)
Definition format_num (x : pynum) : str :=
  match x with
  | PyInt z => str_of_Z z
  | PyFloat q => repr (VFloat q)
  end.

(** [calculate_consistency_metrics(results)]; [None] is the [TypeError]
    that leaves [analyze_contradiction_distribution]. *)
Definition calculate_consistency_metrics (results : list value)
  : option metrics :=
  let scores := foldl collect_score [] results in
  let score_stats := calculate_variance statistics_stdev scores in
  contradiction_dist ← analyze_contradiction_distribution results;
  Some (mk_metrics score_stats contradiction_dist (length results)
          (mean score_stats)
          (format_num (min score_stats) ++ lit "-"
           ++ format_num (max score_stats))).
End metrics.

End judge_statistics.

(** ** [src/llm_judge/main.py]: running the judge over the pairs *)

Module judge_main.
Import pystr comparator statistics judge_statistics.

(** [ContradictionClassification.type], a [Literal] of four strings. *)
Inductive contradiction := Factual | Interpretive | Omission | NoContradiction.

Definition contradiction_name (c : contradiction) : str :=
  match c with
  | Factual => lit "Factual"
  | Interpretive => lit "Interpretive"
  | Omission => lit "Omission"
  | NoContradiction => lit "None"
  end.

(** [models.ContradictionClassification] and [models.JudgeResult] *)
Record ContradictionClassification := mk_classification {
  type : contradiction;
  explanation : str
}.

Record JudgeResult := mk_judge_result {
  consistency_score : Z;
  contradiction_type : ContradictionClassification;
  reasoning : str;
  key_differences : list str;
  key_similarities : list str
}.

(** [pairs_by_event[event_id].append(pair)], after the key was created
    when missing. *)
Fixpoint add_pair (event_id : str) (p : pair)
    (pairs_by_event : list (str * list pair)) : list (str * list pair) :=
  match pairs_by_event with
  | [] => [(event_id, [p])]
  | (k, ps) :: rest =>
      if decide (k = event_id) then (k, ps ++ [p]) :: rest
      else (k, ps) :: add_pair event_id p rest
  end.

(** The loop that builds [pairs_by_event]. *)
Definition group_pairs (pairs : list pair) : list (str * list pair) :=
  foldl (λ pairs_by_event p, add_pair (comparator.event_id p) p pairs_by_event)
        [] pairs.

(** The dictionary [result_dict]. *)
Definition result_dict (p : pair) (result : JudgeResult) : value :=
  VDict [ (lit "event_id", VStr (comparator.event_id p));
          (lit "event_name", VStr (comparator.event_name p));
          (lit "lincoln_author", VStr (lincoln_author p));
          (lit "other_author", VStr (other_author p));
          (lit "lincoln_source", VStr (lincoln_source p));
          (lit "other_source", VStr (other_source p));
          (lit "consistency_score", VInt (consistency_score result));
          (lit "contradiction_type",
             VDict [ (lit "type",
                        VStr (contradiction_name
                                (type (contradiction_type result))));
                     (lit "explanation",
                        VStr (explanation (contradiction_type result))) ]);
          (lit "reasoning", VStr (reasoning result));
          (lit "key_differences", VList (map VStr (key_differences result)));
          (lit "key_similarities",
             VList (map VStr (key_similarities result))) ].

(** The variables of the comparison loop, and the number of calls made to
    the judge so far. *)
Record judge_state := mk_judge_state {
  all_results : list value;
  failed_count : nat;
  calls : nat
}.

Section judge.
(** [LLMJudge.compare_accounts], the remote call: what the call with the
    given number returns for an event name and two extractions, [None]
    when it fails. *)
Variable compare_accounts :
  nat → str → extraction → extraction → option JudgeResult.
Variable title : str → str.
Variable statistics_stdev : list Z → Qc.
Variable repr : value → str.

(** The body of the inner loop. *)
Definition judge_pair (st : judge_state) (p : pair) : judge_state :=
  match compare_accounts (calls st) (comparator.event_name p)
          (lincoln_extraction p) (other_extraction p) with
  | Some result =>
      mk_judge_state (all_results st ++ [result_dict p result])
                     (failed_count st) (S (calls st))
  | None =>
      mk_judge_state (all_results st) (S (failed_count st)) (S (calls st))
  end.

(** Step 4: the two nested loops over [pairs_by_event.items()]. *)
Definition run_comparisons (pairs_by_event : list (str * list pair))
  : judge_state :=
  foldl (λ st '(event_id, event_pairs), foldl judge_pair st event_pairs)
        (mk_judge_state [] 0 0) pairs_by_event.

(** [main], from the loaded extractions to the metrics; [client] says
    whether the judge has a client.  [None] is [sys.exit(1)]; the second
    component is [None] when computing the metrics raises. *)
Definition main (client : bool) (extractions : list extraction)
  : option (judge_state * option metrics) :=
  let pairs := create_comparison_pairs title extractions in
  match pairs with
  | [] => None
  | _ :: _ =>
      let pairs_by_event := group_pairs pairs in
      if negb client then None
      else
        let st := run_comparisons pairs_by_event in
        Some (st, calculate_consistency_metrics statistics_stdev repr
                    (all_results st))
  end.
End judge.

End judge_main.

(** ** Notions for the properties of the judge's run *)

Module judge_spec.
Import pystr statistics judge_statistics judge_main.

(** The number a result stands for. *)
Definition value_of (x : pynum) : Qc :=
  match x with PyInt z => Qc_of_Z z | PyFloat q => q end.

(** An integer that a binary64 float holds exactly: its magnitude is at
    most 2^53. *)
Definition float_exact (x : Z) : Prop := (- 2 ^ 53 ≤ x ≤ 2 ^ 53)%Z.

(** The total of the counts of a distribution. *)
Definition total (counts : list (value * nat)) : nat :=
  foldr (λ vn acc, vn.2 + acc) 0 counts.

(** A result dictionary that the comparison loop built from an answer of
    the judge. *)
Definition judged
    (compare_accounts :
       nat → str → comparator.extraction → comparator.extraction
       → option JudgeResult)
    (v : value) : Prop :=
  ∃ n p r,
    compare_accounts n (comparator.event_name p)
      (comparator.lincoln_extraction p) (comparator.other_extraction p)
    = Some r
    ∧ v = result_dict p r.

End judge_spec.

(** ** Sample inputs for the comparator and the judge *)

Module judge_samples.
Import pystr comparator statistics judge_statistics judge_main.

(** An account of Fort Sumter by Lincoln that has a claim. *)
Definition lincoln_with_claim : extraction :=
  mk_extraction (Some (lit "fort_sumter")) (Some (lit "Abraham Lincoln"))
                (Some [lit "The fort was to be resupplied."])
                (Some (lit "Neutral")) (Some (lit "Letter")).

Definition sample_extractions : list extraction :=
  [lincoln_with_claim; comparator_spec.other_with_claim;
   comparator_spec.lincoln_no_claims].

(** The one pair these accounts give. *)
Definition sample_pair : pair :=
  mk_pair (lit "fort_sumter") (lit "Fort Sumter Decision")
          lincoln_with_claim comparator_spec.other_with_claim
          (lit "Letter") (lit "A Short Life")
          (lit "Abraham Lincoln") (lit "John G. Nicolay").

(** A judge that answers its first call and fails after it. *)
Definition sample_judge
  : nat → str → extraction → extraction → option JudgeResult :=
  λ n _ _ _,
    match n with
    | 0 => Some (mk_judge_result 70 (mk_classification Interpretive [])
                   [] [] [])
    | S _ => None
    end.

(** The run of the comparison loop on the sample accounts, and its
    metrics. *)
Definition sample_run : judge_state :=
  run_comparisons sample_judge
    (group_pairs (create_comparison_pairs id sample_extractions)).

Definition sample_metrics : option metrics :=
  calculate_consistency_metrics (λ _, 0%Qc) (λ _, []) (all_results sample_run).


End judge_samples.

(** ** [src/event_extraction/llm_extractor.py]: one chunk, one document *)

Module llm_extractor.
Import pystr document_chunker.

(** [models.TemporalDetails] and [models.EventExtraction] *)
Record TemporalDetails := mk_temporal_details {
  date : option str;
  time : option str
}.

Record EventExtraction := mk_event_extraction {
  event : str;
  author : str;
  claims : list str;
  temporal_details : TemporalDetails;
  tone : option str
}.

(** The dictionary [extract_event_info] returns: what [model_dump] gives,
    kept as the model, and the key [source_document] added to it. *)
Record extraction_dict := mk_extraction_dict {
  dumped : EventExtraction;
  source_document : str
}.

(** What a call of [client.chat.completions.create] ends in: a validated
    model, or an exception [e], given by [str(e)]. *)
Inductive response :=
| Answer (extraction : EventExtraction)
| Error (error_str : str).

(** A method returns, or an exception leaves it. *)
Inductive outcome (A : Type) :=
| Returned (a : A)
| Raised.
Arguments Returned {A} a.
Arguments Raised {A}.

(** The test for a rate limit error on the text of the exception. *)
Definition is_rate_limit (error_str : str) : bool :=
  contains (lower error_str) (lit "rate_limit")
  || contains error_str (lit "429")
  || contains (lower error_str) (lit "rate limit").

Definition max_retries : nat := 3.

Section extractor.
(** [self.client] is set. *)
Variable client : bool.
(** [_build_extraction_prompt]: the prompt, [None] when reading or
    formatting the template raises. *)
Variable build_extraction_prompt : str → str → str → str → str → option str.
(** The remote call: what the call with the given number answers to a
    prompt. *)
Variable create : nat → str → response.

(** [for attempt in range(max_retries)], from a given attempt on; [calls]
    counts the remote calls made so far.  The sleep before a retry has no
    effect on the result. *)
Fixpoint attempt_loop (prompt event_id document_title author : str)
    (attempts : list nat) (calls : nat) : option extraction_dict * nat :=
  match attempts with
  | [] => (None, calls)
  | attempt :: attempts' =>
      match create calls prompt with
      | Answer extraction =>
          let extraction :=
            mk_event_extraction event_id author (claims extraction)
              (temporal_details extraction) (tone extraction) in
          (Some (mk_extraction_dict extraction document_title), S calls)
      | Error error_str =>
          if is_rate_limit error_str then
            if attempt <? max_retries - 1
            then attempt_loop prompt event_id document_title author
                   attempts' (S calls)
            else (None, S calls)
          else (None, S calls)
      end
  end.

(** [LLMEventExtractor.extract_event_info] *)
Definition extract_event_info
    (chunk_text event_id event_name document_title author : str)
    (calls : nat) : outcome (option extraction_dict) * nat :=
  if negb client then (Returned None, calls)
  else
    match build_extraction_prompt chunk_text event_id event_name
            document_title author with
    | None => (Raised, calls)
    | Some prompt =>
        let '(result, calls) :=
          attempt_loop prompt event_id document_title author
            (seq 0 max_retries) calls in
        (Returned result, calls)
    end.

(** The body of the loop of [extract_from_document]: a result is kept
    when it has claims, and an exception skips the chunk. *)
Definition extract_chunk
    (document_title author event_id event_name : str)
    (st : list extraction_dict * nat) (c : chunk)
  : list extraction_dict * nat :=
  let '(results, calls) := st in
  match extract_event_info (text c) event_id event_name document_title
          author calls with
  | (Returned (Some result), calls) =>
      match claims (dumped result) with
      | _ :: _ => (results ++ [result], calls)
      | [] => (results, calls)
      end
  | (_, calls) => (results, calls)
  end.

(** [LLMEventExtractor.extract_from_document] *)
Definition extract_from_document
    (document_text document_id document_title author event_id
       event_name : str)
    (event_keywords : list str) (calls : nat)
  : list extraction_dict * nat :=
  let chunks := chunk_document 2000 200 document_text document_id in
  let relevant_chunks := find_relevant_chunks chunks event_keywords in
  match relevant_chunks with
  | [] => ([], calls)
  | _ :: _ =>
      foldl (extract_chunk document_title author event_id event_name)
            ([], calls) relevant_chunks
  end.
End extractor.

End llm_extractor.

(** ** Sample answers of the remote model *)

Module extractor_samples.
Import pystr llm_extractor.

(** A model that is rate limited on its first call and answers, under
    another event and author, on the second. *)
Definition sample_create : nat → str → response :=
  λ n _,
    match n with
    | 0 => Error (lit "Error code: 429 - rate limit reached")
    | S _ =>
        Answer (mk_event_extraction (lit "gettysburg") (lit "Somebody")
                  [lit "The fort was fired upon."]
                  (mk_temporal_details None None) None)
    end.

(** A model that fails with an error that is no rate limit. *)
Definition failing_create : nat → str → response :=
  λ _ _, Error (lit "Connection refused").

Definition sample_prompt : str → str → str → str → str → option str :=
  λ chunk_text _ _ _ _, Some chunk_text.

Definition sample_text : str :=
  lit "Fort Sumter was fired upon in April 1861.".

(** What [extract_event_info] makes of the answer for a book by
    J. G. Nicolay. *)
Definition sample_dict : extraction_dict :=
  mk_extraction_dict
    (mk_event_extraction (lit "fort_sumter") (lit "J. G. Nicolay")
       [lit "The fort was fired upon."] (mk_temporal_details None None) None)
    (lit "A Short Life").

End extractor_samples.

(** ** [src/data_acquisition/normalizer.py]: the Library of Congress entries *)

Module normalizer.
Import pystr.

(** [s.replace(old, new)] for a non-empty [old]: the leftmost,
    non-overlapping occurrences of [old] become [new]. *)
Fixpoint replace_from (old new : str) (skip : nat) (s : str) : str :=
  match s with
  | [] => []
  | c :: s' =>
      match skip with
      | S k => replace_from old new k s'
      | 0 =>
          if startswith s old
          then new ++ replace_from old new (length old - 1) s'
          else c :: replace_from old new 0 s'
      end
  end.

Definition replace (old new s : str) : str := replace_from old new 0 s.

(** A scraped Library of Congress document, with string values; a field is
    [None] when the key is absent. *)
Record doc_data := mk_doc_data {
  url : option str;
  raw_title : option str;
  raw_document_type : option str;
  raw_date : option str;
  raw_place : option str;
  raw_from : option str;
  raw_to : option str;
  raw_content : option str
}.

(** An entry of the normalized dataset. *)
Record entry := mk_entry {
  id : str;
  title : str;
  reference : str;
  document_type : str;
  date : option str;
  place : option str;
  from : option str;
  to : option str;
  content : str
}.

(** [DataNormalizer.normalize_loc_document(self, doc_data, index)] *)
Definition normalize_loc_document (d : doc_data) (index : nat) : entry :=
  let url := default [] (url d) in
  let doc_id :=
    replace (lit "/") (lit "_")
      (replace (lit ".html") []
         (List.last (extraction_main.split_on (lit "/") url) [])) in
  let doc_id :=
    if negb (truthy doc_id) then lit "loc_doc_" ++ str_of_nat index
    else doc_id in
  mk_entry (lit "loc_" ++ doc_id)
           (default (lit "Untitled Document") (raw_title d))
           url
           (default (lit "Document") (raw_document_type d))
           (raw_date d) (raw_place d) (raw_from d) (raw_to d)
           (default [] (raw_content d)).

(** [DataNormalizer.create_loc_dataset(self, documents)] *)
Definition create_loc_dataset (documents : list doc_data) : list entry :=
  imap (λ idx doc, normalize_loc_document doc idx) documents.

(** A document whose address ends in a slash, and one whose address ends
    in a page name. *)
Definition slash_document : doc_data :=
  mk_doc_data (Some (lit "https://www.loc.gov/item/mal0440500/"))
              None None None None None None None.

Definition page_document : doc_data :=
  mk_doc_data (Some (lit "https://www.loc.gov/exhibits/gettysburg.html"))
              None None None None None None None.

End normalizer.

(** * Properties *)

Import pystr.

(** ** The embedding on small inputs *)

Section examples.
Import document_chunker statistics comparator extraction_main.

(** Blank lines, also with spaces in them, separate paragraphs; a single
    newline does not.  The text ends in a separator, so the last piece is
    empty. *)
Example re_split_example :
  re_split_paragraphs
    (lit "ab" ++ [nl; nl] ++ lit "  " ++ [nl] ++ lit "cd" ++ [nl] ++ lit " e"
     ++ [nl; nl; nl])
  = [lit "ab"; lit "cd" ++ [nl] ++ lit " e"; []].
Proof. reflexivity. Qed.

Example split_ws_example :
  split_ws (lit "  election  night 1860 ")
  = [lit "election"; lit "night"; lit "1860"].
Proof. reflexivity. Qed.

Example strip_example : strip (lit "  a b  ") = lit "a b".
Proof. reflexivity. Qed.

(** [s[-2:]] is the last two characters, [s[-0:]] is all of [s]. *)
Example neg_slice_example :
  neg_slice 2 (lit "abc") = lit "bc" ∧ neg_slice 0 (lit "abc") = lit "abc".
Proof. split; reflexivity. Qed.

Example lower_example : lower (lit "Fort SUMTER") = lit "fort sumter".
Proof. reflexivity. Qed.

(** A first paragraph of 10 characters and a second of 8, chunk size 10
    and overlap 4: the overlap text is " bbb". *)
Example chunk_document_example :
  chunk_document 10 4
    (lit "aaaaaa bbb" ++ para_sep ++ lit "cccccccc") (lit "d")
  = [ mk_chunk (lit "d_chunk_0") (lit "aaaaaa bbb") 0 10 0;
      mk_chunk (lit "d_chunk_1") (lit "bbb" ++ para_sep ++ lit "cccccccc")
               0 14 1 ].
Proof. reflexivity. Qed.

(** With overlap 0 the slice [current_chunk[-0:]] is the whole buffer. *)
Example chunk_document_overlap_0 :
  map document_chunker.text
      (chunk_document 10 0
         (lit "aaaaaa bbb" ++ para_sep ++ lit "cccccccc") (lit "d"))
  = [ lit "aaaaaa bbb";
      lit "aaaaaa bbb" ++ para_sep ++ lit "cccccccc" ].
Proof. reflexivity. Qed.

Example find_relevant_chunks_example :
  find_relevant_chunks
    [ mk_chunk (lit "d_chunk_0") (lit "The votes were counted.") 0 23 0;
      mk_chunk (lit "d_chunk_1") (lit "On ELECTION day he waited.") 0 26 1 ]
    [lit "Election Night 1860"]
  = [ mk_chunk (lit "d_chunk_1") (lit "On ELECTION day he waited.") 0 26 1 ].
Proof. by vm_compute. Qed.

(** Two matching bins out of four, four categories with one score each in
    both lists: observed 1/2, expected 1/4, kappa 1/3. *)
Example calculate_cohens_kappa_example :
  calculate_cohens_kappa [10; 30; 60; 90]%Z [10; 30; 90; 60]%Z
  = Return (Q2Qc (1 # 3)).
Proof. vm_compute. f_equal. by apply Qc_is_canon. Qed.

Example calculate_cohens_kappa_empty :
  calculate_cohens_kappa [] [] = Raise ZeroDivisionError.
Proof. reflexivity. Qed.

Example extract_author_example :
  extract_author_from_title
    (lit "Abraham Lincoln: a History by John Hay | Project Gutenberg")
  = lit "John Hay"
  ∧ extract_author_from_title (lit "LINCOLN BY HIMSELF") = lit "Unknown Author".
Proof. split; reflexivity. Qed.

End examples.

(** ** The chunker on a short document *)

Section chunker_short.
Import document_chunker.
Variables chunk_size overlap : nat.

(** C2.  A text strictly shorter than [chunk_size] comes back as exactly
    one chunk: its text is the whole input, it starts at 0, ends at the
    length of the input, has index 0 and the identifier
    [<document_id>_chunk_0]. *)
Theorem chunk_document_short (text document_id : str) :
  length text < chunk_size →
  chunk_document chunk_size overlap text document_id =
    [ mk_chunk (document_id ++ lit "_chunk_0") text 0
               (Z.of_nat (length text)) 0 ].
Proof.
  intros Hlen. unfold chunk_document.
  apply Nat.ltb_lt in Hlen. rewrite Hlen, orb_true_r. reflexivity.
Qed.
End chunker_short.

(** The example of the specification: 1999 characters, chunk size 2000. *)
Lemma chunk_document_short_witness :
  document_chunker.chunk_document 2000 200 (replicate 1999 "A"%char)
    (lit "doc") =
    [ document_chunker.mk_chunk (lit "doc_chunk_0") (replicate 1999 "A"%char)
        0 1999 0 ].
Proof.
  apply (chunk_document_short 2000 200 (replicate 1999 "A"%char) (lit "doc")).
  rewrite length_replicate. lia.
Defined.

(** ** Descriptive statistics *)

Section variance_facts.
Import statistics.
Variable statistics_stdev : list Z → Qc.

Lemma convert_int_of_Z (z : Z) : convert_int (Qc_of_Z z) = PyInt z.
Proof. reflexivity. Qed.

Lemma mean_singleton (x : Z) : statistics_mean [x] = PyInt x.
Proof.
  unfold statistics_mean, mean_Qc. cbn [sum_Z foldr length].
  rewrite Z.add_0_r.
  replace (of_nat 1) with 1%Qc by (apply Qc_is_canon; reflexivity).
  rewrite (right_id 1%Qc Qcdiv). apply convert_int_of_Z.
Qed.

(** C5.  On the empty list every entry of the result is zero, the three
    float entries as [0.0] and [min], [max] and [count] as the integer 0;
    on a one-element list [[x]] the variance and the standard deviation
    are [0.0], mean, minimum and maximum are [x] and the count is 1. *)
Theorem calculate_variance_degenerate :
  calculate_variance statistics_stdev [] =
    mk_stats (PyFloat 0%Qc) (PyFloat 0%Qc) (PyFloat 0%Qc) (PyInt 0) (PyInt 0) 0
  ∧ ∀ x : Z,
      calculate_variance statistics_stdev [x] =
        mk_stats (PyInt x) (PyFloat 0%Qc) (PyFloat 0%Qc) (PyInt x) (PyInt x) 1.
Proof.
  split; [reflexivity|].
  intros x. unfold calculate_variance. cbn [length Nat.ltb Nat.leb].
  rewrite mean_singleton. reflexivity.
Qed.
End variance_facts.

(** ** The resume step of the extraction script *)

Section resume_facts.
Import extraction_main.

(** The remote call, as in [extraction_main.main]. *)
Variable extract :
  str → str → str → str → str → str → list str → option (list json).

Lemma resume_body_keeps processed ext processed' :
  resume_body processed ext = Some processed' → processed' = processed.
Proof.
  destruct ext; cbn; try discriminate.
  destruct (_ && _); congruence.
Qed.

Lemma resume_loop_keeps items processed :
  (resume_loop processed items).1 = processed.
Proof.
  revert processed. induction items as [|ext items IH]; intros processed; cbn.
  - reflexivity.
  - destruct (resume_body processed ext) as [processed'|] eqn:Hb;
      [|reflexivity].
    apply resume_body_keeps in Hb. subst. apply IH.
Qed.

Lemma load_existing_processed output_file :
  processed_pairs (load_existing output_file) = ∅.
Proof.
  destruct output_file as [| |existing]; cbn; try reflexivity.
  destruct (iterate existing) as [items|]; [|reflexivity].
  pose proof (resume_loop_keeps items ∅) as Hk.
  destruct (resume_loop ∅ items) as [pp ok]. cbn in Hk. subst pp.
  destruct ok; reflexivity.
Qed.

Lemma process_document_effect min_len author_of ev st doc :
  processed_pairs (vars (process_document extract min_len author_of ev st doc))
    = processed_pairs (vars st)
  ∧ handed (process_document extract min_len author_of ev st doc)
    = handed st ++
      (if long_enough min_len doc then [(id doc, ev_id ev)] else []).
Proof.
  unfold extraction_main.process_document, long_enough.
  destruct (negb _ || _); cbn.
  - by rewrite app_nil_r.
  - destruct (extract _ _ _ _ _ _ _); cbn; [|done].
    by destruct (extend _ _).
Qed.

Lemma process_documents_effect min_len author_of ev docs st :
  processed_pairs
    (vars (foldl (process_document extract min_len author_of ev) st docs))
    = processed_pairs (vars st)
  ∧ handed (foldl (process_document extract min_len author_of ev) st docs)
    = handed st ++
      map (λ doc, (id doc, ev_id ev)) (List.filter (long_enough min_len) docs).
Proof.
  revert st. induction docs as [|doc docs IH]; intros st; cbn.
  - by rewrite app_nil_r.
  - destruct (IH (process_document extract min_len author_of ev st doc))
      as [-> ->].
    destruct (process_document_effect min_len author_of ev st doc) as [-> ->].
    split; [done|]. rewrite <-app_assoc.
    by destruct (long_enough min_len doc).
Qed.

Lemma process_events_effect gutenberg_data loc_data events st :
  processed_pairs
    (vars (foldl (process_event extract gutenberg_data loc_data) st events))
    = processed_pairs (vars st)
  ∧ handed (foldl (process_event extract gutenberg_data loc_data) st events)
    = handed st ++
      (ev ← events;
       map (λ doc, (id doc, ev_id ev))
           (List.filter (long_enough 100) gutenberg_data)
       ++ map (λ doc, (id doc, ev_id ev))
              (List.filter (long_enough 50) loc_data)).
Proof.
  revert st. induction events as [|ev events IH]; intros st; cbn.
  - by rewrite app_nil_r.
  - destruct (IH (process_event extract gutenberg_data loc_data st ev))
      as [-> ->].
    unfold extraction_main.process_event.
    destruct (process_documents_effect 50 (λ _, lit "Abraham Lincoln") ev
      loc_data
      (foldl (process_document extract 100 extract_author_from_title ev)
             st gutenberg_data))
      as [-> ->].
    destruct (process_documents_effect 100 extract_author_from_title ev
      gutenberg_data st) as [-> ->].
    split; [done|]. by rewrite <-!app_assoc.
Qed.

(** C9.  The set [processed_pairs] is created empty and nothing adds to
    it: whatever the results file holds, the set is empty after the resume
    step and still empty when the run ends.  So no unit of work is skipped:
    the units handed to the extractor are all the (document, event) pairs
    whose document has long enough content, whatever the results file holds,
    those it already has results for included. *)
Theorem processed_pairs_never_populated
    (output_file : file_state) (gutenberg_data loc_data : list document) :
  processed_pairs (load_existing output_file) = ∅
  ∧ processed_pairs (vars (main extract output_file gutenberg_data loc_data))
    = ∅
  ∧ handed (main extract output_file gutenberg_data loc_data)
    = all_units gutenberg_data loc_data
  ∧ ∀ doc ev,
      ev ∈ KEY_EVENTS →
      (doc ∈ gutenberg_data ∧ long_enough 100 doc = true)
      ∨ (doc ∈ loc_data ∧ long_enough 50 doc = true) →
      (id doc, ev_id ev)
      ∈ handed (main extract output_file gutenberg_data loc_data).
Proof.
  assert (Hhanded : handed (main extract output_file gutenberg_data loc_data)
                    = all_units gutenberg_data loc_data
                    ∧ processed_pairs
                        (vars (main extract output_file gutenberg_data loc_data))
                      = ∅).
  { unfold main. cbn [vars handed].
    destruct (process_events_effect gutenberg_data loc_data KEY_EVENTS
                (mk_loop (load_existing output_file) None [])) as [-> ->].
    split; [reflexivity|apply load_existing_processed]. }
  destruct Hhanded as [Hhanded Hset].
  split_and!; [apply load_existing_processed|done|done|].
  intros doc ev Hev Hdoc. rewrite Hhanded. unfold all_units.
  apply list_elem_of_bind. exists ev. split; [|done].
  apply elem_of_app. destruct Hdoc as [[Hin Hlong]|[Hin Hlong]]; [left|right].
  - apply list_elem_of_In, in_map_iff. exists doc. split; [done|].
    apply filter_In. by rewrite <-list_elem_of_In.
  - apply list_elem_of_In, in_map_iff. exists doc. split; [done|].
    apply filter_In. by rewrite <-list_elem_of_In.
Qed.

End resume_facts.

(** ** Cohen's kappa *)

Section kappa_facts.
Import statistics kappa_spec.

Lemma of_nat_nonzero (n : nat) : n ≠ 0 → of_nat n ≠ 0%Qc.
Proof.
  intros Hn Heq. apply (f_equal this) in Heq. cbn in Heq.
  injection Heq as Heq. lia.
Qed.

Lemma truediv_nonzero (a b : Qc) :
  b ≠ 0%Qc → truediv a b = Return (a / b)%Qc.
Proof. intros Hb. unfold truediv. by destruct (decide (b = 0%Qc)). Qed.

Lemma sum_terms_ext (f g : category → outcome Qc) acc cats :
  (∀ c, f c = g c) → sum_terms f acc cats = sum_terms g acc cats.
Proof.
  intros Hfg. revert acc. induction cats as [|c cats IH]; intros acc; cbn.
  - reflexivity.
  - rewrite Hfg. destruct (g c); cbn; [apply IH|reflexivity].
Qed.

Lemma sum_terms_total (f : category → Qc) acc cats :
  sum_terms (λ c, Return (f c)) acc cats
  = Return (acc + foldr (λ c a, f c + a) 0 cats)%Qc.
Proof.
  revert acc. induction cats as [|c cats IH]; intros acc; cbn.
  - f_equal. ring.
  - change (sum_terms (λ c0, Return (f c0)) (acc + f c)%Qc cats
            = Return (acc + (f c + foldr (λ c0 a, f c0 + a) 0 cats))%Qc).
    rewrite IH. f_equal. ring.
Qed.

Lemma sum_permutation (f : category → Qc) (l1 l2 : list category) :
  l1 ≡ₚ l2 →
  foldr (λ c a, f c + a)%Qc 0%Qc l1 = foldr (λ c a, f c + a)%Qc 0%Qc l2.
Proof.
  induction 1 as [|x l1 l2 _ IH|x y l|l1 l2 l3 _ IH1 _ IH2]; cbn.
  - reflexivity.
  - by rewrite IH.
  - ring.
  - by rewrite IH1.
Qed.

Lemma sum_filter_zero (P : category → Prop) `{!∀ c, Decision (P c)}
    (f : category → Qc) (l : list category) :
  (∀ c, ¬ P c → f c = 0%Qc) →
  foldr (λ c a, f c + a)%Qc 0%Qc (filter P l)
  = foldr (λ c a, f c + a)%Qc 0%Qc l.
Proof.
  intros Hzero. induction l as [|c l IH]; [reflexivity|].
  rewrite filter_cons. destruct (decide (P c)) as [HP|HP]; cbn.
  - by rewrite IH.
  - rewrite IH, (Hzero c HP). ring.
Qed.

Lemma bins_complete (c : category) : c ∈ bins.
Proof. destruct c; unfold bins; set_solver. Qed.

Lemma bins_NoDup : NoDup bins.
Proof. by apply (bool_decide_unpack _). Qed.

(** The sum over the elements of a set of categories, in whatever order the
    set yields them, is the sum over the four categories when the terms of
    the absent ones are zero. *)
Lemma sum_over_set (S : gset category) (f : category → Qc) :
  (∀ c, c ∉ S → f c = 0%Qc) →
  foldr (λ c a, f c + a)%Qc 0%Qc (elements S)
  = foldr (λ c a, f c + a)%Qc 0%Qc bins.
Proof.
  intros Hzero.
  rewrite <-(sum_filter_zero (λ c, c ∈ S) f bins Hzero).
  apply sum_permutation, NoDup_Permutation.
  - apply NoDup_elements.
  - apply list.NoDup_filter, bins_NoDup.
  - intros c. rewrite elem_of_elements, list_elem_of_filter.
    pose proof (bins_complete c). tauto.
Qed.

Lemma Counter_multiplicity (cats : list category) (c : category) :
  multiplicity c (Counter cats) = length (filter (λ x, x = c) cats).
Proof.
  unfold Counter. induction cats as [|x cats IH].
  - apply multiplicity_empty.
  - rewrite list_to_set_disj_cons, multiplicity_disj_union,
      multiplicity_singleton, IH, filter_cons.
    destruct (decide (c = x)), (decide (x = c)); cbn; congruence.
Qed.

Lemma filter_fmap_length {A B} (f : A → B) (P : B → Prop)
    `{!∀ b, Decision (P b)} (l : list A) :
  length (filter P (f <$> l)) = length (filter (λ a, P (f a)) l).
Proof.
  induction l as [|a l IH]; [reflexivity|].
  rewrite fmap_cons, !filter_cons.
  destruct (decide (P (f a))); cbn; by rewrite IH.
Qed.

Lemma count_matches_positions (cats1 cats2 : list category) :
  count_matches cats1 cats2
  = length (filter (λ i, cats1 !! i = cats2 !! i)
                   (seq 0 (Nat.min (length cats1) (length cats2)))).
Proof.
  unfold count_matches. revert cats2.
  induction cats1 as [|a cats1 IH]; intros [|b cats2]; try reflexivity.
  cbn [zip zip_with length Nat.min seq].
  rewrite <-fmap_S_seq, !filter_cons.
  cbn [fst snd lookup list_lookup].
  specialize (IH cats2).
  destruct (decide (a = b)), (decide (Some a = Some b));
    try congruence; cbn [length]; by rewrite filter_fmap_length, IH.
Qed.

Lemma filter_eq_absent (cats : list category) (c : category) :
  c ∉ cats → length (filter (λ x, x = c) cats) = 0.
Proof.
  intros Hc. induction cats as [|x cats IH]; [reflexivity|].
  rewrite filter_cons. destruct (decide (x = c)) as [->|].
  - exfalso. apply Hc. by left.
  - apply IH. intros Hin. apply Hc. by right.
Qed.

Lemma of_nat_0 : of_nat 0 = 0%Qc.
Proof. by apply Qc_is_canon. Qed.

Lemma Qcdiv_0_l (q : Qc) : (0 / q)%Qc = 0%Qc.
Proof. unfold Qcdiv. ring. Qed.

Lemma one_minus_nonzero (e : Qc) : e ≠ 1%Qc → (1 - e)%Qc ≠ 0%Qc.
Proof.
  intros He Hz. apply He.
  transitivity (1 - (1 - e))%Qc; [ring|]. rewrite Hz. ring.
Qed.

(** On two lists of the same positive length the function returns, and
    what it returns is the kappa of the specification. *)
Lemma kappa_equal_length (ratings1 ratings2 : list Z) :
  length ratings1 = length ratings2 → ratings1 ≠ [] →
  calculate_cohens_kappa ratings1 ratings2
  = Return (kappa (map categorize ratings1) (map categorize ratings2)).
Proof.
  intros Hlen Hne. unfold calculate_cohens_kappa.
  rewrite bool_decide_eq_false_2 by (intros Hf; by apply Hf).
  set (cats1 := map categorize ratings1).
  set (cats2 := map categorize ratings2).
  assert (Hlen1 : length cats1 = length ratings1) by apply length_map.
  assert (Hlen2 : length cats2 = length cats1).
  { unfold cats1, cats2. rewrite !length_map. done. }
  assert (Hn : of_nat (length cats1) ≠ 0%Qc).
  { apply of_nat_nonzero. rewrite Hlen1. by destruct ratings1. }
  rewrite (truediv_nonzero _ _ Hn). cbn [mbind outcome_bind].
  rewrite (sum_terms_ext _
    (λ c, Return (marginal cats1 c * marginal cats2 c)%Qc)); cycle 1.
  { intros c. rewrite !(truediv_nonzero _ _ Hn). cbn.
    unfold marginal. by rewrite !Counter_multiplicity, Hlen2. }
  rewrite sum_terms_total, sum_over_set; cycle 1.
  { intros c Hc. unfold marginal.
    rewrite filter_eq_absent; [rewrite of_nat_0, Qcdiv_0_l; ring|].
    intros Hin. apply Hc, elem_of_list_to_set, elem_of_app. by left. }
  cbn [mbind outcome_bind]. unfold kappa.
  change (foldr _ _ bins) with (expected cats1 cats2).
  rewrite Qcplus_0_l.
  destruct (decide (expected cats1 cats2 = 1%Qc)) as [He|He]; [done|].
  rewrite truediv_nonzero; cycle 1.
  { by apply one_minus_nonzero. }
  unfold observed. by rewrite count_matches_positions, Hlen2, Nat.min_id.
Qed.

Lemma categorize_quartile (c : category) (score : Z) :
  in_quartile c score → categorize score = c.
Proof.
  unfold categorize. destruct c; cbn; intros [Hlo Hhi];
    repeat case_match; try reflexivity; lia.
Qed.

(** C3.  On two non-empty score lists of the same length the function bins
    every score of 0-25, 26-50, 51-75 and 76-100 into the category of that
    range, and returns the kappa of the specification: observed agreement is
    the fraction of positions whose bins match, expected agreement the sum
    over the four categories of the products of the marginal probabilities,
    and the result is (observed - expected) / (1 - expected), or exactly 1
    when expected is 1. *)
Theorem calculate_cohens_kappa_spec (ratings1 ratings2 : list Z) :
  length ratings1 = length ratings2 → ratings1 ≠ [] →
  (∀ c score, in_quartile c score → categorize score = c)
  ∧ calculate_cohens_kappa ratings1 ratings2
    = Return (kappa (map categorize ratings1) (map categorize ratings2)).
Proof.
  intros Hlen Hne. split.
  - apply categorize_quartile.
  - by apply kappa_equal_length.
Qed.

Lemma observed_identical (cats : list category) :
  cats ≠ [] → observed cats cats = 1%Qc.
Proof.
  intros Hne. unfold observed.
  assert (Hall : filter (λ i, cats !! i = cats !! i) (seq 0 (length cats))
                 = seq 0 (length cats)).
  { generalize (seq 0 (length cats)). intros l.
    induction l as [|i l IH]; [reflexivity|].
    rewrite filter_cons_True by done. by rewrite IH. }
  rewrite Hall, length_seq.
  assert (Hn : of_nat (length cats) ≠ 0%Qc).
  { apply of_nat_nonzero. by destruct cats. }
  by field.
Qed.

Lemma kappa_identical_bins (cats : list category) :
  cats ≠ [] → kappa cats cats = 1%Qc.
Proof.
  intros Hne. unfold kappa. rewrite observed_identical by done.
  destruct (decide (expected cats cats = 1%Qc)) as [He|He]; [done|].
  field. by apply one_minus_nonzero.
Qed.

(** Two copies of any non-empty list agree perfectly. *)
Lemma kappa_identical_nonempty (ratings : list Z) :
  ratings ≠ [] → calculate_cohens_kappa ratings ratings = Return 1%Qc.
Proof.
  intros Hne. rewrite kappa_equal_length by done.
  rewrite kappa_identical_bins; [done|]. by destruct ratings.
Qed.

(** C4.  For a score list of length at least 2 whose binned categories are
    not all the same, the kappa of the list against itself is exactly 1. *)
Theorem kappa_identical_lists (ratings : list Z) :
  2 ≤ length ratings →
  (∃ a b, a ∈ ratings ∧ b ∈ ratings ∧ categorize a ≠ categorize b) →
  calculate_cohens_kappa ratings ratings = Return 1%Qc.
Proof.
  intros Hlen _. apply kappa_identical_nonempty.
  destruct ratings; [cbn in Hlen; lia|done].
Qed.

(** C10.  The function raises [ValueError] exactly when the two lists differ
    in length, and on two non-empty lists of the same length it returns a
    number. *)
Theorem calculate_cohens_kappa_raises (ratings1 ratings2 : list Z) :
  (calculate_cohens_kappa ratings1 ratings2 = Raise ValueError
   ↔ length ratings1 ≠ length ratings2)
  ∧ (length ratings1 = length ratings2 → ratings1 ≠ [] →
     ∃ k : Qc, calculate_cohens_kappa ratings1 ratings2 = Return k).
Proof.
  split.
  - split.
    + intros Hraise Hlen. destruct ratings1 as [|r ratings1].
      * destruct ratings2; [|discriminate]. vm_compute in Hraise. discriminate.
      * rewrite kappa_equal_length in Hraise by done. discriminate.
    + intros Hlen. unfold calculate_cohens_kappa.
      by rewrite bool_decide_eq_true_2.
  - intros Hlen Hne. eexists. by apply kappa_equal_length.
Qed.

End kappa_facts.

Lemma calculate_cohens_kappa_spec_witness :
  statistics.calculate_cohens_kappa [10; 30; 60; 90]%Z [10; 30; 90; 60]%Z
  = statistics.Return
      (kappa_spec.kappa
         (map statistics.categorize [10; 30; 60; 90]%Z)
         (map statistics.categorize [10; 30; 90; 60]%Z)).
Proof.
  apply (calculate_cohens_kappa_spec [10; 30; 60; 90]%Z [10; 30; 90; 60]%Z).
  - reflexivity.
  - discriminate.
Defined.

Lemma kappa_identical_lists_witness :
  statistics.calculate_cohens_kappa [10; 90]%Z [10; 90]%Z
  = statistics.Return 1%Qc.
Proof.
  apply (kappa_identical_lists [10; 90]%Z).
  - cbn. lia.
  - exists 10%Z, 90%Z. split_and!; [repeat constructor..|discriminate].
Defined.

Lemma calculate_cohens_kappa_raises_witness :
  (statistics.calculate_cohens_kappa [10]%Z [10; 90]%Z
   = statistics.Raise statistics.ValueError)
  ∧ ∃ k : Qc, statistics.calculate_cohens_kappa [10; 30]%Z [10; 90]%Z
              = statistics.Return k.
Proof.
  split.
  - apply (calculate_cohens_kappa_raises [10]%Z [10; 90]%Z). cbn. lia.
  - apply (calculate_cohens_kappa_raises [10; 30]%Z [10; 90]%Z);
      [reflexivity | discriminate].
Defined.

(** ** Substrings *)

Section substring_facts.

Lemma startswith_spec (s p : str) :
  startswith s p = true ↔ ∃ b, s = p ++ b.
Proof.
  revert s. induction p as [|a p IH]; intros s; cbn.
  - split; [intros _; by exists s|done].
  - destruct s as [|b s]; cbn.
    + split; [done|]. intros [t Ht]. discriminate.
    + rewrite andb_true_iff, bool_decide_eq_true, IH. split.
      * intros [-> [t ->]]. by exists t.
      * intros [t Ht]. injection Ht as -> ->. split; [done|by exists t].
Qed.

Lemma contains_spec (s k : str) : contains s k = true ↔ substring k s.
Proof.
  unfold substring. induction s as [|c s IH]; cbn.
  - rewrite orb_false_r, startswith_spec. split.
    + intros [b Hb]. exists [], b. exact Hb.
    + intros (a & b & Hab). symmetry in Hab.
      apply app_eq_nil in Hab as [-> Hab]. apply app_eq_nil in Hab as [-> ->].
      by exists [].
  - rewrite orb_true_iff, startswith_spec, IH. split.
    + intros [[b Hb]|(a & b & Hab)].
      * exists [], b. exact Hb.
      * exists (c :: a), b. by rewrite Hab.
    + intros ([|c' a] & b & Hab).
      * left. by exists b.
      * right. injection Hab as -> ->. by exists a, b.
Qed.


End substring_facts.

(** ** The comparator *)

Section comparator_facts.
Import comparator comparator_spec.
Variable title : str → str.

Lemma separate_from (es : list extraction) (ls os : list extraction) :
  foldl (λ '(lincoln_extractions, other_extractions) e,
           if is_lincoln e
           then (lincoln_extractions ++ [e], other_extractions)
           else (lincoln_extractions, other_extractions ++ [e]))
        (ls, os) es
  = (ls ++ List.filter is_lincoln es,
     os ++ List.filter (λ e, negb (is_lincoln e)) es).
Proof.
  revert ls os. induction es as [|e es IH]; intros ls os; cbn.
  - by rewrite !app_nil_r.
  - destruct (is_lincoln e); cbn; rewrite IH, <-app_assoc; done.
Qed.

Lemma separate_spec (es : list extraction) :
  separate_lincoln_and_others es
  = (List.filter is_lincoln es, List.filter (λ e, negb (is_lincoln e)) es).
Proof. unfold separate_lincoln_and_others. by rewrite separate_from. Qed.





Lemma pairs_of_event_id (k : str) (es : list extraction) (p : pair) :
  p ∈ pairs_of_event title k es → event_id p = k.
Proof.
  unfold pairs_of_event. destruct (separate_lincoln_and_others es) as [ls os].
  intros Hp. apply list_elem_of_bind in Hp as (l & Hp & _).
  apply list_elem_of_bind in Hp as (o & Hp & _).
  destruct (_ && _); [|by apply elem_of_nil in Hp].
  apply list_elem_of_singleton in Hp. by subst p.
Qed.





Lemma append_to_group_keys k x (grouped : list (str * list extraction)) :
  (append_to_group k x grouped).*1
  = if decide (k ∈ grouped.*1) then grouped.*1 else grouped.*1 ++ [k].
Proof.
  induction grouped as [|[k' es] grouped IH]; cbn.
  - rewrite decide_False; [done|]. apply not_elem_of_nil.
  - destruct (decide (k' = k)) as [->|Hne]; cbn.
    + rewrite decide_True; [done|]. by left.
    + rewrite IH. destruct (decide (k ∈ grouped.*1)) as [Hin|Hin].
      * rewrite decide_True; [done|]. by right.
      * rewrite decide_False; [done|].
        intros [?|?]%elem_of_cons; congruence.
Qed.

Lemma append_to_group_NoDup k x (grouped : list (str * list extraction)) :
  NoDup grouped.*1 → NoDup (append_to_group k x grouped).*1.
Proof.
  intros Hnd. rewrite append_to_group_keys.
  destruct (decide (k ∈ grouped.*1)); [done|].
  apply list.NoDup_app. split_and!; [done| |apply NoDup_singleton].
  intros y Hy ->%list_elem_of_singleton. done.
Qed.

Lemma group_of_append e_id k x (grouped : list (str * list extraction)) :
  group_of e_id (append_to_group k x grouped)
  = if decide (k = e_id) then group_of e_id grouped ++ [x]
    else group_of e_id grouped.
Proof.
  induction grouped as [|[k' es] grouped IH]; cbn.
  - by destruct (decide (k = e_id)).
  - destruct (decide (k' = k)) as [->|Hne]; cbn.
    + by destruct (decide (k = e_id)).
    + destruct (decide (k' = e_id)) as [->|Hne'].
      * by rewrite decide_False by done.
      * apply IH.
Qed.

Lemma grouped_under_snoc (e_id : str) (extractions : list extraction) x :
  grouped_under e_id (extractions ++ [x])
  = grouped_under e_id extractions
    ++ (if bool_decide (event x = Some e_id) then [x] else []).
Proof. unfold grouped_under. by rewrite List.filter_app. Qed.

Lemma group_by_event_spec (extractions : list extraction) :
  NoDup (group_by_event extractions).*1
  ∧ ∀ e_id, e_id ≠ [] →
      group_of e_id (group_by_event extractions)
      = grouped_under e_id extractions.
Proof.
  induction extractions as [|x extractions [IHnd IH]] using rev_ind.
  - split; [apply NoDup_nil_2|done].
  - unfold group_by_event in *. rewrite foldl_snoc.
    destruct (event x) as [k|] eqn:Hev; cycle 1.
    { split; [done|]. intros e_id He. rewrite grouped_under_snoc, Hev.
      rewrite bool_decide_eq_false_2 by done. by rewrite app_nil_r, IH. }
    destruct k as [|c k]; cbn [truthy].
    { split; [done|]. intros e_id He. rewrite grouped_under_snoc, Hev.
      rewrite bool_decide_eq_false_2 by congruence. by rewrite app_nil_r, IH. }
    split; [by apply append_to_group_NoDup|].
    intros e_id He.
    rewrite grouped_under_snoc, Hev, group_of_append, IH by done.
    case_decide as Heq.
    + by rewrite bool_decide_eq_true_2 by congruence.
    + rewrite bool_decide_eq_false_2 by congruence. by rewrite app_nil_r.
Qed.



End comparator_facts.



(** ** The relevance filter *)

Section relevance_facts.
Import document_chunker relevance_spec.

Lemma keep_loop_filter {A} (f : A → bool) (l acc : list A) :
  foldl (λ relevant c, if f c then relevant ++ [c] else relevant) acc l
  = acc ++ List.filter f l.
Proof.
  revert acc. induction l as [|c l IH]; intros acc; cbn.
  - by rewrite app_nil_r.
  - destruct (f c); rewrite IH; [by rewrite <-app_assoc|done].
Qed.

Lemma any_keyword_in_spec (unique_keywords : list str) (text_lower : str) :
  any_keyword_in unique_keywords text_lower = true
  ↔ ∃ k, k ∈ unique_keywords ∧ substring k text_lower.
Proof.
  unfold any_keyword_in. rewrite existsb_exists.
  split; intros (k & Hin & Hk); exists k.
  - by rewrite list_elem_of_In, <-contains_spec.
  - by rewrite <-list_elem_of_In, contains_spec.
Qed.

Lemma dedup_loop_spec (partial_keywords : list str) :
  let st := foldl dedup_step (∅, []) partial_keywords in
  (∀ k, k ∈ st.1 ↔ k ∈ st.2)
  ∧ (∀ k, k ∈ st.2 ↔ k ∈ partial_keywords ∧ 3 < length k).
Proof.
  induction partial_keywords as [|kw pk IH] using rev_ind; cbn zeta.
  - cbn. split; intros k.
    + rewrite elem_of_empty, elem_of_nil. tauto.
    + rewrite elem_of_nil. tauto.
  - rewrite foldl_snoc. cbn zeta in IH.
    destruct (foldl dedup_step (∅, []) pk) as [seen uniq].
    destruct IH as [Hseen Huniq]. cbn [fst snd] in *. unfold dedup_step.
    destruct (bool_decide (kw ∉ seen)) eqn:Hnew;
      [apply bool_decide_eq_true in Hnew|apply bool_decide_eq_false in Hnew];
      (destruct (3 <? length kw) eqn:Hlen;
       [apply Nat.ltb_lt in Hlen|apply Nat.ltb_ge in Hlen]); cbn [andb fst snd].
    + split; intros k.
      * rewrite elem_of_union, elem_of_singleton, elem_of_app,
          list_elem_of_singleton, Hseen. tauto.
      * rewrite !elem_of_app, list_elem_of_singleton, Huniq. split.
        -- intros [[? ?]| ->]; auto.
        -- intros [[?| ->] ?]; auto.
    + split; [done|]. intros k.
      rewrite elem_of_app, list_elem_of_singleton, Huniq. split.
      * intros [? ?]; auto.
      * intros [[?| ->] ?]; [auto|lia].
    + split; [done|]. intros k.
      rewrite elem_of_app, list_elem_of_singleton, Huniq. split.
      * intros [? ?]; auto.
      * intros [[?| ->] ?]; [auto|].
        apply dec_stable in Hnew. apply Hseen, Huniq in Hnew. done.
    + split; [done|]. intros k.
      rewrite elem_of_app, list_elem_of_singleton, Huniq. split.
      * intros [? ?]; auto.
      * intros [[?| ->] ?]; [auto|lia].
Qed.

Lemma unique_keywords_spec (partial_keywords : list str) (k : str) :
  k ∈ unique_keywords_of partial_keywords
  ↔ k ∈ partial_keywords ∧ 3 < length k.
Proof. apply (dedup_loop_spec partial_keywords). Qed.

Lemma partial_keywords_spec (keywords_lower : list str) (k : str) :
  k ∈ partial_keywords_of keywords_lower
  ↔ ∃ kw, kw ∈ keywords_lower ∧ (k = kw ∨ k ∈ split_ws kw).
Proof.
  unfold partial_keywords_of.
  induction keywords_lower as [|kw kl IH] using rev_ind.
  - cbn. split; [intros Hk; by apply elem_of_nil in Hk|].
    intros (kw & Hkw & _). by apply elem_of_nil in Hkw.
  - rewrite foldl_snoc, !elem_of_app, list_elem_of_singleton, IH. split.
    + intros [[(kw' & Hin & Hk)|Hk]|Hk].
      * exists kw'. rewrite elem_of_app. auto.
      * exists kw. rewrite elem_of_app, list_elem_of_singleton. auto.
      * exists kw. rewrite elem_of_app, list_elem_of_singleton. auto.
    + intros (kw' & Hin & Hk). apply elem_of_app in Hin as [Hin|Hin].
      * left. left. by exists kw'.
      * apply list_elem_of_singleton in Hin as ->. tauto.
Qed.

Lemma lower_not_shorter (s : str) : length s ≤ length (lower s).
Proof. unfold lower. by rewrite length_map. Qed.

(** The test the filter applies to one chunk decides [relevant]. *)
Lemma keep_spec (event_keywords : list str) (c : chunk) :
  any_keyword_in
    (unique_keywords_of (partial_keywords_of (map lower event_keywords)))
    (lower (text c)) = true
  ↔ relevant event_keywords c.
Proof.
  rewrite any_keyword_in_spec. unfold relevant. split.
  - intros (k & Hk & Hsub).
    apply unique_keywords_spec in Hk as [Hk Hlen].
    apply partial_keywords_spec in Hk as (kwl & Hkwl & Hk).
    apply list_elem_of_In, in_map_iff in Hkwl as (kw & <- & Hkw).
    apply list_elem_of_In in Hkw. exists kw, k. done.
  - intros (kw & k & Hkw & Hk & Hlen & Hsub). exists k. split; [|done].
    apply unique_keywords_spec. split; [|done].
    apply partial_keywords_spec. exists (lower kw). split; [|done].
    apply list_elem_of_In, in_map_iff. exists kw.
    by rewrite <-list_elem_of_In.
Qed.

(** C1, as the code has it.  The result is the input list filtered, in
    order, by a test that holds exactly of the chunks whose lower-cased text
    contains a candidate longer than 3 characters: a lower-cased keyword or
    one of its whitespace-separated words.  In particular a chunk that
    contains a full keyword longer than 3 characters is kept. *)
Theorem find_relevant_chunks_spec (chunks : list chunk)
    (event_keywords : list str) :
  (∃ keep : chunk → bool,
     find_relevant_chunks chunks event_keywords = List.filter keep chunks
     ∧ ∀ c, keep c = true ↔ relevant event_keywords c)
  ∧ (∀ c, c ∈ find_relevant_chunks chunks event_keywords
          ↔ c ∈ chunks ∧ relevant event_keywords c)
  ∧ (∀ c kw, c ∈ chunks → kw ∈ event_keywords → 3 < length kw →
       substring (lower kw) (lower (text c)) →
       c ∈ find_relevant_chunks chunks event_keywords).
Proof.
  assert (Hfilter :
    find_relevant_chunks chunks event_keywords
    = List.filter
        (λ c, any_keyword_in
                (unique_keywords_of
                   (partial_keywords_of (map lower event_keywords)))
                (lower (text c))) chunks).
  { unfold find_relevant_chunks. by rewrite keep_loop_filter. }
  assert (Hmem : ∀ c, c ∈ find_relevant_chunks chunks event_keywords
                      ↔ c ∈ chunks ∧ relevant event_keywords c).
  { intros c. rewrite Hfilter, list_elem_of_In, filter_In, <-list_elem_of_In.
    by rewrite keep_spec. }
  split_and!.
  - eexists. split; [exact Hfilter|]. intros c. apply keep_spec.
  - exact Hmem.
  - intros c kw Hc Hkw Hlen Hsub. apply Hmem. split; [done|].
    pose proof (lower_not_shorter kw) as Hlow.
    exists kw, (lower kw). split_and!; [done|by left|lia|done].
Qed.

End relevance_facts.

(** C1, as the claim words it, fails: the keyword "war" occurs in the text
    of the chunk, yet the chunk is not returned, because a candidate of 3
    characters or fewer is never searched for. *)
Lemma short_keyword_not_matched :
  ¬ (∀ c, c ∈ document_chunker.find_relevant_chunks
                [relevance_spec.war_chunk] relevance_spec.war_keywords
          ↔ c ∈ [relevance_spec.war_chunk]
            ∧ relevance_spec.relevant_as_claimed relevance_spec.war_keywords c).
Proof.
  intros Hclaim.
  assert (Hin : relevance_spec.war_chunk
                ∈ document_chunker.find_relevant_chunks
                    [relevance_spec.war_chunk] relevance_spec.war_keywords).
  { apply Hclaim. split; [by left|].
    exists (lit "war"). split; [by left|]. left.
    by exists (lit "the "), (lit " began at fort sumter."). }
  vm_compute in Hin. by apply elem_of_nil in Hin.
Qed.

(** ** Whitespace and stripping *)

Section strip_facts.
Import chunker_spec.

Lemma nonws_app (a b : str) : nonws (a ++ b) = nonws a ++ nonws b.
Proof. apply List.filter_app. Qed.

Lemma nonws_all_space (s : str) : all_space s → nonws s = [].
Proof.
  induction 1 as [|c s Hc _ IH]; [done|]. cbn. by rewrite Hc.
Qed.

Lemma nonws_para_sep : nonws para_sep = [].
Proof. reflexivity. Qed.

Lemma lstrip_split (s : str) :
  ∃ ws, s = ws ++ lstrip s ∧ all_space ws.
Proof.
  induction s as [|c s (ws & Hs & Hws)].
  { exists []. split; [done|constructor]. }
  cbn. destruct (isspace c) eqn:Hc.
  - exists (c :: ws). split; [cbn; by f_equal|by constructor].
  - exists []. split; [done|constructor].
Qed.

Lemma lstrip_head (s : str) :
  lstrip s = [] ∨ ∃ c t, lstrip s = c :: t ∧ isspace c = false.
Proof.
  induction s as [|c s IH]; [by left|].
  cbn. destruct (isspace c) eqn:Hc; [done|]. right. by exists c, s.
Qed.

Lemma lstrip_fixed (c : ascii) (t : str) :
  isspace c = false → lstrip (c :: t) = c :: t.
Proof. intros Hc. cbn. by rewrite Hc. Qed.

Lemma lstrip_all_space (ws t : str) :
  all_space ws → lstrip (ws ++ t) = lstrip t.
Proof.
  induction 1 as [|c ws Hc _ IH]; [done|]. cbn. by rewrite Hc.
Qed.

Lemma lstrip_idemp (s : str) : lstrip (lstrip s) = lstrip s.
Proof.
  destruct (lstrip_head s) as [->|(c & t & -> & Hc)]; [done|].
  by apply lstrip_fixed.
Qed.

Lemma lstrip_app (s x : str) :
  lstrip s ≠ [] → lstrip (s ++ x) = lstrip s ++ x.
Proof.
  intros Hne. destruct (lstrip_split s) as (ws & Hs & Hws).
  rewrite Hs at 1. rewrite <-app_assoc, lstrip_all_space by done.
  destruct (lstrip_head s) as [?|(c & t & Ht & Hc)]; [done|].
  rewrite Ht. cbn. by rewrite Hc.
Qed.

Lemma nonws_lstrip (s : str) : nonws (lstrip s) = nonws s.
Proof.
  destruct (lstrip_split s) as (ws & Hs & Hws).
  rewrite Hs at 2. by rewrite nonws_app, (nonws_all_space ws).
Qed.

Lemma nonws_rev (s : str) : nonws (rev s) = rev (nonws s).
Proof.
  induction s as [|c s IH]; [done|].
  cbn [rev]. rewrite nonws_app, IH. cbn.
  destruct (isspace c); cbn; [by rewrite app_nil_r|done].
Qed.

Lemma nonws_strip (s : str) : nonws (strip s) = nonws s.
Proof.
  unfold strip, rstrip.
  by rewrite nonws_lstrip, nonws_rev, nonws_lstrip, nonws_rev, rev_involutive.
Qed.

Lemma ends_nonws_nonempty (s : str) : ends_nonws s → s ≠ [].
Proof. intros (t & c & -> & _). by destruct t. Qed.

Lemma ends_nonws_app (x s : str) : ends_nonws s → ends_nonws (x ++ s).
Proof.
  intros (t & c & -> & Hc). exists (x ++ t), c. by rewrite app_assoc.
Qed.

Lemma rstrip_ends_nonws (s : str) : ends_nonws s → rstrip s = s.
Proof.
  intros (t & c & -> & Hc). unfold rstrip.
  rewrite rev_app_distr. cbn [rev app]. rewrite lstrip_fixed by done.
  cbn [rev]. by rewrite rev_involutive.
Qed.

Lemma strip_ends_nonws (s : str) : ends_nonws s → strip s = lstrip s.
Proof. intros Hs. unfold strip. by rewrite rstrip_ends_nonws. Qed.

Lemma lstrip_ends_nonws (s : str) : ends_nonws s → ends_nonws (lstrip s).
Proof.
  intros (t & c & -> & Hc).
  destruct (decide (lstrip t = [])) as [Ht|Ht].
  - destruct (lstrip_split t) as (ws & Hws & Hall).
    rewrite Ht, app_nil_r in Hws.
    subst ws. rewrite lstrip_all_space, lstrip_fixed by done. by exists [], c.
  - rewrite lstrip_app by done. by exists (lstrip t), c.
Qed.

(** A stripped string is empty or ends, and begins, without whitespace. *)
Lemma strip_cases (s : str) :
  strip s = [] ∨ (ends_nonws (strip s) ∧ lstrip (strip s) = strip s).
Proof.
  unfold strip at 1 2. unfold rstrip.
  destruct (lstrip_head (rev s)) as [->|(c & t & Ht & Hc)]; [by left|].
  right. unfold strip, rstrip. rewrite Ht. cbn [rev]. split.
  - apply lstrip_ends_nonws. by exists (rev t), c.
  - apply lstrip_idemp.
Qed.

Lemma truthy_nonempty (s : str) : truthy s = true ↔ s ≠ [].
Proof. by destruct s. Qed.

Lemma truthy_empty (s : str) : truthy s = false ↔ s = [].
Proof. by destruct s. Qed.

End strip_facts.

(** ** Splitting into paragraphs loses only whitespace *)

Section split_facts.
Import chunker_spec.

Lemma is_nl_isspace (c : ascii) : is_nl c = true → isspace c = true.
Proof.
  unfold is_nl, isspace. intros Hc. apply Nat.eqb_eq in Hc. by rewrite Hc.
Qed.

Lemma nonws_cons_space (c : ascii) (s : str) :
  isspace c = true → nonws (c :: s) = nonws s.
Proof. intros Hc. cbn. by rewrite Hc. Qed.

Lemma nonws_snoc (cur : str) (c : ascii) (s : str) :
  nonws (cur ++ [c]) ++ nonws s = nonws cur ++ nonws (c :: s).
Proof.
  rewrite nonws_app, <-app_assoc. f_equal. symmetry. apply (nonws_app [c] s).
Qed.

Lemma match_ws_nl_space (s : str) (k : nat) :
  match_ws_nl s = Some k → all_space (take k s).
Proof.
  revert k. induction s as [|c s IH]; intros k; cbn; [discriminate|].
  destruct (isspace c) eqn:Hc; [|discriminate].
  destruct (match_ws_nl s) as [k'|].
  - intros [= <-]. cbn. constructor; [done|by apply IH].
  - destruct (is_nl c); [|discriminate].
    intros [= <-]. cbn. constructor; [done|constructor].
Qed.

Lemma re_split_from_nonws (s : str) (skip : nat) (cur : str) :
  all_space (take skip s) →
  nonws (concat (re_split_from skip cur s)) = nonws cur ++ nonws s.
Proof.
  revert skip cur. induction s as [|c s IH]; intros skip cur Hskip;
    cbn [re_split_from].
  - cbn. by rewrite !app_nil_r.
  - destruct skip as [|k].
    + assert (Hkeep : nonws (concat (re_split_from 0 (cur ++ [c]) s))
                      = nonws cur ++ nonws (c :: s)).
      { rewrite IH by constructor. apply nonws_snoc. }
      destruct (is_nl c) eqn:Hnl; [|exact Hkeep].
      destruct (match_ws_nl s) as [k|] eqn:Hm; [|exact Hkeep].
      cbn [concat]. rewrite nonws_app.
      rewrite (IH k [] (match_ws_nl_space s k Hm)).
      by rewrite (nonws_cons_space c s (is_nl_isspace c Hnl)).
    + cbn in Hskip. apply list.Forall_cons in Hskip as [Hc Hskip].
      by rewrite (IH k cur), (nonws_cons_space c s).
Qed.

Lemma re_split_paragraphs_nonws (s : str) :
  nonws (concat (re_split_paragraphs s)) = nonws s.
Proof. apply (re_split_from_nonws s 0 []). constructor. Qed.

End split_facts.

(** ** The overlap text and what is carried over *)

Section overlap_facts.
Import document_chunker chunker_spec.
Variable overlap : nat.

Lemma overlap_text_of_spec (s : str) :
  overlap_text_of overlap s
  = if decide (overlap = 0) then s else suffix_of_length overlap s.
Proof.
  unfold overlap_text_of, neg_slice, suffix_of_length.
  destruct overlap as [|k]; cbn [decide]; [by destruct (0 <? length s)|].
  rewrite decide_False by done.
  destruct (S k <? length s) eqn:Hlt; [done|].
  apply Nat.ltb_ge in Hlt. by replace (length s - S k) with 0 by lia.
Qed.

Lemma overlap_text_ends_nonws (cur : str) :
  ends_nonws cur → ends_nonws (overlap_text_of overlap cur).
Proof.
  intros Hcur. rewrite overlap_text_of_spec. case_decide as Hk; [done|].
  destruct Hcur as (t & c & -> & Hc). unfold suffix_of_length.
  rewrite length_app. cbn [length].
  rewrite drop_app_le by lia. by eexists _, c.
Qed.

(** The carried-over overlap can be read off the text of the saved chunk:
    stripping the buffer first does not change it. *)
Lemma carried_overlap_strip (cur : str) :
  ends_nonws cur →
  lstrip (overlap_text_of overlap cur) = carried_overlap overlap (strip cur).
Proof.
  intros Hcur. unfold carried_overlap.
  rewrite strip_ends_nonws, !overlap_text_of_spec by done.
  case_decide as Hk; [by rewrite lstrip_idemp|].
  destruct (lstrip_split cur) as (ws & Hs & Hws).
  unfold suffix_of_length. rewrite Hs at 1 2. rewrite length_app.
  destruct (decide (overlap ≤ length (lstrip cur))) as [Hle|Hgt].
  - rewrite drop_app_ge by lia. do 2 f_equal. lia.
  - rewrite drop_app_le by lia.
    rewrite lstrip_all_space by (by apply Forall_drop).
    by replace (length (lstrip cur) - overlap) with 0 by lia.
Qed.

Lemma remove_overlaps_snoc (prev : option str) (texts : list str) (t : str) :
  remove_overlaps overlap prev (texts ++ [t])
  = remove_overlaps overlap prev texts
    ++ [match from_option Some prev (list.last texts) with
        | None => t
        | Some p => drop (length (carried_overlap overlap p)) t
        end].
Proof.
  revert prev. induction texts as [|a texts IH]; intros prev; [done|].
  cbn [app remove_overlaps]. rewrite IH. f_equal. f_equal.
  rewrite last_cons. by destruct (list.last texts).
Qed.

Lemma reconstruct_snoc (texts : list str) (t : str) :
  reconstruct overlap (texts ++ [t])
  = reconstruct overlap texts
    ++ match list.last texts with
       | None => t
       | Some p => drop (length (carried_overlap overlap p)) t
       end.
Proof.
  unfold reconstruct. rewrite remove_overlaps_snoc, concat_app. cbn [concat].
  rewrite app_nil_r. by destruct (list.last texts).
Qed.

End overlap_facts.

(** ** The paragraph loop *)

Section loop_facts.
Import document_chunker chunker_spec.
Variables chunk_size overlap : nat.
Variable document_id : str.

Lemma begins_with_app (s p x : str) :
  begins_with s p → begins_with (s ++ x) p.
Proof. intros [rest ->]. exists (rest ++ x). by rewrite app_assoc. Qed.

Lemma begins_with_length (s p : str) :
  begins_with s p → length p ≤ length s.
Proof. intros [rest ->]. rewrite length_app. lia. Qed.

Lemma each_next_nil (R : str → str → Prop) : each_next R [].
Proof. intros i a b Ha. by rewrite lookup_nil in Ha. Qed.

Lemma each_next_singleton (R : str → str → Prop) (t : str) : each_next R [t].
Proof. intros i a b _ Hb. by rewrite lookup_cons, lookup_nil in Hb. Qed.

Lemma each_next_snoc (R : str → str → Prop) (texts : list str) (t : str) :
  each_next R (texts ++ [t])
  ↔ each_next R texts ∧ ∀ a, list.last texts = Some a → R a t.
Proof.
  split.
  - intros Hall. split.
    + intros i a b Ha Hb. apply (Hall i).
      * by apply lookup_app_l_Some.
      * by apply lookup_app_l_Some.
    + intros a Ha. rewrite last_lookup in Ha.
      destruct texts as [|a0 texts]; [by rewrite lookup_nil in Ha|].
      cbn [length Nat.pred] in Ha. apply (Hall (length texts)).
      * by apply lookup_app_l_Some.
      * change (S (length texts)) with (length (a0 :: texts)).
        by rewrite list_lookup_middle.
  - intros [Hall Hlast] i a b Ha Hb.
    destruct (decide (S i < length texts)) as [Hlt|Hge].
    + rewrite lookup_app_l in Ha, Hb by lia. by apply (Hall i).
    + assert (Hi : S i = length texts).
      { apply lookup_lt_Some in Hb. rewrite length_app in Hb. cbn in Hb. lia. }
      rewrite Hi, list_lookup_middle in Hb by done. injection Hb as <-.
      rewrite lookup_app_l in Ha by lia. apply Hlast.
      rewrite last_lookup. by replace (Nat.pred (length texts)) with i by lia.
Qed.

Lemma texts_of_buffer (cs : list chunk) (cur : str) (a : Z) (n : nat) :
  cur ≠ [] →
  texts_of (mk_state cs cur a n) = map text cs ++ [strip cur].
Proof.
  intros Hcur. unfold texts_of. cbn [chunks current_chunk].
  by rewrite (proj2 (truthy_nonempty cur)).
Qed.

Lemma texts_of_state (st : loop_state) :
  current_chunk st ≠ [] →
  texts_of st = map text (chunks st) ++ [strip (current_chunk st)].
Proof. destruct st. apply texts_of_buffer. Qed.

Lemma strip_fixed (s : str) :
  ends_nonws s → lstrip s = s → strip s = s.
Proof. intros Hs Hl. by rewrite strip_ends_nonws. Qed.

Lemma strip_buffer_app (cur x : str) :
  ends_nonws cur → ends_nonws x → strip (cur ++ x) = strip cur ++ x.
Proof.
  intros Hcur Hx.
  rewrite !strip_ends_nonws by (done || by apply ends_nonws_app).
  apply lstrip_app, ends_nonws_nonempty. by apply lstrip_ends_nonws.
Qed.

Lemma loop_body_inv (st : loop_state) (seen : list str) (para0 : str) :
  loop_inv overlap st seen →
  loop_inv overlap (loop_body chunk_size overlap document_id st para0)
           (seen ++ [para0]).
Proof.
  intros [Hempty Hends Hnext Hrecon]. unfold loop_body.
  assert (Hseen : nonws (concat (seen ++ [para0]))
                  = nonws (concat seen) ++ nonws (strip para0)).
  { rewrite concat_app, nonws_app. cbn [concat].
    by rewrite app_nil_r, nonws_strip. }
  destruct (strip_cases para0) as [Hpara|[Hpara_ends Hpara_l]].
  { rewrite Hpara. cbn [truthy negb]. split; try done.
    by rewrite Hseen, Hpara, app_nil_r. }
  set (para := strip para0) in *.
  assert (Hpara_ne : para ≠ []) by (by apply ends_nonws_nonempty).
  assert (Hsep_para : ends_nonws (para_sep ++ para)).
  { by apply ends_nonws_app. }
  assert (Hsep_nonws : nonws (para_sep ++ para) = nonws para).
  { by rewrite nonws_app, nonws_para_sep. }
  rewrite (proj2 (truthy_nonempty para)) by done. cbn [negb].
  destruct (decide (current_chunk st = [])) as [Hcur|Hcur].
  - rewrite Hcur, andb_false_r. cbn [truthy].
    unfold texts_of in Hrecon. rewrite Hcur, (Hempty Hcur) in Hrecon.
    split; cbn [current_chunk chunks]; try done.
    + rewrite texts_of_buffer, (Hempty Hcur) by done. apply each_next_singleton.
    + rewrite texts_of_buffer, (Hempty Hcur), Hseen, <-Hrecon by done.
      cbn. by rewrite app_nil_r, nonws_strip.
  - specialize (Hends Hcur).
    rewrite (texts_of_state st Hcur) in Hnext, Hrecon.
    apply each_next_snoc in Hnext as [Hnext Hlast].
    rewrite (proj2 (truthy_nonempty (current_chunk st))), andb_true_r by done.
    destruct (chunk_size <? length (current_chunk st) + length para).
    + assert (Hov := overlap_text_ends_nonws overlap _ Hends).
      assert (Hnew : strip (overlap_text_of overlap (current_chunk st)
                            ++ para_sep ++ para)
                     = carried_overlap overlap (strip (current_chunk st))
                       ++ para_sep ++ para).
      { rewrite strip_buffer_app by done.
        by rewrite strip_ends_nonws, carried_overlap_strip by done. }
      split; cbn [current_chunk chunks].
      * intros Hnil. apply app_eq_nil in Hnil as [_ Hnil].
        by apply ends_nonws_nonempty in Hsep_para.
      * intros _. by apply ends_nonws_app.
      * rewrite texts_of_buffer; cycle 1.
        { intros Hnil. apply app_eq_nil in Hnil as [_ Hnil].
          by apply ends_nonws_nonempty in Hsep_para. }
        rewrite map_app. cbn [map text]. rewrite Hnew.
        apply each_next_snoc. split.
        -- by apply each_next_snoc.
        -- intros a Ha. rewrite last_snoc in Ha. injection Ha as <-.
           by eexists.
      * rewrite texts_of_buffer; cycle 1.
        { intros Hnil. apply app_eq_nil in Hnil as [_ Hnil].
          by apply ends_nonws_nonempty in Hsep_para. }
        rewrite map_app. cbn [map text]. rewrite Hnew.
        rewrite reconstruct_snoc, last_snoc, drop_app_length.
        by rewrite nonws_app, Hrecon, Hseen, Hsep_nonws.
    + assert (Hnew : strip (current_chunk st ++ para_sep ++ para)
                     = strip (current_chunk st) ++ para_sep ++ para).
      { by apply strip_buffer_app. }
      assert (Hne : current_chunk st ++ para_sep ++ para ≠ []).
      { intros Hnil. by apply app_eq_nil in Hnil as [? _]. }
      split; cbn [current_chunk chunks].
      * done.
      * intros _. by apply ends_nonws_app.
      * rewrite texts_of_buffer, Hnew by done.
        apply each_next_snoc. split; [done|].
        intros a Ha. by apply begins_with_app, Hlast.
      * rewrite texts_of_buffer, Hnew by done.
        rewrite reconstruct_snoc in Hrecon |- *.
        rewrite nonws_app in Hrecon |- *. rewrite Hseen, <-Hrecon, <-app_assoc.
        f_equal. destruct (list.last (map text (chunks st))) as [a|] eqn:Ha.
        -- rewrite drop_app_le by (by apply begins_with_length, Hlast).
           by rewrite nonws_app, Hsep_nonws.
        -- by rewrite nonws_app, Hsep_nonws.
Qed.

Lemma run_loop_inv (paragraphs : list str) (st : loop_state)
    (seen : list str) :
  loop_inv overlap st seen →
  loop_inv overlap (run_loop chunk_size overlap document_id st paragraphs)
           (seen ++ paragraphs).
Proof.
  revert st seen. induction paragraphs as [|para paragraphs IH];
    intros st seen Hinv; cbn.
  - by rewrite app_nil_r.
  - rewrite cons_middle, app_assoc. by apply IH, loop_body_inv.
Qed.

Lemma initial_inv : loop_inv overlap (mk_state [] [] 0 0) [].
Proof. split; try done; apply each_next_nil. Qed.

Lemma finish_texts (st : loop_state) (seen : list str) :
  loop_inv overlap st seen →
  map text (finish document_id st) = texts_of st.
Proof.
  intros [Hempty Hends _ _]. unfold finish, texts_of.
  destruct (decide (current_chunk st = [])) as [Hcur|Hcur].
  - rewrite Hcur. cbn. by rewrite app_nil_r.
  - specialize (Hends Hcur).
    assert (Hstrip : strip (current_chunk st) ≠ []).
    { rewrite strip_ends_nonws by done.
      by apply ends_nonws_nonempty, lstrip_ends_nonws. }
    rewrite !(proj2 (truthy_nonempty _)) by done.
    by rewrite map_app.
Qed.

(** The texts of the chunks of any document: each one after the first
    begins with what was carried over from the one before, and with those
    carried-over parts removed the texts hold the non-whitespace characters
    of the document, all of them and in order. *)
Lemma chunk_document_texts (text : str) :
  each_next (λ a b, begins_with b (carried_overlap overlap a))
    (map document_chunker.text
         (chunk_document chunk_size overlap text document_id))
  ∧ nonws (reconstruct overlap
             (map document_chunker.text
                  (chunk_document chunk_size overlap text document_id)))
    = nonws text.
Proof.
  unfold chunk_document.
  destruct (negb (truthy text) || (length text <? chunk_size)).
  - cbn [map document_chunker.text]. split; [apply each_next_singleton|].
    unfold reconstruct. cbn. by rewrite app_nil_r.
  - pose proof (run_loop_inv (re_split_paragraphs text) _ [] initial_inv)
      as Hinv.
    rewrite (finish_texts _ _ Hinv). destruct Hinv as [_ _ Hnext Hrecon].
    split; [done|]. rewrite Hrecon. apply re_split_paragraphs_nonws.
Qed.

End loop_facts.

(** ** Overlap between consecutive chunks, and losslessness *)

Section chunker_claims.
Import document_chunker chunker_spec.

Lemma carried_overlap_suffix (overlap : nat) (a b : str) :
  begins_with b (carried_overlap overlap a) →
  begins_with b (lstrip (suffix_of_length overlap a)).
Proof.
  unfold carried_overlap. rewrite overlap_text_of_spec.
  case_decide as Hk; [|done]. intros _. subst overlap.
  unfold suffix_of_length. rewrite Nat.sub_0_r, drop_all. by exists b.
Qed.

Lemma not_space_not_nl (d : ascii) : isspace d = false → is_nl d = false.
Proof.
  intros Hd. destruct (is_nl d) eqn:Hnl; [|done].
  apply is_nl_isspace in Hnl. congruence.
Qed.

Lemma match_ws_nl_length (s : str) (k : nat) :
  match_ws_nl s = Some k → k ≤ length s.
Proof.
  revert k. induction s as [|c s IH]; intros k; cbn; [discriminate|].
  destruct (isspace c); [|discriminate].
  destruct (match_ws_nl s) as [k'|].
  - intros [= <-]. specialize (IH k' eq_refl). lia.
  - destruct (is_nl c); [|discriminate]. intros [= <-]. lia.
Qed.

(** A match of the separator never reaches past a character that is not
    whitespace. *)
Lemma match_ws_nl_before (t : str) (d : ascii) (rest : str) :
  isspace d = false → match_ws_nl (t ++ d :: rest) = match_ws_nl t.
Proof.
  intros Hd. induction t as [|c t IH]; cbn; [by rewrite Hd|].
  by rewrite IH.
Qed.

(** Splitting a text that continues after a non-whitespace character [d]:
    the pieces completed before [d] do not depend on what follows, and the
    piece that holds [d] stays open. *)
Lemma re_split_from_open (t : str) (d : ascii) (skip : nat) (cur : str) :
  isspace d = false → skip ≤ length t →
  ∃ pieces open_piece, ∀ rest,
    re_split_from skip cur (t ++ d :: rest)
    = pieces ++ re_split_from 0 open_piece rest.
Proof.
  intros Hd. revert skip cur.
  induction t as [|c t IH]; intros skip cur Hskip.
  - exists [], (cur ++ [d]). intros rest.
    replace skip with 0 by (cbn in Hskip; lia).
    cbn [app re_split_from]. by rewrite (not_space_not_nl d Hd).
  - cbn [app re_split_from]. destruct skip as [|k].
    + destruct (IH 0 (cur ++ [c])) as (pieces & op & Hop); [lia|].
      destruct (is_nl c); [|by exists pieces, op].
      destruct (match_ws_nl t) as [k|] eqn:Hm.
      * destruct (IH k []) as (pieces' & op' & Hop');
          [by apply match_ws_nl_length|].
        exists (cur :: pieces'), op'. intros rest.
        by rewrite match_ws_nl_before, Hm, Hop'.
      * exists pieces, op. intros rest.
        by rewrite match_ws_nl_before, Hm, Hop.
    + cbn in Hskip. apply (IH k cur). lia.
Qed.

Lemma paragraph_head (p : str) :
  paragraph p → ∃ c t, p = c :: t ∧ isspace c = false.
Proof.
  intros (Hne & Hstrip & _).
  destruct (strip_cases p) as [Hnil|[_ Hl]]; [congruence|].
  rewrite Hstrip in Hl.
  destruct (lstrip_head p) as [Hnil|(c & t & Hp & Hc)]; [congruence|].
  exists c, t. by rewrite <-Hl.
Qed.

Lemma paragraph_ends_nonws (p : str) : paragraph p → ends_nonws p.
Proof.
  intros (Hne & Hstrip & _).
  destruct (strip_cases p) as [Hnil|[Hends _]]; [congruence|].
  by rewrite Hstrip in Hends.
Qed.

(** A paragraph followed by more text is read into the open piece. *)
Lemma re_split_paragraph_then (p rest : str) :
  paragraph p →
  re_split_from 0 [] (p ++ rest) = re_split_from 0 p rest.
Proof.
  intros Hp. destruct (paragraph_ends_nonws p Hp) as (t & d & -> & Hd).
  destruct Hp as (_ & _ & Hwhole). unfold re_split_paragraphs in Hwhole.
  destruct (re_split_from_open t d 0 [] Hd) as (pieces & op & Hop); [lia|].
  rewrite <-app_assoc. cbn [app]. rewrite Hop.
  specialize (Hop []). rewrite Hwhole in Hop. cbn [re_split_from] in Hop.
  destruct pieces as [|x pieces].
  - by injection Hop as <-.
  - injection Hop as _ Hop. by destruct pieces.
Qed.

Lemma match_ws_nl_nonws (c : ascii) (t : str) :
  isspace c = false → match_ws_nl (c :: t) = None.
Proof. intros Hc. cbn. by rewrite Hc. Qed.

Lemma re_split_blank_line (cur rest : str) :
  match_ws_nl rest = None →
  re_split_from 0 cur (nl :: nl :: rest) = cur :: re_split_from 0 [] rest.
Proof.
  intros Hnone. cbn [re_split_from match_ws_nl]. rewrite Hnone.
  by change (is_nl nl) with true; change (isspace nl) with true.
Qed.

(** Two paragraphs joined by a blank line split back into the two. *)
Lemma re_split_two_paragraphs (p1 p2 : str) :
  paragraph p1 → paragraph p2 →
  re_split_paragraphs (p1 ++ para_sep ++ p2) = [p1; p2].
Proof.
  intros Hp1 Hp2. unfold re_split_paragraphs.
  rewrite re_split_paragraph_then by done.
  destruct (paragraph_head p2 Hp2) as (c & t & Hc2 & Hc).
  change (para_sep ++ p2) with (nl :: nl :: p2).
  rewrite re_split_blank_line by (rewrite Hc2; by apply match_ws_nl_nonws).
  destruct Hp2 as (_ & _ & Hwhole). unfold re_split_paragraphs in Hwhole.
  by rewrite Hwhole.
Qed.

(** The chunk texts of two paragraphs of 1200 characters with chunk size
    2000: the first paragraph, then what is carried over from it, the
    separator and the second paragraph. *)
Lemma two_paragraph_texts (overlap : nat) (p1 p2 document_id : str) :
  paragraph p1 → paragraph p2 → length p1 = 1200 → length p2 = 1200 →
  map document_chunker.text
      (chunk_document 2000 overlap (p1 ++ para_sep ++ p2) document_id)
  = [p1; carried_overlap overlap p1 ++ para_sep ++ p2].
Proof.
  intros Hp1 Hp2 Hlen1 Hlen2.
  pose proof (paragraph_ends_nonws p1 Hp1) as Hends1.
  pose proof (paragraph_ends_nonws p2 Hp2) as Hends2.
  destruct Hp1 as (Hne1 & Hstrip1 & Hwhole1).
  destruct Hp2 as (Hne2 & Hstrip2 & Hwhole2).
  assert (Hp1 : paragraph p1) by done. assert (Hp2 : paragraph p2) by done.
  unfold chunk_document.
  assert (Hlong : negb (truthy (p1 ++ para_sep ++ p2))
                  || (length (p1 ++ para_sep ++ p2) <? 2000) = false).
  { rewrite !length_app, Hlen1, Hlen2.
    destruct p1; [done|]. reflexivity. }
  rewrite Hlong, re_split_two_paragraphs by done.
  unfold run_loop. cbn [foldl].
  unfold loop_body at 2. cbn [current_chunk chunks chunk_start cur_index].
  rewrite Hstrip1, (proj2 (truthy_nonempty p1)) by done.
  cbn [negb truthy andb]. rewrite andb_false_r.
  unfold loop_body. cbn [current_chunk chunks chunk_start cur_index].
  rewrite Hstrip2, (proj2 (truthy_nonempty p2)) by done.
  rewrite (proj2 (truthy_nonempty p1)) by done. cbn [negb].
  rewrite Hlen1, Hlen2. replace (2000 <? 1200 + 1200) with true by done.
  cbn [andb]. unfold finish. cbn [current_chunk chunks chunk_start cur_index].
  assert (Hsep : ends_nonws (para_sep ++ p2)) by (by apply ends_nonws_app).
  assert (Hnew : strip (overlap_text_of overlap p1 ++ para_sep ++ p2)
                 = carried_overlap overlap p1 ++ para_sep ++ p2).
  { rewrite strip_buffer_app by (done || by apply overlap_text_ends_nonws).
    rewrite strip_ends_nonws by (by apply overlap_text_ends_nonws).
    by rewrite carried_overlap_strip, Hstrip1 by done. }
  rewrite Hnew, Hstrip1.
  rewrite (proj2 (truthy_nonempty _)); [done|].
  intros Hnil. apply app_eq_nil in Hnil as [_ Hnil].
  by apply ends_nonws_nonempty in Hsep.
Qed.

(** C7, as the code has it.  In every document that is split into several
    chunks, each chunk after the first begins with the trailing
    overlap-length suffix of the text of the chunk before it, less the
    leading whitespace of that suffix.  In particular two paragraphs of 1200
    characters with chunk size 2000 and a positive overlap give exactly two
    chunks: the first paragraph, and a chunk that begins with the stripped
    overlap-length suffix of the first paragraph, which is that suffix
    itself when it does not start with whitespace. *)
Theorem chunk_overlap_carried (chunk_size overlap : nat)
    (text document_id : str) :
  each_next (λ a b, begins_with b (lstrip (suffix_of_length overlap a)))
    (map document_chunker.text
         (chunk_document chunk_size overlap text document_id))
  ∧ ∀ p1 p2 : str,
      paragraph p1 → paragraph p2 → length p1 = 1200 → length p2 = 1200 →
      0 < overlap →
      map document_chunker.text
          (chunk_document 2000 overlap (p1 ++ para_sep ++ p2) document_id)
      = [p1; lstrip (suffix_of_length overlap p1) ++ para_sep ++ p2]
      ∧ (lstrip (suffix_of_length overlap p1) = suffix_of_length overlap p1
         → ∃ c1 c2,
             chunk_document 2000 overlap (p1 ++ para_sep ++ p2) document_id
             = [c1; c2]
             ∧ begins_with (document_chunker.text c2)
                 (suffix_of_length overlap (document_chunker.text c1))).
Proof.
  split.
  - destruct (chunk_document_texts chunk_size overlap document_id text)
      as [Hnext _].
    intros i a b Ha Hb. by apply carried_overlap_suffix, (Hnext i).
  - intros p1 p2 Hp1 Hp2 Hlen1 Hlen2 Hov.
    pose proof (two_paragraph_texts overlap p1 p2 document_id
                  Hp1 Hp2 Hlen1 Hlen2) as Htexts.
    unfold carried_overlap in Htexts.
    rewrite overlap_text_of_spec, decide_False in Htexts by lia.
    split; [done|]. intros Hfix.
    destruct (chunk_document 2000 overlap (p1 ++ para_sep ++ p2) document_id)
      as [|c1 [|c2 [|c3 cs]]]; try discriminate.
    injection Htexts as Hc1 Hc2. exists c1, c2. split; [done|].
    rewrite Hc1, Hc2, Hfix. by eexists.
Qed.

(** C8.  Nothing is dropped: every chunk after the first is what was carried
    over from its predecessor followed by new text, and the chunk texts,
    each without its leading carried-over overlap, concatenate to a string
    whose non-whitespace characters are those of the input, in order. *)
Theorem chunk_document_lossless (chunk_size overlap : nat)
    (text document_id : str) :
  each_next (λ a b, begins_with b (carried_overlap overlap a))
    (map document_chunker.text
         (chunk_document chunk_size overlap text document_id))
  ∧ nonws (reconstruct overlap
             (map document_chunker.text
                  (chunk_document chunk_size overlap text document_id)))
    = nonws text.
Proof. apply chunk_document_texts. Qed.

End chunker_claims.

(** Two paragraphs of 1200 letters each, the default overlap of 200. *)
Lemma chunk_overlap_carried_witness :
  map document_chunker.text
      (document_chunker.chunk_document 2000 200
         (replicate 1200 "A"%char ++ para_sep ++ replicate 1200 "B"%char)
         (lit "doc"))
  = [replicate 1200 "A"%char;
     replicate 200 "A"%char ++ para_sep ++ replicate 1200 "B"%char].
Proof.
  refine (proj1 (proj2 (chunk_overlap_carried 2000 200 [] (lit "doc"))
                  (replicate 1200 "A"%char) (replicate 1200 "B"%char)
                  _ _ _ _ _)).
  - split_and!; [done|by vm_compute|by vm_compute].
  - split_and!; [done|by vm_compute|by vm_compute].
  - apply length_replicate.
  - apply length_replicate.
  - lia.
Defined.

(** C7, as the claim words it, fails on two paragraphs of 1200 characters
    with chunk size 2000 and overlap 200: the last 200 characters of the
    first chunk are a space and 199 letters, and the second chunk starts
    with the letters, the space having been stripped. *)
Lemma overlap_suffix_not_prefix :
  ¬ chunker_spec.each_next
      (λ a b, chunker_spec.begins_with b (chunker_spec.suffix_of_length 200 a))
      (map document_chunker.text
           (document_chunker.chunk_document 2000 200
              chunker_spec.two_paragraphs (lit "doc"))).
Proof.
  intros Hclaim.
  destruct (Hclaim 0 chunker_spec.spaced_paragraph
              (replicate 199 "B"%char ++ para_sep
               ++ chunker_spec.plain_paragraph)
              ltac:(by vm_compute) ltac:(by vm_compute)) as [rest Hrest].
  vm_compute in Hrest. discriminate.
Qed.

(** * Further properties *)

(** ** Combining chunks *)

Section combine_facts.
Import document_chunker chunker_more_spec.

Lemma chunk_sep_length : length chunk_sep = 7.
Proof. reflexivity. Qed.

Lemma combine_stopped (max_length : nat) (combined : str) (cs : list chunk) :
  foldl (combine_step max_length) (combined, true) cs = (combined, true).
Proof. induction cs as [|c cs IH]; [done|]. exact IH. Qed.

Lemma combine_step_bound (max_length : nat) (st : str * bool) (c : chunk) :
  length st.1 ≤ max_length + 7 →
  length (combine_step max_length st c).1 ≤ max_length + 7.
Proof.
  destruct st as [combined stopped]. cbn [fst]. intros Hinv.
  unfold combine_step. destruct stopped; [done|].
  destruct (max_length <? length combined + length (text c)) eqn:Hfit; [done|].
  apply Nat.ltb_ge in Hfit. cbn [fst].
  destruct combined as [|a combined]; cbn [truthy].
  - cbn in Hfit. lia.
  - rewrite !length_app, chunk_sep_length. lia.
Qed.

(** X1.  The combined text is at most [max_length + 7] characters long:
    the test before each addition counts the text but not the separator of
    7 characters that goes in front of it. *)
Theorem combine_chunks_length (chunks : list chunk) (max_length : nat) :
  length (combine_chunks chunks max_length) ≤ max_length + 7.
Proof.
  unfold combine_chunks.
  assert (Hgen : ∀ st, length st.1 ≤ max_length + 7 →
            length (foldl (combine_step max_length) st chunks).1
            ≤ max_length + 7).
  { induction chunks as [|c cs IH]; intros st Hst; [done|].
    cbn [foldl]. by apply IH, combine_step_bound. }
  apply Hgen. cbn. lia.
Qed.

(** X2.  The first chunk that does not fit ends the combination: the
    chunks after it are left out, also those that would fit. *)
Theorem combine_chunks_stops (pre post : list chunk) (c : chunk)
    (max_length : nat) :
  max_length < length (combine_chunks pre max_length) + length (text c) →
  combine_chunks (pre ++ c :: post) max_length = combine_chunks pre max_length.
Proof.
  unfold combine_chunks. intros Hfit. rewrite foldl_app. cbn [foldl].
  destruct (foldl (combine_step max_length) ([], false) pre)
    as [combined stopped].
  cbn [fst] in *. unfold combine_step at 2. destruct stopped.
  - by rewrite combine_stopped.
  - apply Nat.ltb_lt in Hfit. rewrite Hfit. by rewrite combine_stopped.
Qed.

Lemma join_cons_nonempty (sep t : str) (texts : list str) :
  texts ≠ [] → join sep (t :: texts) = t ++ sep ++ join sep texts.
Proof. by destruct texts. Qed.

Lemma join_snoc (sep : str) (texts : list str) (t : str) :
  texts ≠ [] → join sep (texts ++ [t]) = join sep texts ++ sep ++ t.
Proof.
  induction texts as [|a texts IH]; [done|]. intros _.
  destruct texts as [|b texts]; [reflexivity|].
  change ((a :: b :: texts) ++ [t]) with (a :: ((b :: texts) ++ [t])).
  rewrite join_cons_nonempty by (by destruct texts).
  rewrite IH by done. rewrite (join_cons_nonempty sep a (b :: texts)) by done.
  by rewrite <-!app_assoc.
Qed.

Lemma join_nonempty (sep : str) (texts : list str) :
  texts ≠ [] → Forall (λ t, t ≠ []) texts → join sep texts ≠ [].
Proof.
  intros Hne Hall. destruct texts as [|t texts]; [done|].
  apply list.Forall_cons in Hall as [Ht _].
  destruct texts as [|b texts]; [done|].
  rewrite join_cons_nonempty by done. by destruct t.
Qed.

Lemma join_length_prefix (sep : str) (pre post : list str) :
  length (join sep pre) ≤ length (join sep (pre ++ post)).
Proof.
  induction pre as [|a pre IH]; [cbn; lia|].
  destruct pre as [|b pre].
  - destruct post as [|c post]; [cbn; lia|].
    change ([a] ++ c :: post) with (a :: c :: post).
    rewrite (join_cons_nonempty sep a (c :: post)) by done.
    cbn [join]. rewrite length_app. lia.
  - change ((a :: b :: pre) ++ post) with (a :: ((b :: pre) ++ post)).
    rewrite (join_cons_nonempty sep a (b :: pre)) by done.
    rewrite (join_cons_nonempty sep a ((b :: pre) ++ post)) by done.
    rewrite !length_app. lia.
Qed.

(** While everything fits, the loop builds the join of the texts. *)
Lemma combine_prefix_join (max_length : nat) (cs : list chunk) :
  Forall (λ c, text c ≠ []) cs →
  length (join chunk_sep (map text cs)) ≤ max_length →
  foldl (combine_step max_length) ([], false) cs
  = (join chunk_sep (map text cs), false).
Proof.
  induction cs as [|c cs IH] using rev_ind; [done|].
  intros Hall Hlen. apply list.Forall_app in Hall as [Hall Hc].
  apply list.Forall_cons in Hc as [Hc _].
  rewrite map_app in Hlen. cbn [map] in Hlen.
  pose proof (join_length_prefix chunk_sep (map text cs) [text c]) as Hpre.
  rewrite foldl_snoc. rewrite IH; [|done|lia]. rewrite map_app. cbn [map].
  unfold combine_step. destruct cs as [|c0 cs].
  - cbn [map app join length Nat.add truthy] in *.
    destruct (max_length <? length (text c)) eqn:Hfit; [|done].
    apply Nat.ltb_lt in Hfit. lia.
  - assert (Hne : map text (c0 :: cs) ≠ []) by done.
    rewrite join_snoc in Hlen |- * by done.
    rewrite !length_app, chunk_sep_length in Hlen.
    replace (max_length <? _) with false by (symmetry; apply Nat.ltb_ge; lia).
    rewrite (proj2 (truthy_nonempty _)); [done|].
    apply join_nonempty; [done|].
    apply list.Forall_forall. intros t Ht.
    apply list_elem_of_In, in_map_iff in Ht as (x & <- & Hx).
    apply list_elem_of_In in Hx.
    by apply (proj1 (list.Forall_forall _ _) Hall).
Qed.

(** X3.  When no text is empty and the texts joined by the separator fit
    in [max_length], the result is that join: all chunks, in order. *)
Theorem combine_chunks_all_fit (chunks : list chunk) (max_length : nat) :
  Forall (λ c, text c ≠ []) chunks →
  length (join chunk_sep (map text chunks)) ≤ max_length →
  combine_chunks chunks max_length = join chunk_sep (map text chunks).
Proof.
  intros Hall Hlen. unfold combine_chunks.
  by rewrite combine_prefix_join.
Qed.

End combine_facts.

(** ** The shape of the chunks *)

Section shape_facts.
Import document_chunker chunker_spec chunker_more_spec.
Variables chunk_size overlap : nat.
Variable document_id : str.

Lemma lstrip_length (s : str) : length (lstrip s) ≤ length s.
Proof.
  destruct (lstrip_split s) as (ws & Hs & _).
  rewrite Hs at 2. rewrite length_app. lia.
Qed.

Lemma strip_length (s : str) : length (strip s) ≤ length s.
Proof.
  unfold strip, rstrip.
  pose proof (lstrip_length (rev (lstrip (rev s)))) as H1.
  pose proof (lstrip_length (rev s)) as H2.
  rewrite !length_rev in *. lia.
Qed.

Lemma strip_idemp (s : str) : strip (strip s) = strip s.
Proof.
  destruct (strip_cases s) as [->|[Hends Hl]]; [done|].
  by apply strip_fixed.
Qed.

Lemma strip_all_space (s : str) : all_space s → strip s = [].
Proof.
  intros Hs. unfold strip, rstrip.
  assert (Hrev : lstrip (rev s) = []).
  { rewrite <-(app_nil_r (rev s)). rewrite lstrip_all_space; [done|].
    by apply Forall_rev. }
  by rewrite Hrev.
Qed.

Lemma strip_buffer_nonempty (cur : str) : ends_nonws cur → strip cur ≠ [].
Proof.
  intros Hcur. rewrite strip_ends_nonws by done.
  by apply ends_nonws_nonempty, lstrip_ends_nonws.
Qed.

Lemma len_app (a b : str) : len (a ++ b) = (len a + len b)%Z.
Proof. unfold len. rewrite length_app. lia. Qed.

Lemma saved_numbered (st : loop_state) :
  shape_inv document_id st → current_chunk st ≠ [] →
  let saved :=
    mk_chunk (make_chunk_id document_id (cur_index st))
             (strip (current_chunk st)) (chunk_start st)
             (chunk_start st + len (current_chunk st)) (cur_index st) in
  ∀ i c, (chunks st ++ [saved]) !! i = Some c →
    numbered document_id i c ∧ strip (text c) = text c ∧ text c ≠ [].
Proof.
  intros [Hstart Hidx Hchunks Hends] Hcur saved i c Hc.
  apply lookup_app_Some in Hc as [Hc|[Hi Hc]]; [by apply Hchunks|].
  apply list_lookup_singleton_Some in Hc as [Hi0 <-].
  assert (i = length (chunks st)) as -> by lia.
  unfold numbered, saved. cbn. rewrite Hidx, Hstart. split_and!; try done.
  - pose proof (strip_length (current_chunk st)). unfold len. lia.
  - apply strip_idemp.
  - by apply strip_buffer_nonempty, Hends.
Qed.

Lemma loop_body_shape (st : loop_state) (para0 : str) :
  shape_inv document_id st →
  shape_inv document_id (loop_body chunk_size overlap document_id st para0).
Proof.
  intros Hinv. pose proof Hinv as [Hstart Hidx Hchunks Hends].
  unfold loop_body.
  destruct (strip_cases para0) as [Hpara|[Hpara_ends _]].
  { by rewrite Hpara. }
  set (para := strip para0) in *.
  assert (Hpara_ne : para ≠ []) by (by apply ends_nonws_nonempty).
  rewrite (proj2 (truthy_nonempty para)) by done. cbn [negb].
  destruct (decide (current_chunk st = [])) as [Hcur|Hcur].
  - rewrite Hcur, andb_false_r. cbn [truthy]. by split.
  - rewrite (proj2 (truthy_nonempty (current_chunk st))), andb_true_r by done.
    assert (Hsep : ends_nonws (para_sep ++ para)) by (by apply ends_nonws_app).
    destruct (chunk_size <? length (current_chunk st) + length para).
    + split; cbn [chunks current_chunk chunk_start cur_index].
      * rewrite Hstart, !len_app. change (len para_sep) with 2%Z. lia.
      * rewrite length_app. cbn. lia.
      * by apply saved_numbered.
      * intros _. by apply ends_nonws_app.
    + split; cbn [chunks current_chunk chunk_start cur_index]; try done.
      intros _. by apply ends_nonws_app.
Qed.

Lemma run_loop_shape (paragraphs : list str) (st : loop_state) :
  shape_inv document_id st →
  shape_inv document_id (run_loop chunk_size overlap document_id st paragraphs).
Proof.
  revert st. induction paragraphs as [|p ps IH]; intros st Hinv; [done|].
  by apply IH, loop_body_shape.
Qed.

Lemma initial_shape : shape_inv document_id (mk_state [] [] 0 0).
Proof. by split. Qed.

Lemma finish_shape (st : loop_state) :
  shape_inv document_id st →
  ∀ i c, finish document_id st !! i = Some c →
    numbered document_id i c ∧ strip (text c) = text c ∧ text c ≠ [].
Proof.
  intros Hinv. pose proof Hinv as [Hstart Hidx Hchunks Hends]. unfold finish.
  destruct (decide (current_chunk st = [])) as [Hcur|Hcur].
  - rewrite Hcur. cbn. exact Hchunks.
  - rewrite (proj2 (truthy_nonempty _))
      by (by apply strip_buffer_nonempty, Hends).
    by apply saved_numbered.
Qed.

(** On a document that is split, every chunk is numbered by its position
    and its text is stripped and not empty. *)
Lemma chunk_document_shape (text : str) (i : nat) (c : chunk) :
  chunk_document chunk_size overlap text document_id !! i = Some c →
  numbered document_id i c
  ∧ (text ≠ [] → chunk_size ≤ length text →
     strip (document_chunker.text c) = document_chunker.text c
     ∧ document_chunker.text c ≠ []).
Proof.
  unfold chunk_document.
  destruct (negb (truthy text) || (length text <? chunk_size)) eqn:Hshort.
  - intros Hc. apply list_lookup_singleton_Some in Hc as [-> <-].
    split; [by repeat split|].
    intros Hne Hlong. apply orb_true_iff in Hshort as [Hshort|Hshort].
    + apply negb_true_iff, truthy_empty in Hshort. done.
    + apply Nat.ltb_lt in Hshort. lia.
  - intros Hc.
    destruct (finish_shape _ (run_loop_shape (re_split_paragraphs text) _
                                initial_shape) i c Hc) as (? & ? & ?).
    done.
Qed.

End shape_facts.

Section chunker_more.
Import document_chunker chunker_spec chunker_more_spec.

(** X4.  The chunk at position [i] has index [i] and identifier
    [<document_id>_chunk_<i>]; its start offset is 0, whatever its place in
    the document, and its end offset is at least the length of its text. *)
Theorem chunk_document_numbered (chunk_size overlap : nat)
    (text document_id : str) (i : nat) (c : chunk) :
  chunk_document chunk_size overlap text document_id !! i = Some c →
  numbered document_id i c.
Proof.
  intros Hc.
  by apply (chunk_document_shape chunk_size overlap) in Hc as [Hc _].
Qed.

(** X5.  In a document that is not empty and not shorter than [chunk_size]
    every chunk text is stripped and not empty. *)
Theorem chunk_document_split_texts (chunk_size overlap : nat)
    (text document_id : str) (c : chunk) :
  text ≠ [] → chunk_size ≤ length text →
  c ∈ chunk_document chunk_size overlap text document_id →
  strip (document_chunker.text c) = document_chunker.text c
  ∧ document_chunker.text c ≠ [].
Proof.
  intros Hne Hlong Hc. apply list_elem_of_lookup in Hc as [i Hc].
  apply (chunk_document_shape chunk_size overlap) in Hc as [_ Hc]. by apply Hc.
Qed.

Lemma lstrip_of_stripped (a : str) : strip a = a → lstrip a = a.
Proof. intros Ha. rewrite <-Ha. unfold strip. apply lstrip_idemp. Qed.

(** X6.  With overlap 0 the slice [current_chunk[-0:]] is the whole buffer:
    every chunk after the first begins with the whole text of the chunk
    before it. *)
Theorem chunk_document_overlap_zero (chunk_size : nat)
    (text document_id : str) :
  each_next (λ a b, begins_with b a)
    (map document_chunker.text
         (chunk_document chunk_size 0 text document_id)).
Proof.
  destruct (chunk_document_texts chunk_size 0 document_id text) as [Hnext _].
  intros i a b Ha Hb.
  destruct (decide (text ≠ [] ∧ chunk_size ≤ length text)) as [[Hne Hlong]|Hshort].
  - specialize (Hnext i a b Ha Hb). unfold carried_overlap in Hnext.
    rewrite overlap_text_of_spec in Hnext. cbn [decide] in Hnext.
    rewrite decide_True in Hnext by done.
    change (map document_chunker.text ?l) with (document_chunker.text <$> l) in Ha.
    apply list_lookup_fmap_Some in Ha as (c & -> & Hc).
    apply (chunk_document_shape chunk_size 0) in Hc as [_ Hc].
    destruct (Hc Hne Hlong) as [Hstrip _].
    by rewrite lstrip_of_stripped in Hnext.
  - exfalso. unfold chunk_document in Hb.
    assert (Hcond : negb (truthy text) || (length text <? chunk_size) = true).
    { apply orb_true_iff. destruct text as [|x text]; [by left|right].
      apply Nat.ltb_lt. apply not_and_l in Hshort as [Hshort|Hshort]; [by destruct Hshort|lia]. }
    rewrite Hcond in Hb. by destruct i.
Qed.

Lemma overlap_text_length (overlap : nat) (s : str) :
  0 < overlap → length (overlap_text_of overlap s) ≤ overlap.
Proof.
  intros Hov. rewrite overlap_text_of_spec, decide_False by lia.
  unfold suffix_of_length. rewrite length_drop. lia.
Qed.

Lemma loop_body_size (chunk_size overlap m bound : nat) (document_id : str)
    (st : loop_state) (para0 : str) :
  0 < overlap → chunk_size + 2 ≤ bound → overlap + 2 + m ≤ bound →
  length (strip para0) ≤ m → size_inv bound st →
  size_inv bound (loop_body chunk_size overlap document_id st para0).
Proof.
  intros Hov Hb1 Hb2 Hm [Hcur Hchunks]. unfold loop_body.
  destruct (truthy (strip para0)); cbn [negb]; [|done].
  destruct (truthy (current_chunk st)) eqn:Htr.
  - rewrite andb_true_r.
    destruct (chunk_size <? _ + _) eqn:Hfit.
    + split; cbn [current_chunk chunks].
      * pose proof (overlap_text_length overlap (current_chunk st) Hov).
        rewrite !length_app. change (length para_sep) with 2. lia.
      * intros c [Hc|Hc]%elem_of_app; [by apply Hchunks|].
        apply list_elem_of_singleton in Hc as ->. cbn.
        pose proof (strip_length (current_chunk st)). lia.
    + apply Nat.ltb_ge in Hfit. split; cbn [current_chunk chunks]; [|done].
      rewrite !length_app. change (length para_sep) with 2. lia.
  - rewrite andb_false_r. split; cbn [current_chunk chunks]; [lia|done].
Qed.

Lemma run_loop_size (chunk_size overlap m bound : nat) (document_id : str)
    (paragraphs : list str) (st : loop_state) :
  0 < overlap → chunk_size + 2 ≤ bound → overlap + 2 + m ≤ bound →
  Forall (λ p, length (strip p) ≤ m) paragraphs → size_inv bound st →
  size_inv bound (run_loop chunk_size overlap document_id st paragraphs).
Proof.
  intros Hov Hb1 Hb2 Hall. revert st.
  induction Hall as [|p ps Hp _ IH]; intros st Hinv; [done|].
  by apply IH, (loop_body_size chunk_size overlap m).
Qed.

Lemma finish_size (bound : nat) (document_id : str) (st : loop_state)
    (c : chunk) :
  size_inv bound st → c ∈ finish document_id st → length (text c) ≤ bound.
Proof.
  intros [Hcur Hchunks]. unfold finish.
  destruct (truthy (strip (current_chunk st))); [|by apply Hchunks].
  intros [Hc|Hc]%elem_of_app; [by apply Hchunks|].
  apply list_elem_of_singleton in Hc as ->. cbn.
  pose proof (strip_length (current_chunk st)). lia.
Qed.

(** X7.  With a positive overlap, when no paragraph has more than [m]
    characters once stripped, no chunk text is longer than the larger of
    [chunk_size + 2] and [overlap + 2 + m]. *)
Theorem chunk_document_text_length (chunk_size overlap m : nat)
    (text document_id : str) (c : chunk) :
  0 < overlap →
  Forall (λ p, length (strip p) ≤ m) (re_split_paragraphs text) →
  c ∈ chunk_document chunk_size overlap text document_id →
  length (document_chunker.text c)
  ≤ Nat.max (chunk_size + 2) (overlap + 2 + m).
Proof.
  intros Hov Hparas. unfold chunk_document.
  destruct (negb (truthy text) || (length text <? chunk_size)) eqn:Hshort.
  - intros Hc. apply list_elem_of_singleton in Hc as ->. cbn.
    apply orb_true_iff in Hshort as [Hshort|Hshort].
    + apply negb_true_iff, truthy_empty in Hshort. subst. cbn. lia.
    + apply Nat.ltb_lt in Hshort. lia.
  - intros Hc. eapply finish_size; [|exact Hc].
    apply (run_loop_size chunk_size overlap m); try done; try lia.
    split; [cbn; lia|]. intros x Hx. by apply elem_of_nil in Hx.
Qed.

Lemma re_split_all_space (s : str) (skip : nat) (cur : str) :
  all_space cur → all_space s →
  Forall all_space (re_split_from skip cur s).
Proof.
  intros Hcur Hs. revert skip cur Hcur.
  induction Hs as [|c s Hc Hs IH]; intros skip cur Hcur; cbn [re_split_from].
  - by constructor.
  - assert (Hsnoc : all_space (cur ++ [c])).
    { apply list.Forall_app. split; [done|by constructor]. }
    destruct skip as [|k]; [|by apply IH].
    destruct (is_nl c); [|by apply IH].
    destruct (match_ws_nl s); [|by apply IH].
    constructor; [done|]. apply IH. constructor.
Qed.

Lemma run_loop_blank (chunk_size overlap : nat) (document_id : str)
    (paragraphs : list str) (st : loop_state) :
  Forall all_space paragraphs →
  run_loop chunk_size overlap document_id st paragraphs = st.
Proof.
  induction 1 as [|p ps Hp _ IH]; [done|].
  cbn. unfold loop_body at 2. rewrite strip_all_space by done. exact IH.
Qed.

(** X8.  A document of whitespace only that is not shorter than
    [chunk_size] gives no chunk at all. *)
Theorem chunk_document_blank (chunk_size overlap : nat)
    (text document_id : str) :
  all_space text → text ≠ [] → chunk_size ≤ length text →
  chunk_document chunk_size overlap text document_id = [].
Proof.
  intros Hblank Hne Hlong. unfold chunk_document.
  rewrite (proj2 (truthy_nonempty text)) by done.
  replace (length text <? chunk_size) with false
    by (symmetry; by apply Nat.ltb_ge).
  cbn [negb orb]. rewrite run_loop_blank; [done|].
  apply re_split_all_space; [constructor|done].
Qed.

End chunker_more.

Section relevance_more.
Import document_chunker relevance_spec.

Lemma split_ws_from_length (s cur w : str) :
  w ∈ split_ws_from cur s → length w ≤ length cur + length s.
Proof.
  revert cur. induction s as [|c s IH]; intros cur; cbn [split_ws_from].
  - destruct cur; cbn [truthy].
    + by intros ?%elem_of_nil.
    + intros ->%list_elem_of_singleton. cbn. lia.
  - destruct (isspace c).
    + destruct cur as [|a cur]; cbn [truthy].
      * intros Hw. apply IH in Hw. cbn in *. lia.
      * intros [->|Hw]%elem_of_cons; [cbn; lia|].
        apply IH in Hw. cbn in *. lia.
    + intros Hw. apply IH in Hw. rewrite length_app in Hw. cbn in *. lia.
Qed.

(** X9.  When no keyword, once lower-cased, is longer than 3 characters no
    chunk is relevant, whatever the chunks hold. *)
Theorem find_relevant_chunks_short_keywords (chunks : list chunk)
    (event_keywords : list str) :
  (∀ kw, kw ∈ event_keywords → length (lower kw) ≤ 3) →
  find_relevant_chunks chunks event_keywords = [].
Proof.
  intros Hshort. unfold find_relevant_chunks. rewrite keep_loop_filter.
  cbn [app]. induction chunks as [|c chunks IH]; [done|].
  cbn [List.filter].
  destruct (any_keyword_in _ _) eqn:Hkeep; [|exact IH].
  apply keep_spec in Hkeep as (kw & k & Hkw & Hk & Hlen & _).
  specialize (Hshort kw Hkw). destruct Hk as [->|Hk].
  - lia.
  - apply split_ws_from_length in Hk. cbn [length] in Hk. lia.
Qed.

End relevance_more.

Section chunker_more_witnesses.
Import document_chunker.

(** The combination may exceed the limit: two texts of 5 characters with
    limit 10 give 17 characters. *)
Example combine_chunks_overshoot :
  combine_chunks
    [chunker_more_spec.sample_chunk 0 (lit "aaaaa");
     chunker_more_spec.sample_chunk 1 (lit "bbbbb")] 10
  = lit "aaaaa" ++ chunk_sep ++ lit "bbbbb".
Proof. reflexivity. Qed.

Lemma combine_chunks_stops_witness :
  combine_chunks
    ([chunker_more_spec.sample_chunk 0 (lit "aaaaa")]
     ++ chunker_more_spec.sample_chunk 1 (lit "bbbbbb")
     :: [chunker_more_spec.sample_chunk 2 (lit "c")]) 10
  = combine_chunks [chunker_more_spec.sample_chunk 0 (lit "aaaaa")] 10.
Proof.
  apply (combine_chunks_stops
           [chunker_more_spec.sample_chunk 0 (lit "aaaaa")]
           [chunker_more_spec.sample_chunk 2 (lit "c")]
           (chunker_more_spec.sample_chunk 1 (lit "bbbbbb")) 10).
  cbn. lia.
Defined.

Lemma combine_chunks_all_fit_witness :
  combine_chunks
    [chunker_more_spec.sample_chunk 0 (lit "aaaaa");
     chunker_more_spec.sample_chunk 1 (lit "bbbbb")] 17
  = chunker_more_spec.join chunk_sep [lit "aaaaa"; lit "bbbbb"].
Proof.
  apply (combine_chunks_all_fit
           [chunker_more_spec.sample_chunk 0 (lit "aaaaa");
            chunker_more_spec.sample_chunk 1 (lit "bbbbb")] 17).
  - repeat constructor; discriminate.
  - cbn. lia.
Defined.

Lemma chunk_document_numbered_witness :
  chunker_more_spec.numbered (lit "doc") 1
    (mk_chunk (lit "doc_chunk_1") (lit "bbb" ++ para_sep ++ lit "cccccccc")
              0 14 1).
Proof.
  apply (chunk_document_numbered 10 4 chunker_more_spec.small_document
           (lit "doc") 1).
  reflexivity.
Defined.

Lemma chunk_document_split_texts_witness :
  strip (lit "bbb" ++ para_sep ++ lit "cccccccc")
  = lit "bbb" ++ para_sep ++ lit "cccccccc"
  ∧ lit "bbb" ++ para_sep ++ lit "cccccccc" ≠ [].
Proof.
  apply (chunk_document_split_texts 10 4 chunker_more_spec.small_document
           (lit "doc")
           (mk_chunk (lit "doc_chunk_1")
                     (lit "bbb" ++ para_sep ++ lit "cccccccc") 0 14 1)).
  - discriminate.
  - cbn. lia.
  - vm_compute. repeat constructor.
Defined.

Lemma chunk_document_text_length_witness :
  length (lit "bbb" ++ para_sep ++ lit "cccccccc") ≤ 16.
Proof.
  apply (chunk_document_text_length 10 4 10
           chunker_more_spec.small_document (lit "doc")
           (mk_chunk (lit "doc_chunk_1")
                     (lit "bbb" ++ para_sep ++ lit "cccccccc") 0 14 1)).
  - lia.
  - vm_compute. repeat constructor.
  - vm_compute. repeat constructor.
Defined.

Lemma chunk_document_blank_witness :
  chunk_document 10 4 (replicate 12 " "%char) (lit "doc") = [].
Proof.
  apply (chunk_document_blank 10 4 (replicate 12 " "%char) (lit "doc")).
  - by apply Forall_replicate.
  - discriminate.
  - cbn. lia.
Defined.

Lemma find_relevant_chunks_short_keywords_witness :
  find_relevant_chunks [relevance_spec.war_chunk] relevance_spec.war_keywords
  = [].
Proof.
  apply (find_relevant_chunks_short_keywords [relevance_spec.war_chunk]
           relevance_spec.war_keywords).
  intros kw Hkw. apply list_elem_of_singleton in Hkw as ->. cbn. lia.
Defined.

End chunker_more_witnesses.

(** ** The extraction script: authors *)

Section author_facts.
Import pystr extraction_main extraction_more_spec.

Lemma split_on_from_head (d : ascii) s cur :
  d ∉ cur → d ∉ List.hd [] (split_on_from [d] 0 cur s).
Proof.
  revert cur. induction s as [|c s IH]; intros cur Hcur; cbn; [done|].
  destruct (bool_decide (d = c)) eqn:Hd; cbn.
  - destruct s; cbn; done.
  - apply IH. rewrite elem_of_app, list_elem_of_singleton.
    apply bool_decide_eq_false in Hd. intros [?|?]; [done|]. by apply Hd.
Qed.

Lemma lstrip_subseteq s : lstrip s ⊆ s.
Proof.
  induction s as [|c s IH]; cbn; [done|].
  destruct (isspace c); [|done]. by apply list_subseteq_cons.
Qed.

Lemma strip_subseteq s : strip s ⊆ s.
Proof.
  unfold strip, rstrip. intros x Hx.
  apply lstrip_subseteq, list_elem_of_In, in_rev, list_elem_of_In in Hx.
  by apply lstrip_subseteq, list_elem_of_In, in_rev, list_elem_of_In in Hx.
Qed.

Lemma unknown_author :
  strip (lit "Unknown Author") = lit "Unknown Author"
  ∧ "|"%char ∉ lit "Unknown Author".
Proof.
  split; [reflexivity|]. intros Hin. apply list_elem_of_In in Hin.
  cbn in Hin. intuition discriminate.
Qed.

(** X10.  Whatever the title, the author [extract_author_from_title]
    returns has no whitespace at either end and holds no ["|"]. *)
Theorem extract_author_from_title_clean title :
  strip (extract_author_from_title title) = extract_author_from_title title
  ∧ "|"%char ∉ extract_author_from_title title.
Proof.
  unfold extract_author_from_title.
  destruct (contains _ _); [|apply unknown_author].
  destruct (1 <? _); [|apply unknown_author].
  split; [apply strip_idemp|].
  intros Hin. apply strip_subseteq in Hin. revert Hin.
  apply (split_on_from_head "|"%char). apply not_elem_of_nil.
Qed.

Lemma split_on_from_absent sep s cur :
  contains s sep = false → split_on_from sep 0 cur s = [cur ++ s].
Proof.
  revert cur. induction s as [|c s IH]; intros cur Hc.
  - by rewrite app_nil_r.
  - cbn [contains] in Hc. apply orb_false_iff in Hc as [Hs Hc].
    cbn [split_on_from]. rewrite Hs, (IH _ Hc). by rewrite <-app_assoc.
Qed.

(** X11.  The test for ["by"] is made on the lower-cased title, the split
    on the title as it is: a title that does not hold ["by"] in lower case
    gives ["Unknown Author"], also when it holds ["By"] and passes the
    test. *)
Theorem extract_author_case_sensitive title :
  contains title (lit "by") = false →
  extract_author_from_title title = lit "Unknown Author".
Proof.
  intros Hc. unfold extract_author_from_title, split_on.
  rewrite (split_on_from_absent _ _ _ Hc). cbn [length].
  by destruct (contains (lower title) _).
Qed.

End author_facts.

(** ** The extraction script: what a run saves *)

Section main_facts.
Import pystr extraction_main extraction_more_spec.
Variable extract :
  str → str → str → str → str → str → list str → option (list json).

Lemma process_document_list min_len author_of ev st doc items :
  all_extractions (vars st) = JArr items →
  all_extractions (vars (process_document extract min_len author_of ev st doc))
  = JArr (items ++ returned_for extract min_len author_of ev doc).
Proof.
  intros Hl. unfold process_document, returned_for, long_enough.
  destruct (negb _ || _); cbn.
  - by rewrite app_nil_r.
  - destruct (extract _ _ _ _ _ _ _) as [extractions|]; cbn.
    + by rewrite Hl.
    + by rewrite app_nil_r.
Qed.

Lemma process_documents_list min_len author_of ev docs st items :
  all_extractions (vars st) = JArr items →
  all_extractions
    (vars (foldl (process_document extract min_len author_of ev) st docs))
  = JArr (items ++ (doc ← docs; returned_for extract min_len author_of ev doc)).
Proof.
  revert st items. induction docs as [|doc docs IH]; intros st items Hl; cbn.
  - by rewrite app_nil_r.
  - rewrite (IH _ _ (process_document_list _ _ _ _ doc _ Hl)).
    by rewrite <-app_assoc.
Qed.

Lemma process_events_list gutenberg_data loc_data events st items :
  all_extractions (vars st) = JArr items →
  all_extractions
    (vars (foldl (process_event extract gutenberg_data loc_data) st events))
  = JArr (items ++
      (ev ← events;
       (doc ← gutenberg_data;
        returned_for extract 100 extract_author_from_title ev doc)
       ++ (doc ← loc_data;
           returned_for extract 50 (λ _, lit "Abraham Lincoln") ev doc))).
Proof.
  revert st items. induction events as [|ev events IH]; intros st items Hl; cbn.
  - by rewrite app_nil_r.
  - unfold process_event at 2.
    rewrite (IH _ _ (process_documents_list _ _ _ loc_data _ _
                       (process_documents_list _ _ _ gutenberg_data _ _ Hl))).
    by rewrite <-!app_assoc.
Qed.

Lemma main_from_list output_file gutenberg_data loc_data items :
  all_extractions (load_existing output_file) = JArr items →
  written (main extract output_file gutenberg_data loc_data)
  = Some (JArr (items ++ all_returned extract gutenberg_data loc_data)).
Proof.
  intros Hl. unfold main. cbn [written]. f_equal.
  by apply process_events_list.
Qed.

Lemma resume_loop_dicts items processed :
  Forall (λ j, is_dict j = true) items →
  resume_loop processed items = (processed, true).
Proof.
  induction 1 as [|j items Hj _ IH]; cbn; [done|].
  destruct j; try discriminate. cbn. by destruct (_ && _).
Qed.

Lemma resume_loop_not_dict items processed :
  Exists (λ j, is_dict j = false) items →
  (resume_loop processed items).2 = false.
Proof.
  induction 1 as [j items Hj|j items _ IH]; cbn.
  - by destruct j.
  - destruct j; try done. cbn. by destruct (_ && _).
Qed.

(** X12.  Resuming appends: when the results file holds a list of
    dictionaries, the value the run saves last is that list followed by
    everything the extractor returned, in the order of the loops. *)
Theorem main_resume_appends gutenberg_data loc_data items :
  Forall (λ j, is_dict j = true) items →
  written (main extract (Holds (JArr items)) gutenberg_data loc_data)
  = Some (JArr (items ++ all_returned extract gutenberg_data loc_data)).
Proof.
  intros Hd. apply main_from_list. cbn.
  by rewrite (resume_loop_dicts _ _ Hd).
Qed.

(** X13.  When the list in the results file holds one item that is not a
    dictionary, the resume loop raises on it and the run starts from the
    empty list: the value saved last holds only what the extractor returned,
    and every item of the file is gone. *)
Theorem main_resume_discards gutenberg_data loc_data items :
  Exists (λ j, is_dict j = false) items →
  written (main extract (Holds (JArr items)) gutenberg_data loc_data)
  = Some (JArr (all_returned extract gutenberg_data loc_data)).
Proof.
  intros Hd. apply (main_from_list _ _ _ []). cbn.
  pose proof (resume_loop_not_dict items ∅ Hd) as Hr.
  destruct (resume_loop ∅ items) as [pp ok]. cbn in Hr. by subst ok.
Qed.

Lemma process_document_stuck min_len author_of ev st doc :
  (∀ items, all_extractions (vars st) ≠ JArr items) →
  vars (process_document extract min_len author_of ev st doc) = vars st.
Proof.
  intros Hn. unfold process_document.
  destruct (negb _ || _); cbn; [done|].
  destruct (extract _ _ _ _ _ _ _) as [extractions|]; cbn; [|done].
  destruct (all_extractions (vars st)) eqn:Ha; cbn; try done.
  by destruct (Hn items).
Qed.

Lemma process_documents_stuck min_len author_of ev docs st :
  (∀ items, all_extractions (vars st) ≠ JArr items) →
  vars (foldl (process_document extract min_len author_of ev) st docs)
  = vars st.
Proof.
  revert st. induction docs as [|doc docs IH]; intros st Hn; cbn; [done|].
  pose proof (process_document_stuck min_len author_of ev st doc Hn) as Hs.
  rewrite IH; [done|]. by rewrite Hs.
Qed.

Lemma process_events_stuck gutenberg_data loc_data events st :
  (∀ items, all_extractions (vars st) ≠ JArr items) →
  vars (foldl (process_event extract gutenberg_data loc_data) st events)
  = vars st.
Proof.
  revert st. induction events as [|ev events IH]; intros st Hn; cbn; [done|].
  assert (Hs : vars (process_event extract gutenberg_data loc_data st ev)
               = vars st).
  { unfold process_event. rewrite process_documents_stuck.
    - by apply process_documents_stuck.
    - by rewrite process_documents_stuck. }
  rewrite IH; [done|]. by rewrite Hs.
Qed.

(** X14.  When the results file holds an empty dictionary or an empty
    string, the resume loop has nothing to raise on and [all_extractions]
    stays that value; [extend] then raises for every document, which the
    loop swallows.  The extractor is still called for every unit of work,
    and the value saved last is the empty value the file held. *)
Theorem main_not_a_list gutenberg_data loc_data existing :
  existing = JObj [] ∨ existing = JStr [] →
  written (main extract (Holds existing) gutenberg_data loc_data)
  = Some existing
  ∧ handed (main extract (Holds existing) gutenberg_data loc_data)
    = all_units gutenberg_data loc_data.
Proof.
  intros He. unfold main. cbn [written handed]. split.
  - rewrite process_events_stuck; [by destruct He as [-> | ->]|].
    by destruct He as [-> | ->].
  - by destruct (process_events_effect extract gutenberg_data loc_data
                   KEY_EVENTS (mk_loop (load_existing (Holds existing)) None []))
      as [_ ->].
Qed.
End main_facts.

Section extraction_more_witnesses.
Import pystr extraction_main extraction_more_spec.

Lemma extract_author_case_sensitive_witness :
  contains (lower (lit "Life of Lincoln By Herndon")) (lit "by") = true
  ∧ extract_author_from_title (lit "Life of Lincoln By Herndon")
    = lit "Unknown Author".
Proof.
  split; [reflexivity|].
  apply extract_author_case_sensitive. reflexivity.
Defined.

Lemma main_resume_appends_witness :
  written (main one_each (Holds (JArr [JObj []])) [] [sample_document])
  = Some (JArr (JObj [] :: all_returned one_each [] [sample_document])).
Proof.
  apply (main_resume_appends one_each [] [sample_document] [JObj []]).
  repeat constructor.
Defined.

Lemma main_resume_discards_witness :
  written (main one_each (Holds (JArr [JObj []; JNull])) [] [sample_document])
  = Some (JArr (all_returned one_each [] [sample_document])).
Proof.
  apply (main_resume_discards one_each [] [sample_document] [JObj []; JNull]).
  apply Exists_cons_tl, Exists_cons_hd. reflexivity.
Defined.

Lemma main_not_a_list_witness :
  written (main one_each (Holds (JObj [])) [] [sample_document])
  = Some (JObj [])
  ∧ handed (main one_each (Holds (JObj [])) [] [sample_document])
    = all_units [] [sample_document].
Proof.
  apply (main_not_a_list one_each [] [sample_document] (JObj [])).
  by left.
Defined.

End extraction_more_witnesses.

(** ** The comparator: which pairs are made *)

Section comparator_more.
Import pystr comparator comparator_spec.
Variable title : str → str.

Lemma append_to_group_elem k x (grouped : list (str * list extraction)) k' es' :
  (k', es') ∈ append_to_group k x grouped →
  (k', es') ∈ grouped ∨ (k' = k ∧ ∃ es0, es' = es0 ++ [x]).
Proof.
  induction grouped as [|[k0 es0] grouped IH]; cbn.
  - intros [= -> ->]%list_elem_of_singleton. right. split; [done|]. by exists [].
  - destruct (decide (k0 = k)) as [->|Hne].
    + intros [Heq|Hin]%elem_of_cons.
      * injection Heq as -> ->. right. split; [done|]. by exists es0.
      * left. by right.
    + intros [Heq|Hin]%elem_of_cons.
      * left. rewrite Heq. by left.
      * destruct (IH Hin) as [?|?]; [left; by right|by right].
Qed.

Lemma group_by_event_entries (extractions : list extraction) k es :
  (k, es) ∈ group_by_event extractions → k ≠ [] ∧ es ≠ [].
Proof.
  revert k es.
  induction extractions as [|x extractions IH] using rev_ind; intros k es.
  - by intros ?%elem_of_nil.
  - unfold group_by_event in *. rewrite foldl_snoc.
    destruct (event x) as [k0|]; [|apply IH].
    destruct k0 as [|c k0]; cbn [truthy]; [apply IH|].
    intros [Hin|[-> [es0 ->]]]%append_to_group_elem; [by apply IH|].
    split; [done|]. by destruct es0.
Qed.

Lemma group_of_entry k es (grouped : list (str * list extraction)) :
  NoDup grouped.*1 → (k, es) ∈ grouped → group_of k grouped = es.
Proof.
  induction grouped as [|[k0 es0] grouped IH]; [by intros _ ?%elem_of_nil|].
  cbn. intros [Hnot Hnd]%list.NoDup_cons [Heq|Hin]%elem_of_cons.
  - injection Heq as -> ->. by rewrite decide_True.
  - rewrite decide_False; [by apply IH|].
    intros ->. apply Hnot. apply list_elem_of_fmap. by exists (k, es).
Qed.

Lemma group_of_present k (grouped : list (str * list extraction)) :
  group_of k grouped ≠ [] → (k, group_of k grouped) ∈ grouped.
Proof.
  induction grouped as [|[k0 es0] grouped IH]; [done|]. cbn.
  destruct (decide (k0 = k)) as [->|Hne]; intros Hg.
  - by left.
  - right. by apply IH.
Qed.

Lemma group_by_event_elem (extractions : list extraction) k es :
  (k, es) ∈ group_by_event extractions
  ↔ k ≠ [] ∧ es ≠ [] ∧ es = grouped_under k extractions.
Proof.
  destruct (group_by_event_spec extractions) as [Hnd Hgroup]. split.
  - intros Hin. destruct (group_by_event_entries _ _ _ Hin) as [Hk Hes].
    split_and!; [done..|].
    by rewrite <-(Hgroup k Hk), (group_of_entry _ _ _ Hnd Hin).
  - intros (Hk & Hes & ->). rewrite <-(Hgroup k Hk) in *.
    by apply group_of_present.
Qed.

Lemma pairs_of_event_elem (k : str) (es : list extraction) (p : pair) :
  p ∈ pairs_of_event title k es
  ↔ ∃ l o, l ∈ es ∧ o ∈ es
      ∧ is_lincoln l = true ∧ is_lincoln o = false
      ∧ has_claims l = true ∧ has_claims o = true
      ∧ p = mk_pair k (event_name_of title k) l o
              (get_default (source_document l) (lit "Unknown"))
              (get_default (source_document o) (lit "Unknown"))
              (get_default (author l) (lit "Abraham Lincoln"))
              (get_default (author o) (lit "Unknown")).
Proof.
  unfold pairs_of_event. rewrite separate_spec. split.
  - intros (l & Hp & Hl)%list_elem_of_bind.
    apply list_elem_of_bind in Hp as (o & Hp & Ho).
    apply list_elem_of_In, filter_In in Hl as [Hl Hll].
    apply list_elem_of_In, filter_In in Ho as [Ho Hoo].
    apply list_elem_of_In in Hl, Ho. apply negb_true_iff in Hoo.
    destruct (has_claims l) eqn:Hcl, (has_claims o) eqn:Hco; cbn in Hp;
      try by apply elem_of_nil in Hp.
    apply list_elem_of_singleton in Hp. by exists l, o.
  - intros (l & o & Hl & Ho & Hll & Hoo & Hcl & Hco & ->).
    apply list_elem_of_bind. exists l. split.
    + apply list_elem_of_bind. exists o. split.
      * rewrite Hcl, Hco. by left.
      * apply list_elem_of_In, filter_In. rewrite Hoo.
        by rewrite <-list_elem_of_In.
    + apply list_elem_of_In, filter_In. by rewrite <-list_elem_of_In.
Qed.

Lemma grouped_under_elem k (extractions : list extraction) x :
  x ∈ grouped_under k extractions ↔ x ∈ extractions ∧ event x = Some k.
Proof.
  unfold grouped_under. rewrite list_elem_of_In, filter_In, <-list_elem_of_In.
  by rewrite bool_decide_eq_true.
Qed.

Lemma is_lincoln_author (e : extraction) :
  is_lincoln e = true → ∃ a, author e = Some a.
Proof.
  unfold is_lincoln. destruct (author e) as [a|]; [by exists a|].
  discriminate.
Qed.

(** X15.  Every pair [create_comparison_pairs] returns is made of two of
    the given extractions that carry the pair's event, which is not empty;
    the first is Lincoln's and the second is not, both have claims.  The
    author of the first is always there, so the default ["Abraham Lincoln"]
    of [lincoln_author] is never used. *)
Theorem create_comparison_pairs_sound (extractions : list extraction) p :
  p ∈ create_comparison_pairs title extractions →
  event_id p ≠ []
  ∧ lincoln_extraction p ∈ extractions
  ∧ other_extraction p ∈ extractions
  ∧ event (lincoln_extraction p) = Some (event_id p)
  ∧ event (other_extraction p) = Some (event_id p)
  ∧ is_lincoln (lincoln_extraction p) = true
  ∧ is_lincoln (other_extraction p) = false
  ∧ has_claims (lincoln_extraction p) = true
  ∧ has_claims (other_extraction p) = true
  ∧ author (lincoln_extraction p) = Some (lincoln_author p).
Proof.
  unfold create_comparison_pairs.
  intros ([k es] & Hp & Hg)%list_elem_of_bind.
  apply group_by_event_elem in Hg as (Hk & _ & ->).
  apply pairs_of_event_elem in Hp
    as (l & o & Hl & Ho & Hll & Hoo & Hcl & Hco & ->). cbn.
  apply grouped_under_elem in Hl as [Hl Hel], Ho as [Ho Heo].
  split_and!; try done.
  by destruct (is_lincoln_author l Hll) as [a ->].
Qed.

(** X16.  Conversely, a Lincoln extraction and another one that carry the
    same non-empty event and both have claims are paired. *)
Theorem create_comparison_pairs_complete (extractions : list extraction)
    e_id l o :
  e_id ≠ [] →
  l ∈ extractions → o ∈ extractions →
  event l = Some e_id → event o = Some e_id →
  is_lincoln l = true → is_lincoln o = false →
  has_claims l = true → has_claims o = true →
  ∃ p, p ∈ create_comparison_pairs title extractions
       ∧ event_id p = e_id
       ∧ lincoln_extraction p = l ∧ other_extraction p = o.
Proof.
  intros He Hl Ho Hel Heo Hll Hoo Hcl Hco. eexists. split.
  - unfold create_comparison_pairs. apply list_elem_of_bind.
    exists (e_id, grouped_under e_id extractions). split.
    + apply pairs_of_event_elem. exists l, o.
      split_and!; try done; by apply grouped_under_elem.
    + apply group_by_event_elem. split_and!; [done| |done].
      intros Hnil. assert (Hin : l ∈ grouped_under e_id extractions)
        by by apply grouped_under_elem.
      rewrite Hnil in Hin. by apply elem_of_nil in Hin.
  - done.
Qed.

(** X17.  The literal [event_names] of the comparator gives every event of
    [KEY_EVENTS] the name the configuration gives it, so [str.title] is
    never called for a configured event. *)
Theorem event_names_agree ev :
  ev ∈ extraction_main.KEY_EVENTS →
  event_name_of title (extraction_main.ev_id ev) = extraction_main.ev_name ev.
Proof.
  intros Hev. apply list_elem_of_In in Hev. cbn in Hev.
  repeat (destruct Hev as [<-|Hev]; [reflexivity|]). done.
Qed.
End comparator_more.

(** ** The score statistics *)

Section variance_more.
Import pystr statistics judge_spec.
Variable statistics_stdev : list Z → Qc.

Lemma convert_int_value (q : Qc) : value_of (convert_int q) = q.
Proof.
  unfold convert_int. case_decide as Hd; [|done]. cbn.
  destruct q as [[n d] Hq]. cbn in *. subst d.
  apply Qc_is_canon. reflexivity.
Qed.

Lemma foldl_min_spec (l : list Z) (x : Z) :
  foldl Z.min x l ∈ x :: l ∧ ∀ y, y ∈ x :: l → (foldl Z.min x l ≤ y)%Z.
Proof.
  revert x. induction l as [|a l IH]; intros x; cbn.
  - split; [by left|]. intros y ->%list_elem_of_singleton. lia.
  - destruct (IH (Z.min x a)) as [Hin Hle]. split.
    + apply elem_of_cons in Hin as [->|Hin].
      * destruct (Z.min_spec x a) as [[_ ->]|[_ ->]]; [by left|].
        right. by left.
      * by do 2 right.
    + intros y Hy. apply elem_of_cons in Hy as [->|Hy].
      * specialize (Hle (Z.min x a) ltac:(by left)). lia.
      * apply elem_of_cons in Hy as [->|Hy].
        -- specialize (Hle (Z.min x a) ltac:(by left)). lia.
        -- apply Hle. by right.
Qed.

Lemma foldl_max_spec (l : list Z) (x : Z) :
  foldl Z.max x l ∈ x :: l ∧ ∀ y, y ∈ x :: l → (y ≤ foldl Z.max x l)%Z.
Proof.
  revert x. induction l as [|a l IH]; intros x; cbn.
  - split; [by left|]. intros y ->%list_elem_of_singleton. lia.
  - destruct (IH (Z.max x a)) as [Hin Hle]. split.
    + apply elem_of_cons in Hin as [->|Hin].
      * destruct (Z.max_spec x a) as [[_ ->]|[_ ->]]; [|by left].
        right. by left.
      * by do 2 right.
    + intros y Hy. apply elem_of_cons in Hy as [->|Hy].
      * specialize (Hle (Z.max x a) ltac:(by left)). lia.
      * apply elem_of_cons in Hy as [->|Hy].
        -- specialize (Hle (Z.max x a) ltac:(by left)). lia.
        -- apply Hle. by right.
Qed.

Lemma sum_Z_bounds (l : list Z) (lo hi : Z) :
  (∀ x, x ∈ l → (lo ≤ x ≤ hi)%Z) →
  (lo * Z.of_nat (length l) ≤ sum_Z l ≤ hi * Z.of_nat (length l))%Z.
Proof.
  induction l as [|a l IH]; intros Hb; cbn [sum_Z foldr length]; [lia|].
  specialize (Hb a ltac:(by left)) as Ha.
  assert (lo * Z.of_nat (length l) ≤ sum_Z l ≤ hi * Z.of_nat (length l))%Z
    as Hl by (apply IH; intros x Hx; apply Hb; by right).
  unfold sum_Z in Hl. lia.
Qed.

Lemma mean_Qc_bounds (l : list Z) (lo hi : Z) :
  l ≠ [] →
  (∀ x, x ∈ l → (lo ≤ x ≤ hi)%Z) →
  (Qc_of_Z lo ≤ mean_Qc l)%Qc ∧ (mean_Qc l ≤ Qc_of_Z hi)%Qc.
Proof.
  intros Hne Hb. destruct (sum_Z_bounds l lo hi Hb) as [Hlo Hhi].
  assert (Hpos : (0 < of_nat (length l))%Qc).
  { unfold of_nat. rewrite <-Z2Qc_inj_0. apply (proj1 (Z2Qc_inj_lt 0 _)).
    destruct l; [done|]. cbn [length]. lia. }
  assert (Hnz : of_nat (length l) ≠ 0%Qc).
  { intros Hz. rewrite Hz in Hpos. by apply Qclt_not_eq in Hpos. }
  assert (Hmul : (mean_Qc l * of_nat (length l))%Qc = Qc_of_Z (sum_Z l)).
  { unfold mean_Qc, Qcdiv. rewrite <-Qcmult_assoc, Qcmult_inv_l by done.
    apply Qcmult_1_r. }
  split.
  - apply (Qcmult_le_mono_pos_r _ _ (of_nat (length l)) Hpos).
    rewrite Hmul. unfold of_nat. rewrite <-Z2Qc_inj_mul.
    by apply (proj1 (Z2Qc_inj_le _ _)).
  - apply (Qcmult_le_mono_pos_r _ _ (of_nat (length l)) Hpos).
    rewrite Hmul. unfold of_nat. rewrite <-Z2Qc_inj_mul.
    by apply (proj1 (Z2Qc_inj_le _ _)).
Qed.

(** X18.  On a non-empty list of scores that a float holds exactly,
    [calculate_variance] counts every score, [min] and [max] are scores of
    the list that bound all the others, and the mean lies between them:
    the exact mean, and with it the float the library rounds it to,
    whatever the rounding, as long as it is monotone and leaves alone the
    integers a float holds exactly. *)
Theorem calculate_variance_bounds (round : Qc → Qc) (scores : list Z) :
  (∀ p q : Qc, (p ≤ q)%Qc → (round p ≤ round q)%Qc) →
  (∀ z : Z, float_exact z → round (Qc_of_Z z) = Qc_of_Z z) →
  scores ≠ [] →
  Forall float_exact scores →
  let r := calculate_variance statistics_stdev scores in
  count r = length scores
  ∧ ∃ lo hi : Z,
      min r = PyInt lo ∧ max r = PyInt hi
      ∧ lo ∈ scores ∧ hi ∈ scores
      ∧ (∀ x, x ∈ scores → (lo ≤ x ≤ hi)%Z)
      ∧ (Qc_of_Z lo ≤ value_of (mean r))%Qc
      ∧ (value_of (mean r) ≤ Qc_of_Z hi)%Qc
      ∧ (Qc_of_Z lo ≤ round (value_of (mean r)))%Qc
      ∧ (round (value_of (mean r)) ≤ Qc_of_Z hi)%Qc.
Proof.
  intros Hmono Hfix Hne Hexact.
  destruct scores as [|x l]; [done|]. cbn zeta.
  split; [done|]. exists (py_min (x :: l)), (py_max (x :: l)).
  destruct (foldl_min_spec l x) as [Hmin Hle].
  destruct (foldl_max_spec l x) as [Hmax Hge].
  assert (Hb : ∀ y, y ∈ x :: l →
                 (py_min (x :: l) ≤ y ≤ py_max (x :: l))%Z).
  { intros y Hy. split; [by apply Hle|by apply Hge]. }
  assert (Hmean : (Qc_of_Z (py_min (x :: l))
                   ≤ value_of (statistics_mean (x :: l)))%Qc
                  ∧ (value_of (statistics_mean (x :: l))
                     ≤ Qc_of_Z (py_max (x :: l)))%Qc).
  { unfold statistics_mean. rewrite convert_int_value.
    by apply mean_Qc_bounds. }
  destruct Hmean as [Hlo Hhi].
  rewrite list.Forall_forall in Hexact.
  split_and!; try done.
  - rewrite <-(Hfix (py_min (x :: l))) by (apply Hexact, Hmin).
    by apply Hmono.
  - rewrite <-(Hfix (py_max (x :: l))) by (apply Hexact, Hmax).
    by apply Hmono.
Qed.
End variance_more.

(** ** The distribution of contradiction types and the metrics *)

Section distribution_facts.
Import pystr statistics judge_statistics judge_spec.
Variable statistics_stdev : list Z → Qc.
Variable repr : value → str.

Lemma counter_add_total k v counts :
  total (counter_add k v counts) = S (total counts).
Proof.
  unfold total. induction counts as [|[v' n] counts IH]; cbn; [done|].
  case_decide; cbn; [done|]. rewrite IH. lia.
Qed.

Lemma counter_add_positive k v counts :
  Forall (λ vn : value * nat, 0 < vn.2) counts →
  Forall (λ vn : value * nat, 0 < vn.2) (counter_add k v counts).
Proof.
  induction 1 as [|[v' n] counts Hn Hrest IH]; cbn.
  - repeat constructor.
  - case_decide; constructor; cbn in *; try lia; done.
Qed.

Lemma counter_add_keys k v counts :
  key_of v = Some k →
  map (λ vn : value * nat, key_of vn.1) (counter_add k v counts)
  = if decide (Some k ∈ map (λ vn : value * nat, key_of vn.1) counts)
    then map (λ vn : value * nat, key_of vn.1) counts
    else map (λ vn : value * nat, key_of vn.1) counts ++ [Some k].
Proof.
  intros Hk. induction counts as [|[v' n] counts IH]; cbn.
  - rewrite decide_False; [by rewrite Hk|]. apply not_elem_of_nil.
  - destruct (decide (key_of v' = Some k)) as [Heq|Hne]; cbn.
    + rewrite decide_True; [done|]. rewrite Heq. by left.
    + rewrite IH. destruct (decide (Some k ∈ _)) as [Hin|Hin].
      * rewrite decide_True; [done|]. by right.
      * rewrite decide_False; [done|].
        intros [?|?]%elem_of_cons; congruence.
Qed.

Lemma counter_add_NoDup k v counts :
  key_of v = Some k →
  NoDup (map (λ vn : value * nat, key_of vn.1) counts) →
  NoDup (map (λ vn : value * nat, key_of vn.1) (counter_add k v counts)).
Proof.
  intros Hk Hnd. rewrite (counter_add_keys _ _ _ Hk).
  case_decide as Hin; [done|].
  apply list.NoDup_app. split_and!; [done| |apply NoDup_singleton].
  intros y Hy ->%list_elem_of_singleton. done.
Qed.

Lemma Counter_from_spec items counts dist :
  Counter_from counts items = Some dist →
  NoDup (map (λ vn : value * nat, key_of vn.1) counts) →
  Forall (λ vn : value * nat, 0 < vn.2) counts →
  total dist = total counts + length items
  ∧ NoDup (map (λ vn : value * nat, key_of vn.1) dist)
  ∧ Forall (λ vn : value * nat, 0 < vn.2) dist.
Proof.
  revert counts. induction items as [|v items IH]; intros counts; cbn.
  - intros [= ->] Hnd Hpos. split_and!; [lia|done..].
  - destruct (key_of v) as [k|] eqn:Hk; [|done]. intros Hc Hnd Hpos.
    destruct (IH _ Hc (counter_add_NoDup _ _ _ Hk Hnd)
                (counter_add_positive k v _ Hpos)) as (Ht & Hnd' & Hpos').
    split_and!; [|done..]. rewrite Ht, counter_add_total. lia.
Qed.

Lemma Counter_from_raises items counts :
  Counter_from counts items = None
  ↔ Exists (λ v, key_of v = None) items.
Proof.
  revert counts. induction items as [|v items IH]; intros counts; cbn.
  - split; [done|]. by intros ?%Exists_nil.
  - rewrite Exists_cons. destruct (key_of v) as [k|] eqn:Hk.
    + rewrite IH. split; [by right|]. by intros [?|?].
    + split; [by left|done].
Qed.


(** X20.  [analyze_contradiction_distribution] raises exactly when some
    result is a dictionary whose [contradiction_type] is a dictionary with
    a list or a dictionary as its [type]. *)
Theorem contradiction_distribution_raises results :
  analyze_contradiction_distribution repr results = None
  ↔ ∃ fields ct,
      VDict fields ∈ results
      ∧ dict_get fields (lit "contradiction_type") (VDict []) = VDict ct
      ∧ key_of (dict_get ct (lit "type") (VStr (lit "Unknown"))) = None.
Proof.
  unfold analyze_contradiction_distribution.
  rewrite Counter_from_raises, list.Exists_exists. split.
  - intros (v & Hv & Hk). apply list_elem_of_In, in_map_iff in Hv
      as (r & <- & Hr). apply list_elem_of_In in Hr.
    destruct r as [| | | | |items|fields]; try done.
    exists fields. unfold contradiction_type_of in Hk.
    destruct (dict_get fields _ _) as [| | | | |items|ct] eqn:Hct; try done.
    by exists ct.
  - intros (fields & ct & Hin & Hct & Hk).
    exists (contradiction_type_of repr (VDict fields)). split.
    + apply list_elem_of_In, in_map_iff. exists (VDict fields).
      by rewrite <-list_elem_of_In.
    + unfold contradiction_type_of. by rewrite Hct.
Qed.



Lemma calculate_variance_count scores :
  count (calculate_variance statistics_stdev scores) = length scores.
Proof. by destruct scores. Qed.

End distribution_facts.

(** ** The judge's run: order of the comparisons *)

Section judge_facts.
Import pystr comparator comparator_spec statistics judge_statistics
  judge_main judge_spec.
Variable compare_accounts :
  nat → str → extraction → extraction → option JudgeResult.
Variable title : str → str.
Variable statistics_stdev : list Z → Qc.
Variable repr : value → str.

Lemma add_pair_fresh k p (g : list (str * list pair)) :
  k ∉ g.*1 → add_pair k p g = g ++ [(k, [p])].
Proof.
  induction g as [|[k' ps] g IH]; cbn; [done|].
  intros Hnot. rewrite decide_False.
  - rewrite IH; [done|]. intros Hin. apply Hnot. by right.
  - intros ->. apply Hnot. by left.
Qed.

Lemma add_pair_last k p ps (g : list (str * list pair)) :
  k ∉ g.*1 → add_pair k p (g ++ [(k, ps)]) = g ++ [(k, ps ++ [p])].
Proof.
  induction g as [|[k' ps'] g IH]; cbn.
  - intros _. by rewrite decide_True.
  - intros Hnot. rewrite decide_False.
    + rewrite IH; [done|]. intros Hin. apply Hnot. by right.
    + intros ->. apply Hnot. by left.
Qed.

Lemma group_block k (ps qs : list pair) (g : list (str * list pair)) :
  k ∉ g.*1 →
  Forall (λ p, event_id p = k) qs →
  foldl (λ pairs_by_event p, add_pair (event_id p) p pairs_by_event)
        (g ++ [(k, ps)]) qs
  = g ++ [(k, ps ++ qs)].
Proof.
  intros Hnot. revert ps. induction qs as [|q qs IH]; intros ps Hall; cbn.
  - by rewrite app_nil_r.
  - apply list.Forall_cons in Hall as [-> Hall].
    rewrite add_pair_last by done. rewrite IH by done.
    by rewrite <-app_assoc.
Qed.

Lemma group_blocks (blocks : list (str * list pair)) :
  NoDup blocks.*1 →
  Forall (λ b : str * list pair, Forall (λ p, event_id p = b.1) b.2) blocks →
  group_pairs (blocks ≫= snd)
  = filter (λ b : str * list pair, b.2 ≠ []) blocks.
Proof.
  induction blocks as [|[k ps] blocks IH] using rev_ind; [done|].
  rewrite fmap_app, list.NoDup_app. intros (Hnd & Hnot & _) Hall.
  rewrite list.Forall_app, Forall_singleton in Hall.
  destruct Hall as [Hall Hps]. cbn [fst snd] in Hps.
  rewrite bind_app, list.filter_app. unfold group_pairs in *.
  rewrite foldl_app, IH by done.
  rewrite bind_cons. change (@nil (str * list pair) ≫= snd) with (@nil pair).
  rewrite app_nil_r. cbn [snd].
  assert (Hfresh : k ∉ (filter (λ b : str * list pair, b.2 ≠ []) blocks).*1).
  { intros (b & -> & Hb)%list_elem_of_fmap.
    apply list_elem_of_filter in Hb as [_ Hb].
    apply (Hnot b.1); [|by left]. apply list_elem_of_fmap. by exists b. }
  destruct ps as [|p ps].
  - rewrite filter_cons_False by (cbn; by intros []).
    by rewrite filter_nil, app_nil_r.
  - rewrite filter_cons_True by done. rewrite filter_nil. cbn [foldl].
    apply list.Forall_cons in Hps as [Hp Hps]. rewrite Hp.
    rewrite add_pair_fresh by done. by rewrite (group_block k [p] ps).
Qed.

Lemma bind_nonempty_blocks (blocks : list (str * list pair)) :
  filter (λ b : str * list pair, b.2 ≠ []) blocks ≫= snd = blocks ≫= snd.
Proof.
  induction blocks as [|[k ps] blocks IH]; [done|].
  destruct ps as [|p ps].
  - rewrite filter_cons_False by (cbn; by intros []). by rewrite bind_cons.
  - rewrite filter_cons_True by done. by rewrite !bind_cons, IH.
Qed.

Lemma run_comparisons_flat (g : list (str * list pair)) st :
  foldl (λ st '(event_id, event_pairs),
           foldl (judge_pair compare_accounts) st event_pairs) st g
  = foldl (judge_pair compare_accounts) st (g ≫= snd).
Proof.
  revert st. induction g as [|[k ps] g IH]; intros st; [done|].
  cbn [foldl]. by rewrite bind_cons, foldl_app, IH.
Qed.

Lemma create_comparison_pairs_blocks (extractions : list extraction) :
  ∃ blocks : list (str * list pair),
    NoDup blocks.*1
    ∧ Forall (λ b : str * list pair, Forall (λ p, event_id p = b.1) b.2)
             blocks
    ∧ create_comparison_pairs title extractions = blocks ≫= snd.
Proof.
  exists ((λ '(k, es), (k, pairs_of_event title k es))
            <$> group_by_event extractions).
  destruct (group_by_event_spec extractions) as [Hnd _]. split_and!.
  - replace (((λ '(k, es), (k, pairs_of_event title k es))
                <$> group_by_event extractions).*1)
      with (group_by_event extractions).*1; [done|].
    clear Hnd.
    induction (group_by_event extractions) as [|[k es] g IH]; [done|].
    rewrite !fmap_cons. cbn [fst]. by f_equal.
  - apply list.Forall_fmap, list.Forall_forall. intros [k es] _. cbn.
    apply list.Forall_forall. intros p Hp. by eapply pairs_of_event_id.
  - unfold create_comparison_pairs. clear Hnd.
    induction (group_by_event extractions) as [|[k es] g IH]; [done|].
    rewrite fmap_cons, !bind_cons. by rewrite IH.
Qed.

Lemma group_pairs_flat (extractions : list extraction) :
  group_pairs (create_comparison_pairs title extractions) ≫= snd
  = create_comparison_pairs title extractions.
Proof.
  destruct (create_comparison_pairs_blocks extractions)
    as (blocks & Hnd & Hall & ->).
  rewrite group_blocks by done. apply bind_nonempty_blocks.
Qed.

Lemma run_comparisons_pairs (extractions : list extraction) :
  run_comparisons compare_accounts
    (group_pairs (create_comparison_pairs title extractions))
  = foldl (judge_pair compare_accounts) (mk_judge_state [] 0 0)
          (create_comparison_pairs title extractions).
Proof.
  unfold run_comparisons. by rewrite run_comparisons_flat, group_pairs_flat.
Qed.

(** X22.  Regrouping the comparator's pairs by event loses and reorders
    nothing: the groups, one after the other, are the list of pairs, and
    the comparison loop is one pass over that list. *)
Theorem run_comparisons_in_order (extractions : list extraction) :
  mjoin (group_pairs (create_comparison_pairs title extractions)).*2
  = create_comparison_pairs title extractions
  ∧ run_comparisons compare_accounts
      (group_pairs (create_comparison_pairs title extractions))
    = foldl (judge_pair compare_accounts) (mk_judge_state [] 0 0)
            (create_comparison_pairs title extractions).
Proof.
  split; [|apply run_comparisons_pairs].
  rewrite <-(group_pairs_flat extractions) at 2.
  generalize (group_pairs (create_comparison_pairs title extractions)).
  intros g. induction g as [|[k ps] g IH]; [done|].
  rewrite fmap_cons, bind_cons.
  change (mjoin ((k, ps).2 :: g.*2)) with (ps ++ mjoin g.*2).
  by rewrite IH.
Qed.
End judge_facts.

(** ** The judge's run: results and metrics *)

Section judge_metrics.
Import pystr comparator comparator_spec statistics judge_statistics
  judge_main judge_spec.
Variable compare_accounts :
  nat → str → extraction → extraction → option JudgeResult.
Variable title : str → str.
Variable statistics_stdev : list Z → Qc.
Variable repr : value → str.

Lemma judge_pairs_counts (pairs : list pair) st :
  let st' := foldl (judge_pair compare_accounts) st pairs in
  length (all_results st') + failed_count st'
  = length (all_results st) + failed_count st + length pairs
  ∧ calls st' = calls st + length pairs.
Proof.
  revert st. induction pairs as [|p pairs IH]; intros st; cbn zeta.
  - cbn. lia.
  - cbn [foldl]. destruct (IH (judge_pair compare_accounts st p)) as [-> ->].
    unfold judge_pair. destruct (compare_accounts _ _ _ _); cbn;
      rewrite ?length_app; cbn; lia.
Qed.

Lemma judge_pairs_judged (pairs : list pair) st :
  Forall (judged compare_accounts) (all_results st) →
  Forall (judged compare_accounts)
         (all_results (foldl (judge_pair compare_accounts) st pairs)).
Proof.
  revert st. induction pairs as [|p pairs IH]; intros st Hst; [done|].
  cbn [foldl]. apply IH. unfold judge_pair.
  destruct (compare_accounts _ _ _ _) as [r|] eqn:Hr; cbn; [|done].
  apply list.Forall_app. split; [done|]. apply Forall_singleton.
  by exists (calls st), p, r.
Qed.

Lemma collect_scores_judged (results : list value) scores :
  Forall (judged compare_accounts) results →
  ∃ new, foldl collect_score scores results = scores ++ new
         ∧ length new = length results
         ∧ Forall (λ z, ∃ n name l o r,
                     compare_accounts n name l o = Some r
                     ∧ z = consistency_score r) new.
Proof.
  intros Hall. revert scores.
  induction Hall as [|v results (n & p & r & Hr & ->) _ IH]; intros scores.
  - exists []. by rewrite app_nil_r.
  - cbn [foldl]. change (collect_score scores (result_dict p r))
      with (scores ++ [consistency_score r]).
    destruct (IH (scores ++ [consistency_score r])) as (new & -> & Hlen & Hn).
    exists (consistency_score r :: new). rewrite <-app_assoc.
    split_and!; [done|cbn; by rewrite Hlen|].
    constructor; [|done]. by eexists _, _, _, _, _.
Qed.

Lemma counter_add_names k v counts :
  (∃ c, v = VStr (contradiction_name c)) →
  Forall (λ vn : value * nat, ∃ c, vn.1 = VStr (contradiction_name c)) counts →
  Forall (λ vn : value * nat, ∃ c, vn.1 = VStr (contradiction_name c))
         (counter_add k v counts).
Proof.
  intros Hv. induction 1 as [|[v' n] counts Hn Hrest IH]; cbn.
  - by repeat constructor.
  - case_decide; constructor; done.
Qed.

Lemma Counter_from_judged (results : list value) counts :
  Forall (judged compare_accounts) results →
  Forall (λ vn : value * nat, ∃ c, vn.1 = VStr (contradiction_name c)) counts →
  ∃ dist,
    Counter_from counts (map (contradiction_type_of repr) results) = Some dist
    ∧ Forall (λ vn : value * nat, ∃ c, vn.1 = VStr (contradiction_name c))
             dist.
Proof.
  intros Hall. revert counts.
  induction Hall as [|v results (n & p & r & Hr & ->) _ IH]; intros counts Hc.
  - by exists counts.
  - cbn [map]. change (contradiction_type_of repr (result_dict p r))
      with (VStr (contradiction_name (type (contradiction_type r)))).
    cbn [Counter_from key_of]. apply IH.
    apply counter_add_names; [by eexists|done].
Qed.

(** X23.  A run that reaches the metrics calls the judge once for every
    pair, and every pair is either among the results or counted as
    failed. *)
Theorem main_accounts_for_every_pair client extractions st m :
  main compare_accounts title statistics_stdev repr client extractions
    = Some (st, m) →
  length (all_results st) + failed_count st
  = length (create_comparison_pairs title extractions)
  ∧ calls st = length (create_comparison_pairs title extractions).
Proof.
  unfold main.
  destruct (create_comparison_pairs title extractions) as [|p ps] eqn:Hp;
    [done|].
  destruct client; [|done]. cbn [negb]. intros [= <- _]. rewrite <-Hp.
  rewrite run_comparisons_pairs.
  destruct (judge_pairs_counts (create_comparison_pairs title extractions)
              (mk_judge_state [] 0 0)) as [-> ->]. done.
Qed.

(** X24.  On the results [main] builds, computing the metrics never
    raises; every result has a score, so the statistics, the distribution
    and [total_comparisons] all count the same results; the keys of the
    distribution are among the four contradiction types; and when the
    judge keeps its scores within 0..100, so are the minimum, the maximum
    and the average. *)
Theorem main_metrics client extractions st om :
  (∀ n name l o r,
     compare_accounts n name l o = Some r →
     (0 ≤ consistency_score r ≤ 100)%Z) →
  main compare_accounts title statistics_stdev repr client extractions
    = Some (st, om) →
  ∃ m, om = Some m
    ∧ total_comparisons m = length (all_results st)
    ∧ count (score_statistics m) = length (all_results st)
    ∧ total (contradiction_distribution m) = length (all_results st)
    ∧ Forall (λ vn : value * nat, ∃ c, vn.1 = VStr (contradiction_name c))
             (contradiction_distribution m)
    ∧ (all_results st ≠ [] →
       ∃ lo hi : Z,
         min (score_statistics m) = PyInt lo
         ∧ max (score_statistics m) = PyInt hi
         ∧ (0 ≤ lo ≤ hi)%Z ∧ (hi ≤ 100)%Z
         ∧ (Qc_of_Z 0 ≤ value_of (average_consistency m))%Qc
         ∧ (value_of (average_consistency m) ≤ Qc_of_Z 100)%Qc).
Proof.
  intros Hrange. unfold main.
  destruct (create_comparison_pairs title extractions) as [|p ps] eqn:Hp;
    [done|].
  destruct client; [|done]. cbn [negb]. intros [= <- <-]. rewrite <-Hp.
  rewrite run_comparisons_pairs.
  set (st := foldl (judge_pair compare_accounts) (mk_judge_state [] 0 0)
               (create_comparison_pairs title extractions)).
  assert (Hj : Forall (judged compare_accounts) (all_results st))
    by (apply judge_pairs_judged; constructor).
  destruct (collect_scores_judged (all_results st) [] Hj)
    as (scores & Hs & Hlen & Hscores).
  destruct (Counter_from_judged (all_results st) [] Hj) as (dist & Hd & Hnames);
    [constructor|].
  unfold calculate_consistency_metrics, analyze_contradiction_distribution.
  rewrite Hd, Hs. cbn [mbind option_bind app]. eexists. split; [done|].
  cbn [total_comparisons score_statistics contradiction_distribution
       average_consistency].
  destruct (Counter_from_spec _ _ _ Hd) as (Ht & _); [constructor..|].
  rewrite length_map in Ht.
  split_and!; [done|by rewrite calculate_variance_count|done|done|].
  intros Hne. destruct scores as [|x l].
  { destruct (all_results st); [done|discriminate]. }
  exists (py_min (x :: l)), (py_max (x :: l)).
  destruct (foldl_min_spec l x) as [Hmin Hle].
  destruct (foldl_max_spec l x) as [Hmax Hge].
  assert (Hb : ∀ y, y ∈ x :: l → (0 ≤ y ≤ 100)%Z).
  { intros y Hy. rewrite list.Forall_forall in Hscores.
    destruct (Hscores y Hy) as (n & name & lo & o & r & Hr & ->).
    by eapply Hrange. }
  split_and!; try done.
  - apply (Hb _ Hmin).
  - apply Hle. apply Hmax.
  - apply (Hb _ Hmax).
  - cbn [calculate_variance mean]. unfold statistics_mean.
    rewrite convert_int_value.
    exact (proj1 (mean_Qc_bounds (x :: l) 0 100 ltac:(done) Hb)).
  - cbn [calculate_variance mean]. unfold statistics_mean.
    rewrite convert_int_value.
    exact (proj2 (mean_Qc_bounds (x :: l) 0 100 ltac:(done) Hb)).
Qed.
End judge_metrics.

Section judge_witnesses.
Import pystr comparator comparator_spec statistics judge_statistics
  judge_main judge_spec judge_samples.

Lemma create_comparison_pairs_sound_witness :
  sample_pair ∈ create_comparison_pairs id sample_extractions
  ∧ author (lincoln_extraction sample_pair)
    = Some (lincoln_author sample_pair).
Proof.
  assert (Hin : sample_pair ∈ create_comparison_pairs id sample_extractions)
    by (vm_compute; left).
  split; [exact Hin|].
  apply (create_comparison_pairs_sound id sample_extractions sample_pair Hin).
Defined.

Lemma create_comparison_pairs_complete_witness :
  ∃ p, p ∈ create_comparison_pairs id sample_extractions
       ∧ event_id p = lit "fort_sumter"
       ∧ lincoln_extraction p = lincoln_with_claim
       ∧ other_extraction p = other_with_claim.
Proof.
  apply (create_comparison_pairs_complete id sample_extractions
           (lit "fort_sumter") lincoln_with_claim other_with_claim);
    try reflexivity; try done.
  - vm_compute. left.
  - vm_compute. right. left.
Defined.

Lemma event_names_agree_witness :
  event_name_of id (lit "fort_sumter") = lit "Fort Sumter Decision".
Proof.
  apply (event_names_agree id
           (extraction_main.mk_key_event (lit "fort_sumter")
              (lit "Fort Sumter Decision")
              (map lit ["Fort Sumter"; "Sumter"; "Charleston"; "April 1861";
                        "resupply"; "firing"; "bombardment";
                        "surrender"]%string))).
  vm_compute. right. left.
Defined.

Lemma calculate_variance_bounds_witness :
  Forall float_exact [70; 40; 90]%Z
  ∧ count (calculate_variance (λ _, 0%Qc) [70; 40; 90]%Z) = 3.
Proof.
  assert (Hexact : Forall float_exact [70; 40; 90]%Z)
    by (repeat constructor; unfold float_exact; lia).
  split; [exact Hexact|].
  apply (calculate_variance_bounds (λ _, 0%Qc) (λ q, q) [70; 40; 90]%Z);
    [done|done|done|exact Hexact].
Defined.



Lemma main_accounts_for_every_pair_witness :
  main sample_judge id (λ _, 0%Qc) (λ _, []) true sample_extractions
  = Some (sample_run, sample_metrics)
  ∧ length (all_results sample_run) + failed_count sample_run = 1.
Proof.
  split; [reflexivity|].
  apply (main_accounts_for_every_pair sample_judge id (λ _, 0%Qc) (λ _, [])
           true sample_extractions sample_run sample_metrics).
  reflexivity.
Defined.

Lemma main_metrics_witness :
  main sample_judge id (λ _, 0%Qc) (λ _, []) true sample_extractions
  = Some (sample_run, sample_metrics)
  ∧ ∃ m, sample_metrics = Some m
         ∧ total_comparisons m = length (all_results sample_run).
Proof.
  split; [reflexivity|].
  destruct (main_metrics sample_judge id (λ _, 0%Qc) (λ _, [])
              true sample_extractions sample_run sample_metrics)
    as (m & Hm & Ht & _); [|reflexivity|by exists m].
  intros [|n] name l o r; [|discriminate]. intros [= <-]. cbn. lia.
Defined.

End judge_witnesses.

(** ** The extractor: retries and results *)

Section extractor_facts.
Import pystr document_chunker llm_extractor.
Variable client : bool.
Variable build_extraction_prompt : str → str → str → str → str → option str.
Variable create : nat → str → response.

Lemma attempt_loop_spec prompt event_id document_title author
    (first n calls : nat) result calls' :
  first + n = max_retries →
  attempt_loop create prompt event_id document_title author
    (seq first n) calls = (result, calls') →
  calls ≤ calls' ≤ calls + n
  ∧ (∀ j, calls ≤ j → S j < calls' →
       ∃ s, create j prompt = Error s ∧ is_rate_limit s = true)
  ∧ match result with
    | Some d =>
        ∃ e, calls < calls'
           ∧ create (calls' - 1) prompt = Answer e
           ∧ d = mk_extraction_dict
                   (mk_event_extraction event_id author (claims e)
                      (temporal_details e) (tone e))
                   document_title
    | None =>
        n = 0
        ∨ ∃ s, calls < calls'
             ∧ create (calls' - 1) prompt = Error s
             ∧ (is_rate_limit s = false ∨ calls' = calls + n)
    end.
Proof.
  revert first calls. induction n as [|n IH]; intros first calls Hn;
    cbn [seq attempt_loop].
  - intros [= <- <-]. split_and!; [lia..| |by left]. intros j ??; lia.
  - destruct (create calls prompt) as [e|s] eqn:Hc.
    + intros [= <- <-]. split_and!; [lia..| |].
      * intros j ??; lia.
      * exists e. split_and!; [lia| |done].
        by replace (S calls - 1) with calls by lia.
    + destruct (is_rate_limit s) eqn:Hs; cycle 1.
      { intros [= <- <-]. split_and!; [lia..| |].
        - intros j ??; lia.
        - right. exists s. split_and!; [lia| |by left].
          by replace (S calls - 1) with calls by lia. }
      destruct (first <? max_retries - 1) eqn:Hlt.
      * intros Hloop.
        destruct (IH (S first) (S calls) ltac:(lia) Hloop)
          as (Hle & Hbefore & Hres).
        split_and!; [lia..| |].
        -- intros j Hj1 Hj2. destruct (decide (j = calls)) as [->|Hne].
           ++ by exists s.
           ++ apply Hbefore; lia.
        -- destruct result as [d|].
           ++ destruct Hres as (e & ? & ? & ?). exists e.
              split_and!; [lia|done..].
           ++ right. destruct Hres as [->|(s' & ? & ? & Hor)].
              ** apply Nat.ltb_lt in Hlt. unfold max_retries in *. lia.
              ** exists s'. split_and!; [lia|done|].
                 destruct Hor; [by left|right; lia].
      * intros [= <- <-]. apply Nat.ltb_ge in Hlt.
        assert (n = 0) as -> by (unfold max_retries in *; lia).
        split_and!; [lia..| |].
        -- intros j ??; lia.
        -- right. exists s. split_and!; [lia| |right; lia].
           by replace (S calls - 1) with calls by lia.
Qed.

(** X25.  When [extract_event_info] returns a dictionary, its event, author
    and source document are the ones passed in, whatever the model
    answered; the claims, temporal details and tone are those of the
    answer, which came from the last of one to three calls, all earlier
    ones having failed with a rate limit error. *)
Theorem extract_event_info_result
    chunk_text event_id event_name document_title author calls d calls' :
  extract_event_info client build_extraction_prompt create
    chunk_text event_id event_name document_title author calls
  = (Returned (Some d), calls') →
  event (dumped d) = event_id
  ∧ llm_extractor.author (dumped d) = author
  ∧ source_document d = document_title
  ∧ calls < calls' ≤ calls + 3
  ∧ ∃ prompt e,
      build_extraction_prompt chunk_text event_id event_name
        document_title author = Some prompt
      ∧ create (calls' - 1) prompt = Answer e
      ∧ claims (dumped d) = claims e
      ∧ temporal_details (dumped d) = temporal_details e
      ∧ tone (dumped d) = tone e
      ∧ ∀ j, calls ≤ j → S j < calls' →
          ∃ s, create j prompt = Error s ∧ is_rate_limit s = true.
Proof.
  unfold extract_event_info. destruct client; cbn [negb]; [|done].
  destruct (build_extraction_prompt _ _ _ _ _) as [prompt|]; [|done].
  destruct (attempt_loop _ _ _ _ _ _ _) as [result calls1] eqn:Hloop.
  intros [= -> ->].
  destruct (attempt_loop_spec _ _ _ _ 0 3 _ _ _ eq_refl Hloop)
    as (Hle & Hbefore & e & Hlt & He & ->). cbn.
  split_and!; [done..|lia|lia|]. by exists prompt, e.
Qed.

(** X26.  When [extract_event_info] returns [None], either there is no
    client and no call was made, or the last of one to three calls failed:
    with an error that is no rate limit, which is never retried, or with
    the third rate limit error in a row. *)
Theorem extract_event_info_failure
    chunk_text event_id event_name document_title author calls calls' :
  extract_event_info client build_extraction_prompt create
    chunk_text event_id event_name document_title author calls
  = (Returned None, calls') →
  (client = false ∧ calls' = calls)
  ∨ ∃ prompt s,
      build_extraction_prompt chunk_text event_id event_name
        document_title author = Some prompt
      ∧ calls < calls' ≤ calls + 3
      ∧ create (calls' - 1) prompt = Error s
      ∧ (is_rate_limit s = false ∨ calls' = calls + 3)
      ∧ ∀ j, calls ≤ j → S j < calls' →
          ∃ s', create j prompt = Error s' ∧ is_rate_limit s' = true.
Proof.
  unfold extract_event_info. destruct client; cbn [negb]; cycle 1.
  { intros [= <-]. by left. }
  destruct (build_extraction_prompt _ _ _ _ _) as [prompt|]; [|done].
  destruct (attempt_loop _ _ _ _ _ _ _) as [result calls1] eqn:Hloop.
  intros [= -> ->]. right.
  destruct (attempt_loop_spec _ _ _ _ 0 3 _ _ _ eq_refl Hloop)
    as (Hle & Hbefore & [?|(s & Hlt & Hs & Hor)]); [done|].
  exists prompt, s. split_and!; [done|lia|lia|done|done|done].
Qed.

Lemma extract_event_info_calls
    chunk_text event_id event_name document_title author calls :
  let r := extract_event_info client build_extraction_prompt create
             chunk_text event_id event_name document_title author calls in
  calls ≤ r.2 ≤ calls + 3
  ∧ (client = false → r = (Returned None, calls))
  ∧ ∀ d, r.1 = Returned (Some d) →
      event (dumped d) = event_id
      ∧ llm_extractor.author (dumped d) = author
      ∧ source_document d = document_title.
Proof.
  cbn zeta. unfold extract_event_info. destruct client; cbn [negb]; cycle 1.
  { cbn. split_and!; [lia..|done|done]. }
  destruct (build_extraction_prompt _ _ _ _ _) as [prompt|]; cycle 1.
  { cbn. split_and!; [lia..|done|done]. }
  destruct (attempt_loop _ _ _ _ _ _ _) as [result calls1] eqn:Hloop.
  destruct (attempt_loop_spec _ _ _ _ 0 3 _ _ _ eq_refl Hloop)
    as (Hle & _ & Hres). cbn.
  split_and!; [lia..|done|]. intros d [= ->].
  by destruct Hres as (e & _ & _ & ->).
Qed.

Lemma extract_chunk_spec document_title author event_id event_name
    results calls c :
  let st := extract_chunk client build_extraction_prompt create
              document_title author event_id event_name (results, calls) c in
  calls ≤ st.2 ≤ calls + 3
  ∧ (client = false → st = (results, calls))
  ∧ (st.1 = results
     ∨ ∃ d, st.1 = results ++ [d]
          ∧ claims (dumped d) ≠ []
          ∧ event (dumped d) = event_id
          ∧ llm_extractor.author (dumped d) = author
          ∧ source_document d = document_title).
Proof.
  cbn zeta. unfold extract_chunk.
  destruct (extract_event_info_calls (text c) event_id event_name
              document_title author calls) as (Hle & Hoff & Hres).
  cbn zeta in *.
  destruct (extract_event_info _ _ _ _ _ _ _ _ _) as [[[d|]|] calls1].
  - cbn in *. destruct (Hres d eq_refl) as (He & Ha & Hs).
    destruct (claims (dumped d)) as [|cl cls] eqn:Hcl; cbn.
    + split_and!; [lia..| |by left]. intros Hc. by specialize (Hoff Hc).
    + split_and!; [lia..| |].
      * intros Hc. by specialize (Hoff Hc).
      * right. exists d. by rewrite Hcl.
  - cbn in *. split_and!; [lia..| |by left].
    intros Hc. specialize (Hoff Hc). by injection Hoff as ->.
  - cbn in *. split_and!; [lia..| |by left].
    intros Hc. by specialize (Hoff Hc).
Qed.

Lemma extract_chunks_spec document_title author event_id event_name
    (relevant : list chunk) results calls :
  let st := foldl (extract_chunk client build_extraction_prompt create
                     document_title author event_id event_name)
                  (results, calls) relevant in
  calls ≤ st.2 ≤ calls + 3 * length relevant
  ∧ (client = false → st = (results, calls))
  ∧ ∃ new, st.1 = results ++ new
         ∧ length new ≤ length relevant
         ∧ Forall (λ d, claims (dumped d) ≠ []
                        ∧ event (dumped d) = event_id
                        ∧ llm_extractor.author (dumped d) = author
                        ∧ source_document d = document_title) new.
Proof.
  cbn zeta. revert results calls.
  induction relevant as [|c relevant IH]; intros results calls.
  - cbn. split_and!; [lia..|done|]. exists []. by rewrite app_nil_r.
  - cbn [foldl length].
    destruct (extract_chunk_spec document_title author event_id event_name
                results calls c) as (Hle & Hoff & Hres). cbn zeta in *.
    destruct (extract_chunk _ _ _ _ _ _ _ _ c) as [results1 calls1].
    cbn in Hle, Hres. destruct (IH results1 calls1) as (Hle' & Hoff' & Hnew).
    split_and!; [lia..| |].
    + intros Hc. rewrite (Hoff' Hc). by apply Hoff.
    + destruct Hnew as (new & -> & Hlen & Hall).
      destruct Hres as [->|(d & -> & Hd)].
      * exists new. split_and!; [done|lia|done].
      * exists (d :: new). rewrite <-app_assoc.
        split_and!; [done|cbn; lia|by constructor].
Qed.

(** X27.  [extract_from_document] returns at most one dictionary per
    relevant chunk and makes at most three calls per relevant chunk, none
    without a client; every dictionary returned has claims and carries the
    event, author and document title passed in. *)
Theorem extract_from_document_spec
    document_text document_id document_title author event_id event_name
    event_keywords calls results calls' :
  extract_from_document client build_extraction_prompt create
    document_text document_id document_title author event_id event_name
    event_keywords calls = (results, calls') →
  let relevant_chunks :=
    find_relevant_chunks (chunk_document 2000 200 document_text document_id)
                         event_keywords in
  length results ≤ length relevant_chunks
  ∧ calls ≤ calls' ≤ calls + 3 * length relevant_chunks
  ∧ (client = false → results = [] ∧ calls' = calls)
  ∧ Forall (λ d, claims (dumped d) ≠ []
                 ∧ event (dumped d) = event_id
                 ∧ llm_extractor.author (dumped d) = author
                 ∧ source_document d = document_title) results.
Proof.
  unfold extract_from_document. cbn zeta.
  destruct (find_relevant_chunks _ _) as [|c relevant] eqn:Hrel.
  { intros [= <- <-]. cbn. split_and!; [lia..|done|done]. }
  rewrite <-Hrel. clear Hrel. intros Hrun.
  destruct (extract_chunks_spec document_title author event_id event_name
              (find_relevant_chunks
                 (chunk_document 2000 200 document_text document_id)
                 event_keywords) [] calls) as (Hle & Hoff & new & Hn & Hlen & Hall).
  cbn zeta in *. rewrite Hrun in *. cbn in Hle, Hn, Hoff. subst new.
  split_and!; [done|lia|lia| |done].
  intros Hc. specialize (Hoff Hc). by injection Hoff as -> ->.
Qed.
End extractor_facts.

Section extractor_witnesses.
Import pystr document_chunker llm_extractor extractor_samples.

Lemma extract_event_info_result_witness :
  extract_event_info true sample_prompt sample_create sample_text
    (lit "fort_sumter") (lit "Fort Sumter Decision") (lit "A Short Life")
    (lit "J. G. Nicolay") 0
  = (Returned (Some sample_dict), 2)
  ∧ event (dumped sample_dict) = lit "fort_sumter".
Proof.
  split; [reflexivity|].
  apply (extract_event_info_result true sample_prompt sample_create
           sample_text (lit "fort_sumter") (lit "Fort Sumter Decision")
           (lit "A Short Life") (lit "J. G. Nicolay") 0 sample_dict 2).
  reflexivity.
Defined.

Lemma extract_event_info_failure_witness :
  extract_event_info true sample_prompt failing_create sample_text
    (lit "fort_sumter") (lit "Fort Sumter Decision") (lit "A Short Life")
    (lit "J. G. Nicolay") 0
  = (Returned None, 1)
  ∧ ((true = false ∧ 1 = 0)
     ∨ ∃ prompt s,
         sample_prompt sample_text (lit "fort_sumter")
           (lit "Fort Sumter Decision") (lit "A Short Life")
           (lit "J. G. Nicolay") = Some prompt
         ∧ 0 < 1 ≤ 0 + 3
         ∧ failing_create (1 - 1) prompt = Error s
         ∧ (is_rate_limit s = false ∨ 1 = 0 + 3)
         ∧ ∀ j, 0 ≤ j → S j < 1 →
             ∃ s', failing_create j prompt = Error s'
                   ∧ is_rate_limit s' = true).
Proof.
  split; [reflexivity|].
  apply (extract_event_info_failure true sample_prompt failing_create
           sample_text (lit "fort_sumter") (lit "Fort Sumter Decision")
           (lit "A Short Life") (lit "J. G. Nicolay") 0 1).
  reflexivity.
Defined.

Lemma extract_from_document_spec_witness :
  extract_from_document true sample_prompt sample_create sample_text
    (lit "gutenberg_1") (lit "A Short Life") (lit "J. G. Nicolay")
    (lit "fort_sumter") (lit "Fort Sumter Decision") [lit "Fort Sumter"] 0
  = ([sample_dict], 2)
  ∧ length [sample_dict]
    ≤ length (find_relevant_chunks
                (chunk_document 2000 200 sample_text (lit "gutenberg_1"))
                [lit "Fort Sumter"]).
Proof.
  split; [reflexivity|].
  apply (extract_from_document_spec true sample_prompt sample_create
           sample_text (lit "gutenberg_1") (lit "A Short Life")
           (lit "J. G. Nicolay") (lit "fort_sumter")
           (lit "Fort Sumter Decision") [lit "Fort Sumter"] 0
           [sample_dict] 2).
  reflexivity.
Defined.

End extractor_witnesses.

(** ** Cohen's kappa: symmetry and range *)

Section kappa_more.
Import statistics kappa_spec.

Lemma observed_sym (cats1 cats2 : list category) :
  length cats1 = length cats2 → observed cats1 cats2 = observed cats2 cats1.
Proof.
  intros Hlen. unfold observed. rewrite Hlen.
  replace (filter (λ i, cats1 !! i = cats2 !! i) (seq 0 (length cats2)))
    with (filter (λ i, cats2 !! i = cats1 !! i) (seq 0 (length cats2)));
    [done|].
  generalize (seq 0 (length cats2)). intros l.
  induction l as [|i l IH]; [done|].
  destruct (decide (cats1 !! i = cats2 !! i)) as [Heq|Hne].
  - rewrite !filter_cons_True by done. by rewrite IH.
  - rewrite !filter_cons_False by (try done; by intros ?). by rewrite IH.
Qed.

Lemma expected_sym (cats1 cats2 : list category) :
  expected cats1 cats2 = expected cats2 cats1.
Proof. unfold expected, bins. cbn [foldr]. ring. Qed.

Lemma kappa_sym (cats1 cats2 : list category) :
  length cats1 = length cats2 → kappa cats1 cats2 = kappa cats2 cats1.
Proof.
  intros Hlen. unfold kappa.
  by rewrite (observed_sym _ _ Hlen), (expected_sym cats1 cats2).
Qed.

(** X28.  Swapping the two lists of ratings does not change the outcome
    of [calculate_cohens_kappa], be it a number or an exception. *)
Theorem calculate_cohens_kappa_symmetric (ratings1 ratings2 : list Z) :
  calculate_cohens_kappa ratings1 ratings2
  = calculate_cohens_kappa ratings2 ratings1.
Proof.
  destruct (decide (length ratings1 = length ratings2)) as [Hlen|Hlen].
  - destruct ratings1 as [|r1 l1].
    + by destruct ratings2.
    + rewrite kappa_equal_length by done.
      rewrite (kappa_equal_length ratings2) by (by destruct ratings2).
      f_equal. apply kappa_sym. by rewrite !length_map.
  - unfold calculate_cohens_kappa.
    rewrite !bool_decide_eq_true_2; [done|congruence|done].
Qed.
End kappa_more.

Section kappa_range.
Import statistics kappa_spec.

Lemma of_nat_le (n m : nat) : n ≤ m → (of_nat n ≤ of_nat m)%Qc.
Proof.
  intros Hle. unfold of_nat. apply (proj1 (Z2Qc_inj_le _ _)). lia.
Qed.

Lemma of_nat_pos (n : nat) : 0 < n → (0 < of_nat n)%Qc.
Proof.
  intros Hlt. unfold of_nat. rewrite <-Z2Qc_inj_0.
  apply (proj1 (Z2Qc_inj_lt _ _)). lia.
Qed.

Lemma of_nat_add (n m : nat) : of_nat (n + m) = (of_nat n + of_nat m)%Qc.
Proof. unfold of_nat. by rewrite Nat2Z.inj_add, Z2Qc_inj_add. Qed.

Lemma Qcdiv_le_1 (a b : Qc) : (0 < b)%Qc → (a ≤ b)%Qc → (a / b ≤ 1)%Qc.
Proof.
  intros Hb Hab. apply (Qcmult_le_mono_pos_r _ _ b Hb).
  unfold Qcdiv. rewrite <-Qcmult_assoc, Qcmult_inv_l, Qcmult_1_r, Qcmult_1_l.
  - done.
  - intros ->. by apply Qclt_not_eq in Hb.
Qed.

Lemma Qcdiv_nonneg (a b : Qc) : (0 ≤ a)%Qc → (0 < b)%Qc → (0 ≤ a / b)%Qc.
Proof.
  intros Ha Hb. apply (Qcmult_le_mono_pos_r _ _ b Hb).
  unfold Qcdiv. rewrite <-Qcmult_assoc, Qcmult_inv_l, Qcmult_1_r, Qcmult_0_l.
  - done.
  - intros ->. by apply Qclt_not_eq in Hb.
Qed.

Lemma observed_le_1 (cats1 cats2 : list category) :
  cats1 ≠ [] → (observed cats1 cats2 ≤ 1)%Qc.
Proof.
  intros Hne. unfold observed. apply Qcdiv_le_1.
  - apply of_nat_pos. destruct cats1; [done|cbn; lia].
  - apply of_nat_le.
    etrans; [apply length_filter|]. by rewrite length_seq.
Qed.

Lemma marginal_bounds (cats : list category) (c : category) :
  cats ≠ [] → (0 ≤ marginal cats c)%Qc ∧ (marginal cats c ≤ 1)%Qc.
Proof.
  intros Hne. unfold marginal.
  assert (Hpos : (0 < of_nat (length cats))%Qc).
  { apply of_nat_pos. destruct cats; [done|cbn; lia]. }
  split.
  - apply Qcdiv_nonneg; [|done]. rewrite <-of_nat_0. apply of_nat_le. lia.
  - apply Qcdiv_le_1; [done|]. apply of_nat_le, length_filter.
Qed.

Lemma count_bins (cats : list category) :
  length (filter (λ x, x = low) cats)
  + length (filter (λ x, x = medium_low) cats)
  + length (filter (λ x, x = medium_high) cats)
  + length (filter (λ x, x = high) cats)
  = length cats.
Proof.
  induction cats as [|c cats IH]; [done|].
  destruct c;
    repeat (first [rewrite filter_cons_True by done
                  |rewrite filter_cons_False by done]);
    cbn [length]; lia.
Qed.

Lemma marginal_sum (cats : list category) :
  cats ≠ [] →
  (marginal cats low + marginal cats medium_low
   + marginal cats medium_high + marginal cats high)%Qc = 1%Qc.
Proof.
  intros Hne. unfold marginal.
  assert (Hn : of_nat (length cats) ≠ 0%Qc).
  { apply of_nat_nonzero. by destruct cats. }
  pose proof (f_equal of_nat (count_bins cats)) as Hc.
  rewrite !of_nat_add in Hc. unfold Qcdiv.
  rewrite <-!Qcmult_plus_distr_l, Hc. by apply Qcmult_inv_r.
Qed.

Lemma expected_le_1 (cats1 cats2 : list category) :
  cats1 ≠ [] → cats2 ≠ [] → (expected cats1 cats2 ≤ 1)%Qc.
Proof.
  intros Hne1 Hne2. rewrite <-(marginal_sum cats1 Hne1).
  unfold expected, bins. cbn [foldr]. rewrite Qcplus_0_r.
  assert (Hterm : ∀ c, (marginal cats1 c * marginal cats2 c
                        ≤ marginal cats1 c)%Qc).
  { intros c. destruct (marginal_bounds cats1 c Hne1) as [H0 _].
    destruct (marginal_bounds cats2 c Hne2) as [_ H1].
    rewrite <-(Qcmult_1_r (marginal cats1 c)) at 2.
    by apply Qcmult_le_mono_nonneg_l. }
  rewrite !Qcplus_assoc.
  repeat apply Qcplus_le_compat; apply Hterm.
Qed.

Lemma kappa_le_1 (cats1 cats2 : list category) :
  cats1 ≠ [] → cats2 ≠ [] → (kappa cats1 cats2 ≤ 1)%Qc.
Proof.
  intros Hne1 Hne2. unfold kappa.
  destruct (decide (expected cats1 cats2 = 1%Qc)) as [He|He];
    [apply Qcle_refl|].
  pose proof (expected_le_1 cats1 cats2 Hne1 Hne2) as Hle.
  pose proof (observed_le_1 cats1 cats2 Hne1) as Ho.
  apply Qcdiv_le_1.
  - apply Qcle_lt_or_eq in Hle as [Hlt|Heq]; [|done].
    unfold Qcminus. by apply Qclt_minus_iff in Hlt.
  - unfold Qcminus. by apply Qcplus_le_compat; [|apply Qcle_refl].
Qed.

(** X29.  A kappa that [calculate_cohens_kappa] returns is at most 1. *)
Theorem calculate_cohens_kappa_at_most_1 (ratings1 ratings2 : list Z) k :
  calculate_cohens_kappa ratings1 ratings2 = Return k → (k ≤ 1)%Qc.
Proof.
  intros Hk.
  destruct (decide (length ratings1 = length ratings2)) as [Hlen|Hlen];
    cycle 1.
  { unfold calculate_cohens_kappa in Hk.
    by rewrite bool_decide_eq_true_2 in Hk. }
  destruct ratings1 as [|r1 l1].
  { destruct ratings2; [|done]. vm_compute in Hk. discriminate. }
  rewrite kappa_equal_length in Hk by done. injection Hk as <-.
  apply kappa_le_1; [done|]. by destruct ratings2.
Qed.
End kappa_range.

Section kappa_more_witnesses.
Import statistics kappa_spec.

Lemma calculate_cohens_kappa_at_most_1_witness :
  calculate_cohens_kappa [10; 60]%Z [10; 90]%Z
  = Return (kappa (map categorize [10; 60]%Z) (map categorize [10; 90]%Z))
  ∧ (kappa (map categorize [10; 60]%Z) (map categorize [10; 90]%Z) ≤ 1)%Qc.
Proof.
  assert (Hk : calculate_cohens_kappa [10; 60]%Z [10; 90]%Z
               = Return (kappa (map categorize [10; 60]%Z)
                               (map categorize [10; 90]%Z))).
  { vm_compute. reflexivity. }
  split; [exact Hk|].
  exact (calculate_cohens_kappa_at_most_1 [10; 60]%Z [10; 90]%Z _ Hk).
Defined.

End kappa_more_witnesses.

(** ** The normalizer: ids of the Library of Congress entries *)

Section normalizer_facts.
Import pystr extraction_main normalizer.

Lemma split_on_from_nonempty sep skip cur s :
  split_on_from sep skip cur s ≠ [].
Proof.
  revert skip cur. induction s as [|c s IH]; intros skip cur; cbn; [done|].
  destruct skip; [|apply IH]. destruct (startswith _ _); [done|apply IH].
Qed.

Lemma last_cons_nonempty {A} (a d : A) (l : list A) :
  l ≠ [] → List.last (a :: l) d = List.last l d.
Proof. by destruct l. Qed.

Lemma split_on_from_last (d : ascii) s cur :
  d ∉ cur → d ∉ List.last (split_on_from [d] 0 cur s) [].
Proof.
  revert cur. induction s as [|c s IH]; intros cur Hcur; cbn; [done|].
  destruct (bool_decide (d = c)) eqn:Hd; cbn [andb].
  - destruct s as [|c' s]; [cbn; apply not_elem_of_nil|].
    rewrite last_cons_nonempty by apply split_on_from_nonempty.
    apply IH, not_elem_of_nil.
  - apply IH. rewrite elem_of_app, list_elem_of_singleton.
    apply bool_decide_eq_false in Hd. intros [?|?]; [done|]. by apply Hd.
Qed.

Lemma replace_from_delete old skip s x :
  x ∈ replace_from old [] skip s → x ∈ s.
Proof.
  revert skip. induction s as [|c s IH]; intros skip; cbn [replace_from].
  - done.
  - destruct skip as [|k].
    + destruct (startswith (c :: s) old).
      * cbn [app]. intros Hx. right. by eapply IH.
      * intros [->|Hx]%elem_of_cons; [by left|]. right. by eapply IH.
    + intros Hx. right. by eapply IH.
Qed.

Lemma replace_from_absent (d : ascii) new s :
  d ∉ s → replace_from [d] new 0 s = s.
Proof.
  induction s as [|c s IH]; [done|]. intros Hnot. cbn.
  rewrite bool_decide_eq_false_2.
  - cbn. f_equal. apply IH. intros Hin. apply Hnot. by right.
  - intros ->. apply Hnot. by left.
Qed.

Lemma replace_absent (d : ascii) new s :
  d ∉ s → replace [d] new s = s.
Proof. apply replace_from_absent. Qed.

Lemma uint_no_slash (u : Decimal.uint) :
  "/"%char ∉ list_ascii_of_string (NilEmpty.string_of_uint u).
Proof.
  induction u as [|u IH|u IH|u IH|u IH|u IH|u IH|u IH|u IH|u IH|u IH]; cbn;
    [apply not_elem_of_nil|..];
    (intros [Heq|Hin]%elem_of_cons; [discriminate|by apply IH]).
Qed.

Lemma digits_no_slash (n : nat) : "/"%char ∉ str_of_nat n.
Proof.
  unfold str_of_nat, lit, NilZero.string_of_uint.
  destruct (Nat.to_uint n) eqn:Hu; try (rewrite <-Hu; apply uint_no_slash).
  intros [Heq|Hin]%elem_of_cons; [discriminate|by apply elem_of_nil in Hin].
Qed.

(** X30.  The id of a normalized Library of Congress entry is ["loc_"]
    followed by the last segment of the address without its [".html"], or,
    when that is empty, by ["loc_doc_"] and the index; the replacement of
    ["/"] by ["_"] never changes anything, and the id holds no ["/"]. *)
Theorem normalize_loc_document_id (d : doc_data) (index : nat) :
  let stem :=
    replace (lit ".html") []
      (List.last (split_on (lit "/") (default [] (url d))) []) in
  normalizer.id (normalize_loc_document d index)
  = lit "loc_" ++ (if truthy stem then stem
                   else lit "loc_doc_" ++ str_of_nat index)
  ∧ "/"%char ∉ normalizer.id (normalize_loc_document d index).
Proof.
  cbn zeta. unfold normalize_loc_document. cbn [normalizer.id].
  set (seg := List.last (split_on (lit "/") (default [] (url d))) []).
  assert (Hseg : "/"%char ∉ seg).
  { apply (split_on_from_last "/"%char), not_elem_of_nil. }
  assert (Hstem : "/"%char ∉ replace (lit ".html") [] seg).
  { intros Hin. apply Hseg. by eapply replace_from_delete. }
  change (lit "/") with ["/"%char].
  rewrite !(replace_absent "/"%char (lit "_") _ Hstem).
  split.
  - by destruct (replace (lit ".html") [] seg).
  - destruct (replace (lit ".html") [] seg) as [|c stem] eqn:Hs;
      cbn [truthy negb]; intros Hin;
      apply elem_of_app in Hin as [Hin|Hin]; try done.
    + apply list_elem_of_In in Hin. cbn in Hin. intuition discriminate.
    + apply elem_of_app in Hin as [Hin|Hin].
      * apply list_elem_of_In in Hin. cbn in Hin. intuition discriminate.
      * by apply digits_no_slash in Hin.
    + apply list_elem_of_In in Hin. cbn in Hin. intuition discriminate.
Qed.
Example normalize_loc_document_slash :
  normalizer.id (normalize_loc_document slash_document 7)
  = lit "loc_loc_doc_7"
  ∧ normalizer.id (normalize_loc_document page_document 7)
    = lit "loc_gettysburg".
Proof. split; reflexivity. Qed.
End normalizer_facts.
